(** * dotenv-azure: the remote resolution pipeline of [src/dotenv-azure.ts]

    A shallow embedding of the [DotenvAzure] class: credential resolution,
    enumeration and classification of the App Configuration entries,
    decoding of Key Vault references, resolution of the secrets and the
    merge with the values of the local [.env] file.

    JavaScript objects used as dictionaries are finite maps ([gmap]) of
    their own properties. The assignments of the fetcher, which take the
    name of the property from the store, go through [JS.assign], which
    creates no property under the name [__proto__]; the secrets are assigned
    under the keys of the references, and the clients under the [href] of a
    URL. [string | undefined] is [option string]; a
    [number] is an IEEE 754 double ([spec_float] at precision 53), so the
    division of the constructor is rounded and has its infinities and NaN.
    Exceptions and rejected promises are the [Throw] results of a
    state-and-error monad whose state holds [process.env], the registry of
    Key Vault clients and the log of the calls made to the collaborators.
    Building the client of the store may throw, and the enumeration of the
    entries is a finite run of entries that ends or is cut by a rejection.
    The asynchronous calls are sequentialised: the scheduled secret fetches
    settle one after the other, in the order the map of references lists
    them, and the phase fails at the first rejection. *)

From Stdlib Require Import ZArith QArith Qround String Ascii List Lia SpecFloat.
From stdpp Require Import base strings gmap list.

Set Warnings "-register-all".
Open Scope Z_scope.
Open Scope string_scope.

(** ** JavaScript values *)

Module JS.

(** [ToBoolean] on [string | undefined]: only a non-empty string is truthy. *)
Definition truthy (s : option string) : bool :=
  match s with
  | Some s => negb (String.eqb s "")
  | None => false
  end.

(** [a || b] on [string | undefined]. *)
Definition or (a b : option string) : option string :=
  if truthy a then a else b.

(** [{ ...a, ...b }]: the own properties of [a] overwritten by those of [b]. *)
Definition spread {V : Type} (a b : gmap string V) : gmap string V := b ∪ a.

(** [obj[key] = v] on an object created by the literal [{}]: the own
    property is created or overwritten, except under the name [__proto__],
    where the assignment reaches the setter inherited from
    [Object.prototype]: no own property is created (given an object, the
    setter replaces the prototype of [obj], which neither [Object.entries]
    nor a spread reads). *)
Definition assign {V : Type} (key : string) (v : V) (obj : gmap string V)
    : gmap string V :=
  if String.eqb key "__proto__" then obj else <[key := v]> obj.

(** A [number]: an IEEE 754 binary64 value. *)
Definition prec : Z := 53.
Definition emax : Z := 1024.
Definition number : Type := spec_float.

#[global] Instance number_eq_dec : EqDecision number.
Proof. solve_decision. Defined.

(** The number an integer literal denotes. *)
Definition of_Z (n : Z) : number := binary_normalize prec emax n 0 false.

(** [x / y], rounded to the nearest number, ties to even. *)
Definition div (x y : number) : number := SFdiv prec emax x y.

Definition is_finite (x : number) : bool :=
  match x with
  | S754_zero _ | S754_finite _ _ _ => true
  | S754_infinity _ | S754_nan => false
  end.

(** The real a finite number stands for, as a fraction. *)
Definition to_Q (x : number) : Q :=
  match x with
  | S754_finite s m (Zneg k) => Qmake (cond_Zopp s (Zpos m)) (2 ^ k)
  | S754_finite s m e => inject_Z (cond_Zopp s (Zpos m) * 2 ^ e)
  | _ => 0%Q
  end.

(** [Math.ceil(x)]: [x] itself when it is not finite, a zero or an integer;
    [-0] when [-1 < x < 0]; otherwise the least integer that is not below
    [x]. *)
Definition Math_ceil (x : number) : number :=
  match x with
  | S754_finite s m (Zneg k) =>
      match Qceiling (to_Q x) with
      | Z0 => S754_zero s
      | n => of_Z n
      end
  | _ => x
  end.

(** The values [JSON.parse] can return, and [undefined]. A number carries
    its [ToString] image. *)
Inductive Value : Type :=
| Undefined
| Null
| Bool (b : bool)
| Number (shown : string)
| Str (s : string)
| Array (items : list Value)
| Object (props : list (string * Value)).

(** [String(v)], the conversion [new URL(v)] applies to its argument. *)
Fixpoint ToString (v : Value) : string :=
  match v with
  | Undefined => "undefined"
  | Null => "null"
  | Bool true => "true"
  | Bool false => "false"
  | Number shown => shown
  | Str s => s
  | Array items =>
      String.concat ","
        (List.map (fun x => match x with
                            | Undefined | Null => ""
                            | _ => ToString x
                            end) items)
  | Object _ => "[object Object]"
  end.

Fixpoint assoc (name : string) (props : list (string * Value)) : option Value :=
  match props with
  | [] => None
  | (k, v) :: rest => if String.eqb k name then Some v else assoc name rest
  end.

(** [obj.uri]: a [TypeError] ([None]) on [undefined] and [null], the own
    property of an object, [undefined] on every other value. *)
Definition get_uri (obj : Value) : option Value :=
  match obj with
  | Undefined | Null => None
  | Object props => Some (default Undefined (assoc "uri" props))
  | _ => Some Undefined
  end.

(** [s.split(sep)] for a one-character separator. *)
Fixpoint split (sep : ascii) (s : string) : list string :=
  match s with
  | EmptyString => [EmptyString]
  | String c rest =>
      if Ascii.eqb c sep then EmptyString :: split sep rest
      else match split sep rest with
           | [] => [String c EmptyString]
           | seg :: segs => String c seg :: segs
           end
  end.

(** The fields of a WHATWG [URL] object the module reads. *)
Record URL : Type := { href : string; origin : string; pathname : string }.

End JS.

(** ** Types ([./types], [./errors] and the clients' entries) *)

Abbreviation VariablesObject := (gmap string (option string)).
Abbreviation DotenvParseOutput := (gmap string string).
Abbreviation ProcessEnv := (gmap string string).

Record ConfigurationSetting : Type := {
  key : string;
  label : option string;
  value : option string;
  contentType : option string
}.

Record KeyVaultReferenceInfo : Type := {
  vaultUrl : JS.URL;
  secretUrl : JS.URL;
  secretName : string;
  secretVersion : option string
}.

Abbreviation KeyVaultReferences := (gmap string KeyVaultReferenceInfo).

Record AppConfigurations : Type := {
  appConfigVars : VariablesObject;
  keyVaultReferences : KeyVaultReferences
}.

Record AzureCredentials : Type := { cred_connectionString : string }.

Record DotenvAzureOptions : Type := {
  opt_rateLimit : option JS.number;
  opt_tenantId : option string;
  opt_clientId : option string;
  opt_clientSecret : option string;
  opt_connectionString : option string
}.

Record DotenvParseOptions : Type := { parse_debug : option bool }.

Record DotenvAzureConfigOptions : Type := {
  safe : option bool;
  allowEmptyValues : option bool;
  example : option string;
  path : option string;
  encoding : option string;
  debug : option bool
}.

Record DotenvConfigOutput : Type := {
  dotenv_parsed : option DotenvParseOutput;
  dotenv_error : option string
}.

Record DotenvAzureConfigOutput : Type := {
  parsed : VariablesObject;
  dotenv : DotenvConfigOutput;
  azure : VariablesObject
}.

(** What a [throw] or a rejected promise carries: the three error classes of
    [./errors], any other [Error] instance, or a value that is not an
    [Error]. *)
Inductive Exn : Type :=
| MissingAppConfigCredentialsError
| InvalidKeyVaultUrlError (key : string)
| MissingEnvVarsError (allowEmptyValues : bool) (path example : string)
    (missing : list string) (dotenvError : option string)
| OtherError (message : string)
| NotAnError (thrown : string).

(** [err instanceof Error]. *)
Definition instanceof_Error (err : Exn) : bool :=
  match err with
  | NotAnError _ => false
  | _ => true
  end.

Inductive Result (A : Type) : Type :=
| Ok (a : A)
| Throw (err : Exn).
Arguments Ok {A} a.
Arguments Throw {A} err.

(** What a [for await] loop gets from an async iterable: an item and the
    rest of the run, the end of the run, or the rejection of a [next()]. *)
Inductive AsyncIterable (A : Type) : Type :=
| Done
| Yield (item : A) (rest : AsyncIterable A)
| Reject (reason : Exn).
Arguments Done {A}.
Arguments Yield {A} item rest.
Arguments Reject {A} reason.

(** The items of a run, and the rejection that cuts it, if any. *)
Fixpoint yielded {A : Type} (run : AsyncIterable A) : list A :=
  match run with
  | Yield item rest => item :: yielded rest
  | Done | Reject _ => []
  end.

Fixpoint rejection {A : Type} (run : AsyncIterable A) : option Exn :=
  match run with
  | Yield _ rest => rejection rest
  | Done => None
  | Reject reason => Some reason
  end.

(** The run that yields [items] and goes on as [rest]. *)
Definition yields {A : Type} (items : list A) (rest : AsyncIterable A)
    : AsyncIterable A :=
  foldr Yield rest items.

(** The outcome of [SecretClient.getSecret]: the [value] of the response
    (possibly [undefined]) or a rejection. *)
Inductive SecretResponse : Type :=
| Resolved (response_value : option string)
| Rejected (reason : Exn).

Record SecretClient : Type := { client_vaultURL : string }.
Record AppConfigurationClient : Type := { client_connectionString : string }.
Record Bottleneck : Type := { minTime : JS.number }.

(** ** The instance and its effects *)

(** The [readonly] fields of a [DotenvAzure] instance. *)
Record DotenvAzure : Type := {
  keyVaultRateLimitMinTime : JS.number;
  connectionString : option string;
  tenantId : option string;
  clientId : option string;
  clientSecret : option string
}.

(** Calls made to the collaborators, in the order they are made. *)
Inductive Event : Type :=
| NewAppConfigurationClient (connectionString : string)
| ListConfigurationSettings (connectionString : string)
| NewBottleneck (minTime : JS.number)
| NewSecretClient (vaultURL : string)
| GetSecret (vaultURL secretName : string) (version : option string)
| ConsoleWarn (prefix : string) (err : Exn).

(** The events that build a client of a remote service or call one. *)
Definition is_remote (ev : Event) : bool :=
  match ev with
  | NewAppConfigurationClient _ | ListConfigurationSettings _
  | NewSecretClient _ | GetSecret _ _ _ => true
  | NewBottleneck _ | ConsoleWarn _ _ => false
  end.

(** The mutable state: [process.env], [this.keyVaultClients], the log. *)
Record State : Type := {
  process_env : ProcessEnv;
  keyVaultClients : gmap string SecretClient;
  log : list Event
}.

Definition M (A : Type) : Type := State -> Result A * State.

Definition ret {A : Type} (a : A) : M A := fun st => (Ok a, st).

Definition throw {A : Type} (err : Exn) : M A := fun st => (Throw err, st).

Definition bind {A B : Type} (m : M A) (k : A -> M B) : M B :=
  fun st =>
    match m st with
    | (Ok a, st') => k a st'
    | (Throw err, st') => (Throw err, st')
    end.

(** [try { m } catch (err) { handler }]: the effects of [m] up to the throw
    are kept. *)
Definition try_catch {A : Type} (m : M A) (handler : Exn -> M A) : M A :=
  fun st =>
    match m st with
    | (Ok a, st') => (Ok a, st')
    | (Throw err, st') => handler err st'
    end.

Definition emit (ev : Event) : M unit :=
  fun st =>
    (Ok tt, {| process_env := process_env st;
               keyVaultClients := keyVaultClients st;
               log := log st ++ [ev] |}).

Definition lift {A : Type} (r : Result A) : M A := fun st => (r, st).

#[global] Instance M_ret : MRet M := @ret.
#[global] Instance M_bind : MBind M := fun A B k m => bind m k.

(** ** The collaborators

    The platform ([JSON.parse], [new URL]), [dotenv], [fs], the helpers of
    [./utils], the App Configuration store and the Key Vault service are
    parameters of the development. *)
Class Collaborators : Type := {
  (** [JSON.parse]; [None] is a [SyntaxError]. *)
  JSON_parse : string -> option JS.Value;
  (** [new URL(input)] without a base; [None] is the [TypeError] of an
      invalid URL. *)
  URL_new : string -> option JS.URL;
  (** The empty text is not JSON; a string without a scheme is not a URL. *)
  JSON_parse_empty : JSON_parse "" = None;
  URL_new_undefined : URL_new "undefined" = None;
  dotenv_parse : string -> option DotenvParseOptions -> DotenvParseOutput;
  (** [dotenv.config]: the result, and [process.env] as it leaves it. *)
  dotenv_config :
    DotenvAzureConfigOptions -> ProcessEnv -> DotenvConfigOutput * ProcessEnv;
  fs_readFileSync : string -> Result string;
  compact : ProcessEnv -> ProcessEnv;
  difference : list string -> list string -> list string;
  populateProcessEnv : VariablesObject -> ProcessEnv -> ProcessEnv;
  (** What [new AppConfigurationClient(connectionString)] throws, when it
      does not accept the connection string. *)
  AppConfigurationClient_invalid : string -> option Exn;
  (** The run of [client.listConfigurationSettings()] for a client built
      from a connection string: the entries the store enumerates, up to the
      end or to the rejection of a request. *)
  listConfigurationSettings : string -> AsyncIterable ConfigurationSetting;
  (** The vault's answer to [getSecret(name, { version })] at an origin. *)
  vault_getSecret : string -> string -> option string -> SecretResponse
}.

(** ** The class [DotenvAzure] *)

(** The media type that marks an entry as a Key Vault reference. *)
Definition keyVaultReferenceContentType : string :=
  "application/vnd.microsoft.appconfig.keyvaultref+json;charset=utf-8".

(** [constructor({ rateLimit = 45, ... } = {})]; [this.keyVaultClients = {}]
    is the registry of [initial_state]. *)
Definition constructor (options : DotenvAzureOptions) : DotenvAzure :=
  let rateLimit := default (JS.of_Z 45) (opt_rateLimit options) in
  {| keyVaultRateLimitMinTime :=
       JS.Math_ceil (JS.div (JS.of_Z 1000) rateLimit);
     connectionString := opt_connectionString options;
     tenantId := opt_tenantId options;
     clientId := opt_clientId options;
     clientSecret := opt_clientSecret options |}.

Definition initial_state (env : ProcessEnv) : State :=
  {| process_env := env; keyVaultClients := ∅; log := [] |}.

Definition Object_keys {V : Type} (o : gmap string V) : list string :=
  (map_to_list o).*1.

Section DotenvAzure.

Context `{W : Collaborators}.

(** [getAzureCredentials(dotenvVars = {})]. *)
Definition getAzureCredentials (this : DotenvAzure)
    (dotenvVars : option DotenvParseOutput) : M AzureCredentials :=
  fun st =>
    let vars := JS.spread (default ∅ dotenvVars) (process_env st) in
    let connectionString :=
      JS.or (connectionString this)
            (vars !! "AZURE_APP_CONFIG_CONNECTION_STRING") in
    match connectionString with
    | Some cs =>
        if JS.truthy (Some cs)
        then (Ok {| cred_connectionString := cs |}, st)
        else (Throw MissingAppConfigCredentialsError, st)
    | None => (Throw MissingAppConfigCredentialsError, st)
    end.

(** [isKeyVaultReference(config)]: [===] against the media type. *)
Definition isKeyVaultReference (config : ConfigurationSetting) : bool :=
  bool_decide (contentType config = Some keyVaultReferenceContentType).

(** The body of the [try] of [getKeyVaultReferenceInfo]; [None] when any of
    its steps throws. *)
Definition decodeKeyVaultReference (value : option string)
    : option KeyVaultReferenceInfo :=
  obj ← match value with
        | None => Some JS.Undefined
        | Some v => if String.eqb v "" then Some (JS.Str v) else JSON_parse v
        end;
  uri ← JS.get_uri obj;
  keyVaultUrl ← URL_new (JS.ToString uri);
  let segments := JS.split "/" (JS.pathname keyVaultUrl) in
  let secretName := segments !! 2%nat in
  let secretVersion := segments !! 3%nat in
  match secretName with
  | Some name =>
      if String.eqb name "" then None
      else
        vaultUrl ← URL_new (JS.origin keyVaultUrl);
        Some {| vaultUrl := vaultUrl;
                secretUrl := keyVaultUrl;
                secretName := name;
                secretVersion := secretVersion |}
  | None => None
  end.

(** [getKeyVaultReferenceInfo({ key, value })]: the [catch] replaces whatever
    was thrown. *)
Definition getKeyVaultReferenceInfo (config : ConfigurationSetting)
    : Result KeyVaultReferenceInfo :=
  match decodeKeyVaultReference (value config) with
  | Some info => Ok info
  | None => Throw (InvalidKeyVaultUrlError (key config))
  end.

(** The [for await] loop of [getAppConfigurations] over the run of the
    store, from the two objects built so far; nothing catches the rejection
    of the run. *)
Fixpoint getAppConfigurations_loop (run : AsyncIterable ConfigurationSetting)
    (appConfigVars : VariablesObject) (keyVaultReferences : KeyVaultReferences)
    : Result AppConfigurations :=
  match run with
  | Done => Ok {| appConfigVars := appConfigVars;
                  keyVaultReferences := keyVaultReferences |}
  | Reject reason => Throw reason
  | Yield config rest =>
      if isKeyVaultReference config then
        match getKeyVaultReferenceInfo config with
        | Ok info =>
            getAppConfigurations_loop rest appConfigVars
              (JS.assign (key config) info keyVaultReferences)
        | Throw err => Throw err
        end
      else
        getAppConfigurations_loop rest
          (JS.assign (key config) (value config) appConfigVars)
          keyVaultReferences
  end.

Definition getAppConfigurations (client : AppConfigurationClient)
    : M AppConfigurations :=
  emit (ListConfigurationSettings (client_connectionString client));;
  lift (getAppConfigurations_loop
          (listConfigurationSettings (client_connectionString client)) ∅ ∅).

(** [new AppConfigurationClient(connectionString)]. *)
Definition AppConfigurationClient_new (connectionString : string)
    : M AppConfigurationClient :=
  emit (NewAppConfigurationClient connectionString);;
  match AppConfigurationClient_invalid connectionString with
  | Some err => throw err
  | None => ret {| client_connectionString := connectionString |}
  end.

(** [getKeyVaultClient(vaultURL)]: one client per origin, created on first
    use. *)
Definition getKeyVaultClient (vaultURL : string) : M SecretClient :=
  fun st =>
    match keyVaultClients st !! vaultURL with
    | Some client => (Ok client, st)
    | None =>
        let client := {| client_vaultURL := vaultURL |} in
        (Ok client,
         {| process_env := process_env st;
            keyVaultClients := <[vaultURL := client]> (keyVaultClients st);
            log := log st ++ [NewSecretClient vaultURL] |})
    end.

(** [keyVaultClient.getSecret(name, { version })]. *)
Definition SecretClient_getSecret (client : SecretClient) (name : string)
    (version : option string) : M (option string) :=
  emit (GetSecret (client_vaultURL client) name version);;
  match vault_getSecret (client_vaultURL client) name version with
  | Resolved response_value => ret response_value
  | Rejected reason => throw reason
  end.

(** The closure [getSecret] of [getSecretsFromKeyVault], on the [secrets]
    object it writes to; [key] is one of the keys [Object.entries(vars)]
    lists. *)
Definition getSecret (key : string) (info : KeyVaultReferenceInfo)
    (secrets : VariablesObject) : M VariablesObject :=
  keyVaultClient ← getKeyVaultClient (JS.href (vaultUrl info));
  response_value ← SecretClient_getSecret keyVaultClient (secretName info)
                     (secretVersion info);
  ret (<[key := response_value]> secrets).

(** [Promise.all] over the tasks scheduled on the limiter: every task
    resolved, or the first rejection. *)
Fixpoint Promise_all (limiter : Bottleneck)
    (tasks : list (string * KeyVaultReferenceInfo)) (secrets : VariablesObject)
    : M VariablesObject :=
  match tasks with
  | [] => ret secrets
  | (key, val) :: rest =>
      secrets' ← getSecret key val secrets;
      Promise_all limiter rest secrets'
  end.

Definition getSecretsFromKeyVault (this : DotenvAzure)
    (vars : KeyVaultReferences) : M VariablesObject :=
  let limiter := {| minTime := keyVaultRateLimitMinTime this |} in
  emit (NewBottleneck (minTime limiter));;
  Promise_all limiter (map_to_list vars) ∅.

Definition warning_prefix : string :=
  "[Warning] Unable to load secrets from Key Vault: ".

(** [loadFromAzure(dotenvVars)]. *)
Definition loadFromAzure (this : DotenvAzure)
    (dotenvVars : option DotenvParseOutput) : M VariablesObject :=
  credentials ← getAzureCredentials this dotenvVars;
  appConfigClient ←
    AppConfigurationClient_new (cred_connectionString credentials);
  configurations ← getAppConfigurations appConfigClient;
  keyVaultSecrets ←
    try_catch (getSecretsFromKeyVault this (keyVaultReferences configurations))
      (fun err =>
         (if instanceof_Error err
          then emit (ConsoleWarn warning_prefix err)
          else ret tt);;
         ret ∅);
  ret (JS.spread (appConfigVars configurations) keyVaultSecrets).

(** [validateFromEnvExample(options, dotenvError)]. *)
Definition validateFromEnvExample (options : DotenvAzureConfigOptions)
    (dotenvError : option string) : M unit :=
  fun st =>
    let allowEmptyValues := default false (allowEmptyValues options) in
    let example := default ".env.example" (example options) in
    let path := default ".env" (path options) in
    let processEnv :=
      if allowEmptyValues then process_env st else compact (process_env st) in
    match fs_readFileSync example with
    | Throw err => (Throw err, st)
    | Ok content =>
        let exampleVars := dotenv_parse content None in
        let missing :=
          difference (Object_keys exampleVars) (Object_keys processEnv) in
        if (0 <? length missing)%nat
        then (Throw (MissingEnvVarsError allowEmptyValues path example missing
                       dotenvError), st)
        else (Ok tt, st)
    end.

(** [dotenv.config(options)] and [populateProcessEnv(variables)] on
    [process.env]. *)
Definition dotenv_config_run (options : DotenvAzureConfigOptions)
    : M DotenvConfigOutput :=
  fun st =>
    (Ok (dotenv_config options (process_env st)).1,
     {| process_env := (dotenv_config options (process_env st)).2;
        keyVaultClients := keyVaultClients st;
        log := log st |}).

Definition populateProcessEnv_run (variables : VariablesObject) : M unit :=
  fun st =>
    (Ok tt,
     {| process_env := populateProcessEnv variables (process_env st);
        keyVaultClients := keyVaultClients st;
        log := log st |}).

(** [config(options = {})]. *)
Definition config (this : DotenvAzure) (options : DotenvAzureConfigOptions)
    : M DotenvAzureConfigOutput :=
  let safe := default false (safe options) in
  dotenvResult ← dotenv_config_run options;
  azureVars ← loadFromAzure this (dotenv_parsed dotenvResult);
  let joinedVars :=
    JS.spread azureVars (Some <$> default ∅ (dotenv_parsed dotenvResult)) in
  populateProcessEnv_run azureVars;;
  (if safe
   then validateFromEnvExample options (dotenv_error dotenvResult)
   else ret tt);;
  ret {| parsed := joinedVars; dotenv := dotenvResult; azure := azureVars |}.

(** [parse(src, options)]. *)
Definition parse (this : DotenvAzure) (src : string)
    (options : option DotenvParseOptions) : M VariablesObject :=
  let dotenvVars := dotenv_parse src options in
  azureVars ← loadFromAzure this (Some dotenvVars);
  ret (JS.spread azureVars (Some <$> dotenvVars)).

End DotenvAzure.

(** ** A concrete world for the examples

    Executable collaborators on which the closed examples run. [parse_json]
    covers the ASCII JSON texts made of objects, arrays, strings without
    escapes and the three literals. [parse_url] covers the strings without
    [:] and the URLs [scheme://host/path] whose scheme, other than [file],
    is in lower case, whose host is a sequence of dot-separated labels of
    lower-case letters, digits and [-] that start with a letter, and whose
    path is made of letters, digits, [-], [_], [~] and [/]. On these inputs
    they return what [JSON.parse] and [new URL] return ([None] for what
    throws); other inputs are treated as invalid. The other collaborators
    are stand-ins: the local loader reads the same mapping from any file,
    and the client of the store accepts the connection strings in which
    [Endpoint=], [;Id=] and [;Secret=] occur in that order. *)

Module Sample.

Definition dquote : ascii := ascii_of_nat 34.
Definition backslash : ascii := ascii_of_nat 92.

Definition between (lo hi : nat) (c : ascii) : bool :=
  (lo <=? nat_of_ascii c)%nat && (nat_of_ascii c <=? hi)%nat.

Definition is_lower : ascii -> bool := between 97 122.
Definition is_upper : ascii -> bool := between 65 90.
Definition is_digit : ascii -> bool := between 48 57.
Definition is_ws (c : ascii) : bool :=
  bool_decide (nat_of_ascii c ∈ [9; 10; 13; 32]%nat).
Definition one_of (chars : string) (c : ascii) : bool :=
  bool_decide (c ∈ list_ascii_of_string chars).

Fixpoint skip_ws (s : string) : string :=
  match s with
  | String c rest => if is_ws c then skip_ws rest else s
  | EmptyString => s
  end.

Fixpoint span (p : ascii -> bool) (s : string) : string * string :=
  match s with
  | String c rest =>
      if p c then let '(taken, r0) := span p rest in (String c taken, r0)
      else (EmptyString, s)
  | EmptyString => (EmptyString, EmptyString)
  end.

(** The characters of a string up to its closing quote. *)
Definition read_string (s : string) : option (string * string) :=
  let '(str, rest) :=
    span (fun c => between 32 126 c && negb (Ascii.eqb c dquote)
                   && negb (Ascii.eqb c backslash)) s in
  match rest with
  | String c rest' => if Ascii.eqb c dquote then Some (str, rest') else None
  | EmptyString => None
  end.

Definition literal (word : string) (v : JS.Value) (s : string)
    : option (JS.Value * string) :=
  if String.prefix word s
  then Some (v, String.substring (String.length word)
                  (String.length s - String.length word) s)
  else None.

(** A later member of an object replaces an earlier one of the same name. *)
Definition add_member (k : string) (v : JS.Value)
    (later : list (string * JS.Value)) : list (string * JS.Value) :=
  match JS.assoc k later with
  | Some _ => later
  | None => (k, v) :: later
  end.

Fixpoint parse_value (fuel : nat) (s : string) : option (JS.Value * string) :=
  match fuel with
  | O => None
  | S fuel =>
      match skip_ws s with
      | EmptyString => None
      | String c rest =>
          if Ascii.eqb c dquote then
            '(str, r0) ← read_string rest; Some (JS.Str str, r0)
          else if Ascii.eqb c "[" then
            match skip_ws rest with
            | String "]" r0 => Some (JS.Array [], r0)
            | _ => '(items, r0) ← parse_elements fuel rest;
                   Some (JS.Array items, r0)
            end
          else if Ascii.eqb c "{" then
            match skip_ws rest with
            | String "}" r0 => Some (JS.Object [], r0)
            | _ => '(props, r0) ← parse_members fuel rest;
                   Some (JS.Object props, r0)
            end
          else if Ascii.eqb c "n" then literal "null" JS.Null (String c rest)
          else if Ascii.eqb c "t"
               then literal "true" (JS.Bool true) (String c rest)
          else if Ascii.eqb c "f"
               then literal "false" (JS.Bool false) (String c rest)
          else None
      end
  end
with parse_elements (fuel : nat) (s : string)
    : option (list JS.Value * string) :=
  match fuel with
  | O => None
  | S fuel =>
      '(v, r0) ← parse_value fuel s;
      match skip_ws r0 with
      | String "," r1 =>
          '(vs, r2) ← parse_elements fuel r1; Some (v :: vs, r2)
      | String "]" r1 => Some ([v], r1)
      | _ => None
      end
  end
with parse_members (fuel : nat) (s : string)
    : option (list (string * JS.Value) * string) :=
  match fuel with
  | O => None
  | S fuel =>
      match skip_ws s with
      | String c rest =>
          if Ascii.eqb c dquote then
            '(k, r0) ← read_string rest;
            match skip_ws r0 with
            | String ":" r1 =>
                '(v, r2) ← parse_value fuel r1;
                match skip_ws r2 with
                | String "," more =>
                    '(props, r3) ← parse_members fuel more;
                    Some (add_member k v props, r3)
                | String "}" r3 => Some ([(k, v)], r3)
                | _ => None
                end
            | _ => None
            end
          else None
      | EmptyString => None
      end
  end.

Definition parse_json (text : string) : option JS.Value :=
  '(v, r0) ← parse_value (2 * String.length text + 2) text;
  match skip_ws r0 with
  | EmptyString => Some v
  | _ => None
  end.

(** The schemes with a tuple origin; the origin of any other scheme
    serialises as [null]. *)
Definition special_schemes : list string :=
  ["ftp"; "http"; "https"; "ws"; "wss"].

Definition scheme_char (c : ascii) : bool :=
  is_lower c || is_digit c || one_of "+-." c.
Definition host_char (c : ascii) : bool :=
  is_lower c || is_digit c || one_of "-." c.
Definition path_char (c : ascii) : bool :=
  is_lower c || is_upper c || is_digit c || one_of "-_~/" c.

(** A label of a host name: it starts with a letter and is not in the
    [xn--] form. *)
Definition label_ok (l : string) : bool :=
  match l with
  | String c _ => is_lower c && negb (String.prefix "xn--" l)
  | EmptyString => false
  end.

Definition parse_url (input : string) : option JS.URL :=
  let '(scheme, after_scheme) := span scheme_char input in
  match scheme, after_scheme with
  | String c _, String ":" (String "/" (String "/" authority)) =>
      let '(host, path) := span host_char authority in
      let '(_, junk) := span path_char path in
      if is_lower c && negb (String.eqb scheme "file")
         && forallb label_ok (JS.split "." host) && String.eqb junk ""
         && (String.eqb path "" || String.prefix "/" path)
      then
        let special := bool_decide (scheme ∈ special_schemes) in
        let pathname :=
          if String.eqb path "" && special then "/" else path in
        Some {| JS.href := scheme ++ "://" ++ host ++ pathname;
                JS.origin := if special then scheme ++ "://" ++ host
                             else "null";
                JS.pathname := pathname |}
      else None
  | _, _ => None
  end.

(** What follows the first occurrence of [needle] in [s]. *)
Fixpoint after (needle s : string) : option string :=
  if String.prefix needle s
  then Some (String.substring (String.length needle)
               (String.length s - String.length needle) s)
  else match s with
       | String _ rest => after needle rest
       | EmptyString => None
       end.

Definition invalid_connection_string (connectionString : string)
    : option Exn :=
  let fields : option string :=
    r0 ← after "Endpoint=" connectionString;
    r1 ← after ";Id=" r0;
    after ";Secret=" r1 in
  match fields with
  | Some _ => None
  | None => Some (OtherError "Invalid connection string")
  end.

(** The text [{"uri":"<uri>"}] of a Key Vault reference. *)
Definition reference_value (uri : string) : string :=
  let q := String dquote EmptyString in
  "{" ++ q ++ "uri" ++ q ++ ":" ++ q ++ uri ++ q ++ "}".

(** A world given by the content of the local file, the run of the store
    and the answers of the vault. *)
Definition world (local : DotenvParseOutput)
    (store : AsyncIterable ConfigurationSetting)
    (vault : string -> string -> option string -> SecretResponse)
    : Collaborators :=
  {| JSON_parse := parse_json;
     URL_new := parse_url;
     JSON_parse_empty := eq_refl;
     URL_new_undefined := eq_refl;
     dotenv_parse := fun _ _ => local;
     dotenv_config := fun _ env =>
       ({| dotenv_parsed := Some local; dotenv_error := None |}, env ∪ local);
     fs_readFileSync := fun _ => Ok EmptyString;
     compact := filter (fun kv => kv.2 ≠ EmptyString);
     difference := fun xs ys => filter (fun x => x ∉ ys) xs;
     populateProcessEnv := fun vars env => env ∪ omap id vars;
     AppConfigurationClient_invalid := invalid_connection_string;
     listConfigurationSettings := fun _ => store;
     vault_getSecret := vault |}.

Definition plain (k : string) (lbl : option string) (v : string)
    : ConfigurationSetting :=
  {| key := k; label := lbl; value := Some v; contentType := None |}.

Definition reference (k : string) (lbl : option string) (uri : string)
    : ConfigurationSetting :=
  {| key := k; label := lbl; value := Some (reference_value uri);
     contentType := Some keyVaultReferenceContentType |}.

(** [new DotenvAzure({ connectionString })]. *)
Definition instance (supplied : option string) : DotenvAzure :=
  constructor {| opt_rateLimit := None;
                 opt_tenantId := None;
                 opt_clientId := None;
                 opt_clientSecret := None;
                 opt_connectionString := supplied |}.

Definition no_options : DotenvAzureConfigOptions :=
  {| safe := None; allowEmptyValues := None; example := None; path := None;
     encoding := None; debug := None |}.

(** The store of the specification's scenario: the plain entry [B] and the
    reference [C]. *)
Definition scenario_store : AsyncIterable ConfigurationSetting :=
  yields [plain "B" None "2";
          reference "C" None "https://v.vault.azure.net/secrets/s"] Done.

(** A store that enumerates the key [K] twice: under the label [dev] with
    a plain value, under the label [prod] with a reference. *)
Definition labelled_store : AsyncIterable ConfigurationSetting :=
  yields [plain "K" (Some "dev") "plain";
          reference "K" (Some "prod") "https://v.vault.azure.net/secrets/s"]
    Done.

Definition resolves (secret : string)
    : string -> string -> option string -> SecretResponse :=
  fun _ _ _ => Resolved (Some secret).

Definition rejects (reason : Exn)
    : string -> string -> option string -> SecretResponse :=
  fun _ _ _ => Rejected reason.

(** What a run returned, [fallback] when it threw. *)
Definition returned {A : Type} (fallback : A) (r : Result A) : A :=
  match r with
  | Ok a => a
  | Throw _ => fallback
  end.

Definition no_configurations : AppConfigurations :=
  {| appConfigVars := ∅; keyVaultReferences := ∅ |}.

(** A connection string, the client [loadFromAzure] builds from it, and
    the state once it is built. *)
Definition connection : string :=
  "Endpoint=https://store.azconfig.io;Id=id;Secret=c2VjcmV0".

Definition client : AppConfigurationClient :=
  {| client_connectionString := connection |}.

Definition connected (st : State) : State :=
  {| process_env := process_env st;
     keyVaultClients := keyVaultClients st;
     log := log st ++ [NewAppConfigurationClient connection] |}.

(** The scenario of the specification: the local file defines [A], the
    vault resolves the secret to [3]. *)
Definition scenario : Collaborators :=
  world {[ "A" := "1" ]} scenario_store (resolves "3").

(** The same store with an empty local file and a vault that rejects every
    fetch. *)
Definition unreachable (reason : Exn) : Collaborators :=
  world ∅ scenario_store (rejects reason).

(** A store whose only entry is the reference [D] of the specification, with
    a [uri] that is not a URL. *)
Definition malformed : Collaborators :=
  world ∅ (yields [reference "D" None "not a url"] Done) (resolves "3").

(** A store without references, with a vault that rejects every fetch. *)
Definition plain_store : AsyncIterable ConfigurationSetting :=
  yields [plain "B" None "2"; plain "D" (Some "dev") "4"] Done.

Definition plain_only : Collaborators :=
  world ∅ plain_store (rejects (OtherError "unreachable")).

(** The store of the scenario after an entry of key [__proto__]. *)
Definition proto_store : AsyncIterable ConfigurationSetting :=
  Yield (plain "__proto__" None "polluted") scenario_store.

Definition proto : Collaborators :=
  world {[ "A" := "1" ]} proto_store (resolves "3").

(** A store whose run is cut by a rejection after the plain entry [B]. *)
Definition cut_store : AsyncIterable ConfigurationSetting :=
  yields [plain "B" None "2"] (Reject (OtherError "request failed")).

Definition cut : Collaborators :=
  world ∅ cut_store (resolves "3").

(** The local file defines [K], the store enumerates it twice, the vault
    resolves the secret to [secret]. *)
Definition collision : Collaborators :=
  world {[ "K" := "local" ]} labelled_store (resolves "secret").

End Sample.

(** ** The specification's vocabulary

    The notions the specification is worded with, defined from its text and
    compared below with the functions of the class. *)

Module Spec.

(** A value that is present: defined and not the empty string. *)
Definition present (s : option string) : option string :=
  match s with
  | Some EmptyString => None
  | other => other
  end.

(** The ambient environment overlaid on the local values: the ambient value
    of a key when there is one, the local value otherwise. *)
Definition ambient_over_local (local ambient : gmap string string)
    (k : string) : option string :=
  match ambient !! k with
  | Some v => Some v
  | None => local !! k
  end.

(** The connection string: the constructor's when present, otherwise the
    one of the overlay. *)
Definition resolve_connection_string (supplied : option string)
    (local ambient : gmap string string) : option string :=
  match present supplied with
  | Some cs => Some cs
  | None =>
      present (ambient_over_local local ambient
                 "AZURE_APP_CONFIG_CONNECTION_STRING")
  end.

(** [n] is the ceiling of [x]: the least integer that is not below [x]. *)
Definition is_ceil (x : Q) (n : Z) : Prop :=
  (x <= inject_Z n)%Q /\ forall m : Z, (x <= inject_Z m)%Q -> n <= m.

(** Three-way merge with the precedence order [lowest], [middle],
    [highest]: a key takes its value from the highest-ranked mapping that
    has it. *)
Definition merge3 {V : Type} (lowest middle highest : gmap string V)
    (k : string) : option V :=
  match highest !! k with
  | Some v => Some v
  | None => match middle !! k with
            | Some v => Some v
            | None => lowest !! k
            end
  end.

Section Decoding.

Context `{W : Collaborators}.

(** The value parses as JSON with a [uri] field. *)
Definition json_uri (value : option string) : option JS.Value :=
  match value with
  | Some text =>
      match JSON_parse text with
      | Some (JS.Object props) => JS.assoc "uri" props
      | _ => None
      end
  | None => None
  end.

Definition path_segment (url : JS.URL) (n : nat) : option string :=
  JS.split "/" (JS.pathname url) !! n.

(** The value does not parse as JSON with a [uri] field. *)
Definition no_uri (value : option string) : Prop :=
  json_uri value = None.

(** The [uri] does not parse as a URL. *)
Definition bad_url (value : option string) : Prop :=
  exists uri, json_uri value = Some uri /\ URL_new (JS.ToString uri) = None.

(** The secret name, the third segment of the path, is empty or absent. *)
Definition no_secret_name (value : option string) : Prop :=
  exists uri url,
    json_uri value = Some uri /\ URL_new (JS.ToString uri) = Some url /\
    Spec.present (path_segment url 2) = None.

(** The origin of the URL is not itself a URL. *)
Definition opaque_origin (value : option string) : Prop :=
  exists uri url name,
    json_uri value = Some uri /\ URL_new (JS.ToString uri) = Some url /\
    Spec.present (path_segment url 2) = Some name /\
    URL_new (JS.origin url) = None.

(** The value decodes to [info]. *)
Definition decodes_to (value : option string) (info : KeyVaultReferenceInfo)
    : Prop :=
  exists uri url name origin_url,
    json_uri value = Some uri /\ URL_new (JS.ToString uri) = Some url /\
    Spec.present (path_segment url 2) = Some name /\
    URL_new (JS.origin url) = Some origin_url /\
    info = {| vaultUrl := origin_url;
              secretUrl := url;
              secretName := name;
              secretVersion := path_segment url 3 |}.

End Decoding.

End Spec.

(** ** Reading the log and the registry *)

Module Trace.

(** The vault origins for which a client was built, in order. *)
Definition clients_created (events : list Event) : list string :=
  omap (fun ev => match ev with
                  | NewSecretClient vaultURL => Some vaultURL
                  | _ => None
                  end) events.

(** The secret fetches issued, in order: origin, name and version. *)
Definition fetches (events : list Event)
    : list (string * string * option string) :=
  omap (fun ev => match ev with
                  | GetSecret vaultURL name version =>
                      Some (vaultURL, name, version)
                  | _ => None
                  end) events.

(** The intervals of the limiters built, in order. *)
Definition limiters (events : list Event) : list JS.number :=
  omap (fun ev => match ev with
                  | NewBottleneck interval => Some interval
                  | _ => None
                  end) events.

(** The fetch a reference asks for. *)
Definition request (info : KeyVaultReferenceInfo)
    : string * string * option string :=
  (JS.href (vaultUrl info), secretName info, secretVersion info).

(** The registry holds, under each origin, a client bound to that origin,
    and these are the clients the log says were built, each built once. *)
Definition registry_ok (st : State) : Prop :=
  NoDup (clients_created (log st)) /\
  (forall vaultURL, vaultURL ∈ clients_created (log st) <->
                    is_Some (keyVaultClients st !! vaultURL)) /\
  (forall vaultURL client, keyVaultClients st !! vaultURL = Some client ->
                           client_vaultURL client = vaultURL).

(** A path segment: a string without [/]. *)
Definition segment (s : string) : Prop :=
  ~ In "/"%char (list_ascii_of_string s).

(** The events of the secret phase that reach a vault. *)
Definition is_vault_event (ev : Event) : bool :=
  match ev with
  | NewSecretClient _ | GetSecret _ _ _ => true
  | _ => false
  end.

Section Vault.

Context `{W : Collaborators}.

(** The vault's answer to the fetch a reference asks for. *)
Definition answer (info : KeyVaultReferenceInfo) : SecretResponse :=
  vault_getSecret (JS.href (vaultUrl info)) (secretName info)
    (secretVersion info).

(** What the secret phase comes to on a list of tasks, as a function of the
    vault's answers alone: the object filled task by task, or the first
    rejection. *)
Fixpoint outcome (tasks : list (string * KeyVaultReferenceInfo))
    (secrets : VariablesObject) : Result VariablesObject :=
  match tasks with
  | [] => Ok secrets
  | (key, info) :: rest =>
      match answer info with
      | Resolved response_value =>
          outcome rest (<[key := response_value]> secrets)
      | Rejected reason => Throw reason
      end
  end.

(** The tasks that get to issue their fetch: all of them up to the first
    rejected one, included. *)
Fixpoint issued (tasks : list (string * KeyVaultReferenceInfo))
    : list (string * KeyVaultReferenceInfo) :=
  match tasks with
  | [] => []
  | (key, info) :: rest =>
      match answer info with
      | Resolved _ => (key, info) :: issued rest
      | Rejected _ => [(key, info)]
      end
  end.

End Vault.

End Trace.

(** * Properties *)

(** ** JavaScript values *)

Lemma truthy_present (s : option string) :
  JS.truthy s = true <-> exists cs, Spec.present s = Some cs.
Proof.
  destruct s as [[|c s]|]; simpl; split; try discriminate; eauto.
  all: intros [cs Hcs]; discriminate.
Qed.

Lemma truthy_absent (s : option string) :
  JS.truthy s = false <-> Spec.present s = None.
Proof.
  destruct s as [[|c s]|]; simpl; split; try discriminate; eauto.
Qed.

Lemma present_Some (s : option string) (cs : string) :
  Spec.present s = Some cs <-> s = Some cs /\ cs <> "".
Proof.
  destruct s as [[|c s]|]; simpl; split.
  all: try (intros [Heq Hne]); try discriminate; try congruence.
  intros [= <-]. split; [reflexivity | discriminate].
Qed.

Lemma present_None (s : option string) :
  Spec.present s = None <-> s = None \/ s = Some "".
Proof.
  destruct s as [[|c s]|]; simpl; split; auto; try discriminate.
  intros [Hs | Hs]; discriminate.
Qed.

(** A property of [{ ...a, ...b }] is the one of [b] when [b] has it. *)
Lemma lookup_spread {V : Type} (a b : gmap string V) (k : string) :
  JS.spread a b !! k = match b !! k with
                       | Some v => Some v
                       | None => a !! k
                       end.
Proof.
  unfold JS.spread. rewrite lookup_union.
  destruct (b !! k), (a !! k); reflexivity.
Qed.

Lemma lookup_spread_Some {V : Type} (a b : gmap string V) (k : string) (v : V) :
  b !! k = Some v -> JS.spread a b !! k = Some v.
Proof. intros Hb. rewrite lookup_spread, Hb. reflexivity. Qed.

Lemma spread_empty_r {V : Type} (a : gmap string V) : JS.spread a ∅ = a.
Proof. unfold JS.spread. apply (left_id_L ∅ (∪)). Qed.

Lemma spread_overlay (local ambient : gmap string string) (k : string) :
  JS.spread local ambient !! k = Spec.ambient_over_local local ambient k.
Proof. apply lookup_spread. Qed.

(** ** The credential resolver *)

Section Credentials.

Context `{W : Collaborators}.

Lemma getAzureCredentials_state this dotenvVars st :
  snd (getAzureCredentials this dotenvVars st) = st.
Proof.
  unfold getAzureCredentials.
  destruct (JS.or _ _) as [cs|]; [destruct (JS.truthy (Some cs))|]; reflexivity.
Qed.

Lemma getAzureCredentials_resolve this dotenvVars st :
  fst (getAzureCredentials this dotenvVars st) =
    match Spec.resolve_connection_string (connectionString this)
            (default ∅ dotenvVars) (process_env st) with
    | Some cs => Ok {| cred_connectionString := cs |}
    | None => Throw MissingAppConfigCredentialsError
    end.
Proof.
  unfold getAzureCredentials, Spec.resolve_connection_string, JS.or.
  rewrite spread_overlay.
  destruct (connectionString this) as [[|c cs]|]; simpl; try reflexivity.
  all: destruct (Spec.ambient_over_local _ _ _) as [[|c cs]|]; reflexivity.
Qed.

End Credentials.

Section CredentialResolver.

Context `{W : Collaborators}.

Lemma getAzureCredentials_run this dotenvVars st :
  getAzureCredentials this dotenvVars st =
    (match Spec.resolve_connection_string (connectionString this)
             (default ∅ dotenvVars) (process_env st) with
     | Some cs => Ok {| cred_connectionString := cs |}
     | None => Throw MissingAppConfigCredentialsError
     end, st).
Proof.
  rewrite <- getAzureCredentials_resolve.
  rewrite <- (getAzureCredentials_state this dotenvVars st) at 3.
  apply surjective_pairing.
Qed.

Lemma resolve_nothing supplied local ambient :
  Spec.present supplied = None ->
  Spec.present (local !! "AZURE_APP_CONFIG_CONNECTION_STRING") = None ->
  Spec.present (ambient !! "AZURE_APP_CONFIG_CONNECTION_STRING") = None ->
  Spec.resolve_connection_string supplied local ambient = None.
Proof.
  intros Hs Hl Ha. unfold Spec.resolve_connection_string,
    Spec.ambient_over_local.
  rewrite Hs. destruct (ambient !! _) as [v|]; assumption.
Qed.

Lemma loadFromAzure_missing this dotenvVars st :
  Spec.resolve_connection_string (connectionString this)
    (default ∅ dotenvVars) (process_env st) = None ->
  loadFromAzure this dotenvVars st =
    (Throw MissingAppConfigCredentialsError, st).
Proof.
  intros Hnone. unfold loadFromAzure, mbind, M_bind, bind.
  rewrite getAzureCredentials_run, Hnone. reflexivity.
Qed.

(** C4. The credential resolver overlays the ambient environment on the
    local values, the ambient value of a key winning over the local one, and
    the connection string it returns is the one supplied to the constructor
    when that one is present (defined and non-empty), otherwise the value of
    [AZURE_APP_CONFIG_CONNECTION_STRING] in the overlay; with neither it
    throws. The state is left as it was. *)
Theorem getAzureCredentials_precedence this dotenvVars st :
  getAzureCredentials this dotenvVars st =
    (match Spec.resolve_connection_string (connectionString this)
             (default ∅ dotenvVars) (process_env st) with
     | Some cs => Ok {| cred_connectionString := cs |}
     | None => Throw MissingAppConfigCredentialsError
     end, st).
Proof.
  unfold getAzureCredentials, Spec.resolve_connection_string, JS.or.
  rewrite lookup_spread. fold (Spec.ambient_over_local (default ∅ dotenvVars)
                                 (process_env st)
                                 "AZURE_APP_CONFIG_CONNECTION_STRING").
  destruct (connectionString this) as [[|c cs]|]; simpl; try reflexivity.
  all: destruct (Spec.ambient_over_local _ _ _) as [[|c cs]|]; reflexivity.
Qed.

(** C10, amended. An empty string counts as absent at the two operands of
    [this.connectionString || vars.AZURE_APP_CONFIG_CONNECTION_STRING]: an
    instance built with the empty connection string resolves as one built
    with none, that is, its value is skipped and the lookup in the overlay
    decides: a non-empty value of the lookup is the connection string, and
    when the lookup yields nothing or the empty string
    [MissingAppConfigCredentialsError] is thrown. Inside the lookup the
    ambient value of the key, empty or not, hides the local one. *)
Theorem empty_connection_string_is_absent this dotenvVars st :
  let lookup :=
    Spec.ambient_over_local (default ∅ dotenvVars) (process_env st)
      "AZURE_APP_CONFIG_CONNECTION_STRING" in
  (connectionString this = Some "" ->
   forall this', connectionString this' = None ->
     getAzureCredentials this dotenvVars st =
     getAzureCredentials this' dotenvVars st) /\
  (connectionString this = None \/ connectionString this = Some "" ->
   lookup = None \/ lookup = Some "" ->
     getAzureCredentials this dotenvVars st =
     (Throw MissingAppConfigCredentialsError, st)) /\
  (connectionString this = None \/ connectionString this = Some "" ->
   forall cs, lookup = Some cs -> cs <> "" ->
     getAzureCredentials this dotenvVars st =
     (Ok {| cred_connectionString := cs |}, st)) /\
  (forall ambient,
     process_env st !! "AZURE_APP_CONFIG_CONNECTION_STRING" = Some ambient ->
     lookup = Some ambient).
Proof.
  split; [|split; [|split]].
  - intros Hempty this' Hnone. rewrite !getAzureCredentials_run.
    rewrite Hempty, Hnone. reflexivity.
  - intros Hsupplied Hlookup. rewrite getAzureCredentials_run.
    unfold Spec.resolve_connection_string.
    apply present_None in Hsupplied. apply present_None in Hlookup.
    rewrite Hsupplied, Hlookup. reflexivity.
  - intros Hsupplied cs Hlookup Hcs. rewrite getAzureCredentials_run.
    unfold Spec.resolve_connection_string.
    apply present_None in Hsupplied. rewrite Hsupplied, Hlookup.
    rewrite (proj2 (present_Some (Some cs) cs)) by auto. reflexivity.
  - intros ambient Hambient. unfold Spec.ambient_over_local.
    rewrite Hambient. reflexivity.
Qed.

(** C5. When no connection string is present in the constructor's options,
    in the local values or in the ambient environment, [loadFromAzure]
    throws [MissingAppConfigCredentialsError] from the state it was called
    in, and [config] throws it from the state [dotenv.config] left: the log
    has no new entry, so no client was built and no call was made to the
    store or to a vault. *)
Theorem missing_credentials_before_remote this dotenvVars options st :
  Spec.present (connectionString this) = None ->
  (Spec.present (default ∅ dotenvVars
                   !! "AZURE_APP_CONFIG_CONNECTION_STRING") = None ->
   Spec.present (process_env st
                   !! "AZURE_APP_CONFIG_CONNECTION_STRING") = None ->
   loadFromAzure this dotenvVars st =
     (Throw MissingAppConfigCredentialsError, st)) /\
  (Spec.present
     (default ∅ (dotenv_parsed (dotenv_config options (process_env st)).1)
        !! "AZURE_APP_CONFIG_CONNECTION_STRING") = None ->
   Spec.present ((dotenv_config options (process_env st)).2
                   !! "AZURE_APP_CONFIG_CONNECTION_STRING") = None ->
   config this options st =
     (Throw MissingAppConfigCredentialsError,
      {| process_env := (dotenv_config options (process_env st)).2;
         keyVaultClients := keyVaultClients st;
         log := log st |})).
Proof.
  intros Hsupplied. split.
  - intros Hlocal Hambient. apply loadFromAzure_missing.
    apply resolve_nothing; assumption.
  - intros Hlocal Hambient.
    unfold config, mbind, M_bind, bind, dotenv_config_run.
    rewrite loadFromAzure_missing; [reflexivity|].
    apply resolve_nothing; assumption.
Qed.

(** Within the lookup the overlay is by key: an ambient value that is the
    empty string still hides the local one. *)
Lemma empty_ambient_shadows_local this (local : DotenvParseOutput) st :
  Spec.present (connectionString this) = None ->
  process_env st !! "AZURE_APP_CONFIG_CONNECTION_STRING" = Some "" ->
  getAzureCredentials this (Some local) st =
    (Throw MissingAppConfigCredentialsError, st).
Proof.
  intros Hsupplied Hambient. rewrite getAzureCredentials_run.
  unfold Spec.resolve_connection_string, Spec.ambient_over_local.
  rewrite Hsupplied, Hambient. reflexivity.
Qed.

End CredentialResolver.

(** C10 at an instance built with the empty connection string: the local
    connection string is used, and with an empty ambient one nothing is. *)
Lemma empty_connection_string_is_absent_witness :
  let local : DotenvParseOutput :=
    {[ "AZURE_APP_CONFIG_CONNECTION_STRING" := "Endpoint=local" ]} in
  let empty : ProcessEnv :=
    {[ "AZURE_APP_CONFIG_CONNECTION_STRING" := "" ]} in
  getAzureCredentials (Sample.instance (Some "")) (Some local) (initial_state ∅)
  = getAzureCredentials (Sample.instance None) (Some local) (initial_state ∅)
  /\ getAzureCredentials (Sample.instance (Some "")) None (initial_state empty)
     = (Throw MissingAppConfigCredentialsError, initial_state empty)
  /\ getAzureCredentials (Sample.instance (Some "")) (Some local)
       (initial_state ∅)
     = (Ok {| cred_connectionString := "Endpoint=local" |}, initial_state ∅).
Proof.
  intros local empty. split; [|split].
  - apply (proj1 (empty_connection_string_is_absent
                    (Sample.instance (Some "")) (Some local) (initial_state ∅)));
      reflexivity.
  - apply (proj1 (proj2 (empty_connection_string_is_absent
                           (Sample.instance (Some "")) None
                           (initial_state empty)))).
    + right. reflexivity.
    + right. vm_compute. reflexivity.
  - apply (proj1 (proj2 (proj2 (empty_connection_string_is_absent
                                  (Sample.instance (Some "")) (Some local)
                                  (initial_state ∅))))).
    + right. reflexivity.
    + vm_compute. reflexivity.
    + discriminate.
Defined.

(** C10 as stated fails at the ambient level of the chain: with no
    connection string from the constructor and one in the local file, an
    ambient environment that does not define the variable gives the local
    connection string, and one that defines it as the empty string gives
    [MissingAppConfigCredentialsError]. *)
Lemma empty_ambient_is_not_absent :
  let this := Sample.instance None in
  let local : option DotenvParseOutput :=
    Some {[ "AZURE_APP_CONFIG_CONNECTION_STRING" := Sample.connection ]} in
  let absent : ProcessEnv := ∅ in
  let empty : ProcessEnv :=
    {[ "AZURE_APP_CONFIG_CONNECTION_STRING" := "" ]} in
  fst (getAzureCredentials this local (initial_state absent))
  = Ok {| cred_connectionString := Sample.connection |} /\
  fst (getAzureCredentials this local (initial_state empty))
  = Throw MissingAppConfigCredentialsError.
Proof.
  intros this local absent empty. split; vm_compute; reflexivity.
Qed.

(** C5 at an instance without connection string, a local file and an
    environment that do not define one. *)
Lemma missing_credentials_before_remote_witness :
  loadFromAzure (W := Sample.scenario) (Sample.instance None)
    (Some {[ "A" := "1" ]}) (initial_state ∅)
  = (Throw MissingAppConfigCredentialsError, initial_state ∅)
  /\ config (W := Sample.scenario) (Sample.instance None) Sample.no_options
       (initial_state ∅)
     = (Throw MissingAppConfigCredentialsError, initial_state {[ "A" := "1" ]}).
Proof.
  pose proof (missing_credentials_before_remote (W := Sample.scenario)
                (Sample.instance None) (Some {[ "A" := "1" ]})
                Sample.no_options (initial_state ∅) eq_refl) as [Hl Hc].
  split.
  - apply Hl; vm_compute; reflexivity.
  - rewrite Hc by (vm_compute; reflexivity). vm_compute. reflexivity.
Defined.

(** ** The constructor *)

Lemma Qceiling_is_ceil (x : Q) : Spec.is_ceil x (Qceiling x).
Proof.
  split; [apply Qle_ceiling|].
  intros m Hm. rewrite <- (Qceiling_Z m). apply Qceiling_resp_le, Hm.
Qed.

Lemma iter_xO_pow (m p : positive) :
  Pos.iter xO m p = (m * 2 ^ p)%positive.
Proof.
  induction p as [|p IH] using Pos.peano_ind.
  - simpl. lia.
  - rewrite Pos.iter_succ, IH, Pos.pow_succ_r. lia.
Qed.

Lemma digits2_pos_iter (m p : positive) :
  digits2_pos (Pos.iter xO m p) = (digits2_pos m + p)%positive.
Proof.
  induction p as [|p IH] using Pos.peano_ind.
  - simpl. lia.
  - rewrite Pos.iter_succ. simpl. rewrite IH. lia.
Qed.

Lemma digits2_pos_size (m : positive) : digits2_pos m = Pos.size m.
Proof. induction m as [m IH|m IH|]; simpl; congruence. Qed.

(** A mantissa is below [2 ^ d] exactly when it has at most [d] digits. *)
Lemma digits2_pos_le (m : positive) (d : Z) :
  0 <= d -> Zpos m < 2 ^ d <-> Zpos (digits2_pos m) <= d.
Proof.
  intros Hd. rewrite digits2_pos_size. split.
  - intros Hm.
    destruct (Z.le_gt_cases (Zpos (Pos.size m)) d) as [Hle | Hgt]; [exact Hle|].
    exfalso. pose proof (Pos.size_le m) as Hsize.
    assert (H2 : 2 ^ (d + 1) <= 2 ^ Zpos (Pos.size m))
      by (apply Z.pow_le_mono_r; lia).
    rewrite Z.pow_add_r in H2 by lia.
    assert (H3 : Zpos (2 ^ Pos.size m) <= Zpos m~0)
      by (apply Pos2Z.pos_le_pos, Hsize).
    rewrite Pos2Z.inj_pow in H3. lia.
  - intros Hle. pose proof (Pos.size_gt m) as Hsize.
    assert (H2 : Zpos m < Zpos (2 ^ Pos.size m))
      by (apply Pos2Z.pos_lt_pos, Hsize).
    rewrite Pos2Z.inj_pow in H2.
    assert (H3 : 2 ^ Zpos (Pos.size m) <= 2 ^ d)
      by (apply Z.pow_le_mono_r; lia).
    lia.
Qed.

(** Rounding keeps a mantissa of 53 digits whose exponent is in range. *)
Lemma binary_round_aux_exact (s : bool) (m : positive) (e : Z) :
  Zpos (digits2_pos m) = 53 -> -1074 <= e <= 971 ->
  binary_round_aux JS.prec JS.emax s (Zpos m) e loc_Exact = S754_finite s m e.
Proof.
  intros Hd He.
  assert (Hf : fexp JS.prec JS.emax (Zdigits2 (Zpos m) + e) - e = 0).
  { cbn [Zdigits2]. rewrite Hd. unfold fexp, emin, JS.prec, JS.emax. lia. }
  unfold binary_round_aux, shr_fexp. rewrite Hf.
  cbn [shr shr_record_of_loc loc_of_shr_record shr_m round_nearest_even].
  rewrite Hf. cbn [shr shr_m].
  assert (Hle : (e <=? JS.emax - JS.prec)%Z = true)
    by (apply Z.leb_le; unfold JS.prec, JS.emax; lia).
  rewrite Hle. reflexivity.
Qed.

Lemma binary_round_integer (s : bool) (m : positive) :
  Zpos m < 2 ^ 53 ->
  exists m' e,
    binary_round JS.prec JS.emax s m 0 = S754_finite s m' e /\
    (JS.to_Q (S754_finite s m' e) == inject_Z (cond_Zopp s (Zpos m)))%Q.
Proof.
  intros Hm. pose proof (proj1 (digits2_pos_le m 53 ltac:(lia)) Hm) as Hd.
  unfold binary_round.
  assert (Hf : fexp JS.prec JS.emax (Zpos (digits2_pos m) + 0)
               = Zpos (digits2_pos m) - 53).
  { unfold fexp, emin, JS.prec, JS.emax. lia. }
  rewrite Hf. unfold shl_align.
  destruct (Zpos (digits2_pos m) - 53 - 0) as [|p|p] eqn:Hp; [|lia|].
  - exists m, 0. rewrite binary_round_aux_exact by lia.
    split; [reflexivity|]. unfold JS.to_Q. rewrite Z.mul_1_r. reflexivity.
  - exists (Pos.iter xO m p), (Zneg p).
    assert (He : Zpos (digits2_pos m) - 53 = Zneg p) by lia.
    rewrite He, binary_round_aux_exact.
    + split; [reflexivity|]. unfold JS.to_Q. rewrite iter_xO_pow.
      unfold Qeq, inject_Z. cbn [Qnum Qden].
      destruct s; cbn [cond_Zopp]; lia.
    + rewrite digits2_pos_iter. lia.
    + lia.
Qed.

(** An integer other than zero and below [2 ^ 53] in absolute value is a
    number: the literal stands for it exactly. *)
Lemma of_Z_to_Q (n : Z) :
  n <> 0 -> Z.abs n < 2 ^ 53 ->
  JS.is_finite (JS.of_Z n) = true /\ (JS.to_Q (JS.of_Z n) == inject_Z n)%Q.
Proof.
  intros Hn Hb. unfold JS.of_Z, binary_normalize.
  destruct n as [|m|m]; [contradiction| |].
  - destruct (binary_round_integer false m Hb) as (m' & e & -> & Hq).
    split; [reflexivity | exact Hq].
  - destruct (binary_round_integer true m Hb) as (m' & e & -> & Hq).
    split; [reflexivity | exact Hq].
Qed.

(** [Math.ceil] of a finite number is the ceiling of the real it stands
    for. *)
Lemma Math_ceil_is_ceil (x : JS.number) :
  JS.is_finite x = true -> valid_binary JS.prec JS.emax x = true ->
  JS.is_finite (JS.Math_ceil x) = true /\
  (JS.to_Q (JS.Math_ceil x) == inject_Z (Qceiling (JS.to_Q x)))%Q.
Proof.
  intros Hfinite Hvalid.
  destruct x as [s|s| |s m [|e|k]]; try discriminate.
  - split; reflexivity.
  - split; [reflexivity|]. unfold JS.Math_ceil, JS.to_Q.
    rewrite Qceiling_Z. reflexivity.
  - split; [reflexivity|]. unfold JS.Math_ceil, JS.to_Q.
    rewrite Qceiling_Z. reflexivity.
  - assert (Hm : Zpos m < 2 ^ 53).
    { apply digits2_pos_le; [lia|].
      cbn [valid_binary] in Hvalid. unfold bounded in Hvalid.
      apply andb_prop in Hvalid as [Hcanonical _].
      unfold canonical_mantissa in Hcanonical. apply Z.eqb_eq in Hcanonical.
      unfold fexp, emin, JS.prec, JS.emax in Hcanonical. lia. }
    assert (Hbound : Z.abs (Qceiling (JS.to_Q (S754_finite s m (Zneg k))))
                     <= Zpos m).
    { unfold JS.to_Q, Qceiling, Qfloor, Qopp. cbn [Qnum Qden].
      pose proof (Pos2Z.is_pos (2 ^ k)) as Hden.
      assert (H2 : 2 <= Zpos (2 ^ k)).
      { rewrite Pos2Z.inj_pow.
        change 2 with (2 ^ 1) at 1. apply Z.pow_le_mono_r; lia. }
      destruct s; cbn [cond_Zopp].
      - rewrite Z.opp_involutive.
        pose proof (Z.div_pos (Zpos m) (Zpos (2 ^ k)) ltac:(lia) ltac:(lia)).
        pose proof (Z.div_le_upper_bound (Zpos m) (Zpos (2 ^ k)) (Zpos m)
                      ltac:(lia) ltac:(nia)).
        lia.
      - pose proof (Z.div_le_lower_bound (- Zpos m) (Zpos (2 ^ k)) (- Zpos m)
                      ltac:(lia) ltac:(nia)).
        pose proof (Z.div_lt_upper_bound (- Zpos m) (Zpos (2 ^ k)) 0
                      ltac:(lia) ltac:(lia)).
        lia. }
    unfold JS.Math_ceil.
    destruct (Qceiling (JS.to_Q (S754_finite s m (Zneg k)))) as [|c|c] eqn:Hc.
    + split; reflexivity.
    + apply of_Z_to_Q; lia.
    + apply of_Z_to_Q; lia.
Qed.

(** The exponent of the format grows with the magnitude. *)
Lemma fexp_mono (e1 e2 : Z) :
  e1 <= e2 -> fexp JS.prec JS.emax e1 <= fexp JS.prec JS.emax e2.
Proof. unfold fexp, emin, JS.prec, JS.emax. lia. Qed.

(** One shift to the right halves the mantissa; [p] of them divide it by
    [2 ^ p]. *)
Lemma shr_1_div2 (mrs : shr_record) :
  0 <= shr_m mrs -> shr_m (shr_1 mrs) = shr_m mrs / 2.
Proof.
  destruct mrs as [m r s]. cbn [shr_m]. intros Hm.
  destruct m as [|[p|p|]|p]; cbn [shr_1 shr_m]; try lia;
    Z.div_mod_to_equations; lia.
Qed.

Lemma iter_shr_1 (p : positive) :
  forall mrs : shr_record,
    0 <= shr_m mrs ->
    shr_m (SpecFloat.iter_pos shr_1 p mrs) = shr_m mrs / 2 ^ Zpos p.
Proof.
  assert (Hstep : forall mrs, 0 <= shr_m mrs -> 0 <= shr_m (shr_1 mrs)).
  { intros mrs Hm. rewrite shr_1_div2 by exact Hm. apply Z.div_pos; lia. }
  induction p as [p IH|p IH|]; intros mrs Hm; cbn [SpecFloat.iter_pos].
  - pose proof (Z.pow_pos_nonneg 2 (Zpos p) ltac:(lia) ltac:(lia)) as Hpow.
    assert (HxI : 2 ^ Zpos p~1 = 2 * 2 ^ Zpos p * 2 ^ Zpos p).
    { rewrite (Pos2Z.inj_xI p).
      replace (2 * Zpos p + 1) with (1 + Zpos p + Zpos p) by lia.
      rewrite !Z.pow_add_r by lia. reflexivity. }
    rewrite HxI.
    assert (H1 : 0 <= shr_m (shr_1 mrs)) by auto.
    assert (H2 : 0 <= shr_m (SpecFloat.iter_pos shr_1 p (shr_1 mrs)))
      by (rewrite IH by exact H1; apply Z.div_pos; lia).
    rewrite (IH _ H2), (IH _ H1), shr_1_div2 by exact Hm.
    rewrite !Z.div_div by lia. f_equal. lia.
  - pose proof (Z.pow_pos_nonneg 2 (Zpos p) ltac:(lia) ltac:(lia)) as Hpow.
    assert (HxO : 2 ^ Zpos p~0 = 2 ^ Zpos p * 2 ^ Zpos p).
    { rewrite (Pos2Z.inj_xO p).
      replace (2 * Zpos p) with (Zpos p + Zpos p) by lia.
      rewrite Z.pow_add_r by lia. reflexivity. }
    rewrite HxO.
    assert (H2 : 0 <= shr_m (SpecFloat.iter_pos shr_1 p mrs))
      by (rewrite IH by exact Hm; apply Z.div_pos; lia).
    rewrite (IH _ H2), (IH _ Hm).
    rewrite Z.div_div by lia. reflexivity.
  - rewrite shr_1_div2 by exact Hm. reflexivity.
Qed.

(** The digits of a positive integer. *)
Lemma Zdigits2_bounds (m : Z) :
  0 < m -> 2 ^ (Zdigits2 m - 1) <= m < 2 ^ Zdigits2 m.
Proof.
  intros Hm. destruct m as [|p|p]; try lia. cbn [Zdigits2].
  rewrite digits2_pos_size.
  pose proof (Pos.size_gt p) as Hgt. pose proof (Pos.size_le p) as Hle.
  apply Pos2Z.pos_lt_pos in Hgt. apply Pos2Z.pos_le_pos in Hle.
  rewrite Pos2Z.inj_pow in Hgt, Hle. rewrite (Pos2Z.inj_xO p) in Hle.
  split; [|exact Hgt].
  replace (Zpos (Pos.size p)) with (1 + (Zpos (Pos.size p) - 1)) in Hle by lia.
  rewrite Z.pow_add_r in Hle by lia. change (2 ^ 1) with 2 in Hle. lia.
Qed.

Lemma Zdigits2_unique (m d : Z) :
  0 < d -> 2 ^ (d - 1) <= m < 2 ^ d -> Zdigits2 m = d.
Proof.
  intros Hd [Hlo Hhi].
  assert (Hm : 0 < m).
  { pose proof (Z.pow_pos_nonneg 2 (d - 1) ltac:(lia) ltac:(lia)). lia. }
  destruct (Zdigits2_bounds m Hm) as [Hlo' Hhi'].
  assert (Hpos : 0 < Zdigits2 m) by (destruct m; try lia; reflexivity).
  destruct (Z.lt_trichotomy (Zdigits2 m) d) as [Hlt | [Heq | Hgt]];
    [exfalso | exact Heq | exfalso].
  - assert (2 ^ Zdigits2 m <= 2 ^ (d - 1)) by (apply Z.pow_le_mono_r; lia).
    lia.
  - assert (2 ^ d <= 2 ^ (Zdigits2 m - 1)) by (apply Z.pow_le_mono_r; lia).
    lia.
Qed.

Lemma Zdigits2_nonneg (m : Z) : 0 <= Zdigits2 m.
Proof. destruct m; cbn [Zdigits2]; lia. Qed.

Lemma Zdigits2_mono (m1 m2 : Z) :
  0 <= m1 <= m2 -> Zdigits2 m1 <= Zdigits2 m2.
Proof.
  intros [H1 H12].
  destruct (Z.eq_dec m1 0) as [-> | Hne]; [apply Zdigits2_nonneg|].
  destruct (Zdigits2_bounds m1 ltac:(lia)) as [Hlo1 _].
  destruct (Zdigits2_bounds m2 ltac:(lia)) as [_ Hhi2].
  destruct (Z.le_gt_cases (Zdigits2 m1) (Zdigits2 m2)) as [Hle | Hgt];
    [exact Hle | exfalso].
  assert (2 ^ Zdigits2 m2 <= 2 ^ (Zdigits2 m1 - 1))
    by (apply Z.pow_le_mono_r; lia).
  lia.
Qed.

(** Shifting [n] digits out of a positive integer. *)
Lemma Zdigits2_div (m n : Z) :
  0 < m -> 0 <= n ->
  (m / 2 ^ n = 0 /\ Zdigits2 m <= n) \/
  (0 < m / 2 ^ n /\ Zdigits2 (m / 2 ^ n) = Zdigits2 m - n).
Proof.
  intros Hm Hn. destruct (Zdigits2_bounds m Hm) as [Hlo Hhi].
  pose proof (Z.pow_pos_nonneg 2 n ltac:(lia) Hn) as Hpow.
  destruct (Z.le_gt_cases (Zdigits2 m) n) as [Hle | Hgt].
  - left. split; [|exact Hle]. apply Z.div_small.
    assert (2 ^ Zdigits2 m <= 2 ^ n) by (apply Z.pow_le_mono_r; lia). lia.
  - right.
    assert (Hsplit : 2 ^ (Zdigits2 m - 1) = 2 ^ (Zdigits2 m - n - 1) * 2 ^ n).
    { rewrite <- Z.pow_add_r by lia. f_equal. lia. }
    assert (Hsplit' : 2 ^ Zdigits2 m = 2 ^ (Zdigits2 m - n) * 2 ^ n).
    { rewrite <- Z.pow_add_r by lia. f_equal. lia. }
    assert (Hq : 2 ^ (Zdigits2 m - n - 1) <= m / 2 ^ n < 2 ^ (Zdigits2 m - n)).
    { split.
      - apply Z.div_le_lower_bound; lia.
      - apply Z.div_lt_upper_bound; lia. }
    pose proof (Z.pow_pos_nonneg 2 (Zdigits2 m - n - 1) ltac:(lia) ltac:(lia)).
    split; [lia|]. apply Zdigits2_unique; [lia|exact Hq].
Qed.

Lemma shr_fexp_spec (m e : Z) (l : location) :
  0 <= m -> 0 <= fexp JS.prec JS.emax (Zdigits2 m + e) - e ->
  exists mrs,
    shr_fexp JS.prec JS.emax m e l
    = (mrs, fexp JS.prec JS.emax (Zdigits2 m + e)) /\
    shr_m mrs = m / 2 ^ (fexp JS.prec JS.emax (Zdigits2 m + e) - e).
Proof.
  intros Hm Hn. unfold shr_fexp, shr.
  assert (Hrecord : shr_m (shr_record_of_loc m l) = m)
    by (destruct l as [|[]]; reflexivity).
  destruct (fexp JS.prec JS.emax (Zdigits2 m + e) - e) as [|p|p] eqn:Hshift.
  - exists (shr_record_of_loc m l). split; [f_equal; lia|].
    rewrite Hrecord, Z.div_1_r. reflexivity.
  - exists (SpecFloat.iter_pos shr_1 p (shr_record_of_loc m l)).
    split; [f_equal; lia|].
    rewrite iter_shr_1 by (rewrite Hrecord; exact Hm).
    rewrite Hrecord. reflexivity.
  - lia.
Qed.

(** What a shift to the exponent of the format leaves is canonical. *)
Lemma shr_fexp_canonical (m e : Z) (l : location) :
  0 <= m -> e <= fexp JS.prec JS.emax (Zdigits2 m + e) ->
  exists mrs e',
    shr_fexp JS.prec JS.emax m e l = (mrs, e') /\
    0 <= shr_m mrs /\
    (0 < shr_m mrs ->
     fexp JS.prec JS.emax (Zdigits2 (shr_m mrs) + e') = e') /\
    (shr_m mrs = 0 -> e' = -1074).
Proof.
  intros Hm He.
  destruct (shr_fexp_spec m e l Hm ltac:(lia)) as (mrs & Hshift & Hmrs).
  exists mrs, (fexp JS.prec JS.emax (Zdigits2 m + e)).
  split; [exact Hshift|]. rewrite Hmrs.
  set (n := fexp JS.prec JS.emax (Zdigits2 m + e) - e) in *.
  pose proof (Z.pow_pos_nonneg 2 n ltac:(lia) ltac:(lia)) as Hpow.
  destruct (Z.eq_dec m 0) as [-> | Hne].
  - rewrite Z.div_0_l by lia. split; [lia|]. split; [lia|]. intros _.
    cbn [Zdigits2] in *. unfold fexp, emin, JS.prec, JS.emax in *. lia.
  - destruct (Zdigits2_div m n ltac:(lia) ltac:(lia))
      as [[Hzero Hdigits] | [Hpos Hdigits]].
    + rewrite Hzero. split; [lia|]. split; [lia|]. intros _.
      unfold n in Hdigits. unfold fexp, emin, JS.prec, JS.emax in *. lia.
    + split; [lia|]. split; [|lia]. intros _. rewrite Hdigits.
      f_equal. unfold n. lia.
Qed.

Lemma round_nearest_even_bounds (m : Z) (l : location) :
  m <= round_nearest_even m l <= m + 1.
Proof.
  destruct l as [|[]]; cbn [round_nearest_even]; try lia.
  destruct (Z.even m); lia.
Qed.

(** Rounding gives a number of the format. *)
Lemma binary_round_aux_valid (s : bool) (m e : Z) (l : location) :
  0 <= m -> e <= fexp JS.prec JS.emax (Zdigits2 m + e) ->
  valid_binary JS.prec JS.emax (binary_round_aux JS.prec JS.emax s m e l)
  = true.
Proof.
  intros Hm He. unfold binary_round_aux.
  destruct (shr_fexp_canonical m e l Hm He)
    as (mrs' & e' & -> & Hm' & Hcanonical' & Hzero').
  pose proof (round_nearest_even_bounds (shr_m mrs') (loc_of_shr_record mrs'))
    as Hround.
  set (m1 := round_nearest_even (shr_m mrs') (loc_of_shr_record mrs')) in *.
  assert (He' : e' <= fexp JS.prec JS.emax (Zdigits2 m1 + e')).
  { destruct (Z.eq_dec (shr_m mrs') 0) as [H0 | Hne].
    - rewrite (Hzero' H0). unfold fexp, emin, JS.prec, JS.emax. lia.
    - rewrite <- (Hcanonical' ltac:(lia)) at 1. apply fexp_mono.
      pose proof (Zdigits2_mono (shr_m mrs') m1 ltac:(lia)). lia. }
  destruct (shr_fexp_canonical m1 e' loc_Exact ltac:(lia) He')
    as (mrs'' & e'' & -> & Hm'' & Hcanonical'' & _).
  destruct (shr_m mrs'') as [|m2|m2] eqn:Hshr; [reflexivity | | reflexivity].
  destruct (e'' <=? JS.emax - JS.prec)%Z eqn:Hbound; [|reflexivity].
  cbn [valid_binary]. unfold bounded, canonical_mantissa.
  rewrite Hbound, andb_true_r. apply Z.eqb_eq.
  apply (Hcanonical'' ltac:(lia)).
Qed.

(** The quotient of two numbers is a number of the format. *)
Lemma div_valid (x y : JS.number) :
  valid_binary JS.prec JS.emax (JS.div x y) = true.
Proof.
  unfold JS.div.
  destruct x as [sx|sx| |sx mx ex], y as [sy|sy| |sy my ey]; try reflexivity.
  unfold SFdiv, SFdiv_core_binary.
  set (d1 := Zdigits2 (Zpos mx)). set (d2 := Zdigits2 (Zpos my)).
  set (e' := Z.min (fexp JS.prec JS.emax (d1 + ex - (d2 + ey))) (ex - ey)).
  set (s := ex - ey - e').
  assert (Hs : 0 <= s) by (unfold s, e'; lia).
  set (m' := match s with
             | 0 => Zpos mx
             | Zpos _ => Z.shiftl (Zpos mx) s
             | Zneg _ => 0
             end).
  assert (Hm' : m' = Zpos mx * 2 ^ s).
  { unfold m'. destruct s as [|p|p] eqn:Hsp; [lia| |lia].
    apply Z.shiftl_mul_pow2. lia. }
  destruct (Z.div_eucl m' (Zpos my)) as [q r] eqn:Hdiv.
  assert (Hq : q = m' / Zpos my) by (unfold Z.div; rewrite Hdiv; reflexivity).
  pose proof (Z.pow_pos_nonneg 2 s ltac:(lia) Hs) as Hpow.
  assert (Hq0 : 0 <= q) by (rewrite Hq; apply Z.div_pos; lia).
  apply binary_round_aux_valid; [exact Hq0|].
  assert (Hdigits : d1 + s - d2 <= Zdigits2 q).
  { destruct (Z.le_gt_cases (d1 + s - d2) 0) as [Hle | Hgt].
    - pose proof (Zdigits2_nonneg q). lia.
    - destruct (Zdigits2_bounds (Zpos mx) ltac:(lia)) as [Hlo1 _].
      destruct (Zdigits2_bounds (Zpos my) ltac:(lia)) as [_ Hhi2].
      fold d1 in Hlo1. fold d2 in Hhi2.
      assert (Hd1 : 0 < d1) by reflexivity.
      assert (Hd2 : 0 < d2) by reflexivity.
      assert (Hlow : 2 ^ (d1 + s - d2 - 1) <= q).
      { rewrite Hq. apply Z.div_le_lower_bound; [lia|].
        assert (Hsplit : 2 ^ (d1 - 1) * 2 ^ s
                         = 2 ^ (d1 + s - d2 - 1) * 2 ^ d2).
        { rewrite <- !Z.pow_add_r by lia. f_equal. lia. }
        pose proof (Z.pow_pos_nonneg 2 (d1 + s - d2 - 1) ltac:(lia)
                      ltac:(lia)).
        nia. }
      pose proof (Z.pow_pos_nonneg 2 (d1 + s - d2 - 1) ltac:(lia) ltac:(lia)).
      destruct (Zdigits2_bounds q ltac:(lia)) as [_ Hhiq].
      destruct (Z.le_gt_cases (d1 + s - d2) (Zdigits2 q)) as [Hok | Hbad];
        [exact Hok | exfalso].
      assert (2 ^ Zdigits2 q <= 2 ^ (d1 + s - d2 - 1))
        by (apply Z.pow_le_mono_r; lia).
      lia. }
  transitivity (fexp JS.prec JS.emax (d1 + ex - (d2 + ey)));
    [unfold e'; lia|].
  apply fexp_mono. unfold s in Hdigits. lia.
Qed.

(** ** The division, bracketed *)

Lemma new_location_exact (nb_steps : Z) : new_location nb_steps 0 = loc_Exact.
Proof.
  unfold new_location, new_location_even, new_location_odd.
  destruct (Z.even nb_steps); reflexivity.
Qed.

(** Shifting out digits that are all zero keeps the record exact. *)
Lemma iter_shr_1_exact (p : positive) :
  forall mrs : shr_record,
    0 <= shr_m mrs -> shr_r mrs = false -> shr_s mrs = false ->
    (2 ^ Zpos p | shr_m mrs) ->
    shr_r (SpecFloat.iter_pos shr_1 p mrs) = false /\
    shr_s (SpecFloat.iter_pos shr_1 p mrs) = false.
Proof.
  assert (Hstep : forall mrs,
            0 <= shr_m mrs -> shr_r mrs = false -> shr_s mrs = false ->
            (2 | shr_m mrs) ->
            shr_r (shr_1 mrs) = false /\ shr_s (shr_1 mrs) = false).
  { intros [m r s] Hm Hr Hs [k Hk]. cbn [shr_m shr_r shr_s] in *. subst r s.
    destruct m as [|[q|q|]|q]; cbn [shr_1 shr_r shr_s]; try lia; auto. }
  assert (Hnonneg : forall q mrs,
            0 <= shr_m mrs -> 0 <= shr_m (SpecFloat.iter_pos shr_1 q mrs)).
  { intros q mrs Hm. rewrite iter_shr_1 by exact Hm.
    apply Z.div_pos; [exact Hm|]. apply Z.pow_pos_nonneg; lia. }
  induction p as [p IH|p IH|]; intros mrs Hm Hr Hs Hdiv;
    cbn [SpecFloat.iter_pos].
  - pose proof (Z.pow_pos_nonneg 2 (Zpos p) ltac:(lia) ltac:(lia)) as Hpow.
    assert (HxI : 2 ^ Zpos p~1 = 2 * 2 ^ Zpos p * 2 ^ Zpos p).
    { rewrite (Pos2Z.inj_xI p).
      replace (2 * Zpos p + 1) with (1 + Zpos p + Zpos p) by lia.
      rewrite !Z.pow_add_r by lia. reflexivity. }
    rewrite HxI in Hdiv. destruct Hdiv as [k Hk].
    assert (H1 : 0 <= shr_m (shr_1 mrs))
      by (rewrite shr_1_div2 by exact Hm; apply Z.div_pos; lia).
    destruct (Hstep mrs Hm Hr Hs) as [Hr1 Hs1].
    { exists (k * 2 ^ Zpos p * 2 ^ Zpos p). lia. }
    assert (Hm1 : shr_m (shr_1 mrs) = k * 2 ^ Zpos p * 2 ^ Zpos p).
    { rewrite shr_1_div2 by exact Hm. rewrite Hk.
      symmetry. apply Z.div_unique_exact; [lia | ring]. }
    destruct (IH (shr_1 mrs) H1 Hr1 Hs1) as [Hr2 Hs2].
    { exists (k * 2 ^ Zpos p). lia. }
    apply IH; [apply Hnonneg, H1 | exact Hr2 | exact Hs2 |].
    rewrite iter_shr_1 by exact H1. rewrite Hm1.
    exists k. symmetry. apply Z.div_unique_exact; [lia | ring].
  - pose proof (Z.pow_pos_nonneg 2 (Zpos p) ltac:(lia) ltac:(lia)) as Hpow.
    assert (HxO : 2 ^ Zpos p~0 = 2 ^ Zpos p * 2 ^ Zpos p).
    { rewrite (Pos2Z.inj_xO p).
      replace (2 * Zpos p) with (Zpos p + Zpos p) by lia.
      rewrite Z.pow_add_r by lia. reflexivity. }
    rewrite HxO in Hdiv. destruct Hdiv as [k Hk].
    destruct (IH mrs Hm Hr Hs) as [Hr2 Hs2].
    { exists (k * 2 ^ Zpos p). lia. }
    apply IH; [apply Hnonneg, Hm | exact Hr2 | exact Hs2 |].
    rewrite iter_shr_1 by exact Hm. rewrite Hk.
    exists k. symmetry. apply Z.div_unique_exact; [lia | ring].
  - apply Hstep; assumption.
Qed.

(** Rounding a quotient to a grid of step [1 / G] before taking its
    ceiling loses at most one. *)
Lemma ceil_bracket (A C G m1 : Z) :
  0 <= A -> 0 < C -> 0 < G ->
  A / C <= m1 <= A / C + 1 -> (A mod C = 0 -> m1 = A / C) ->
  - ((- A) / (C * G)) - 1 <= - ((- m1) / G) <= - ((- A) / (C * G)).
Proof.
  intros HA HC HG Hm1 Hexact.
  pose proof (Z.div_mod A C ltac:(lia)) as HdivA.
  pose proof (Z.mod_pos_bound A C HC) as HmodA.
  set (M := A / C) in *. set (R := A mod C) in *.
  assert (HCG : 0 < C * G) by nia.
  pose proof (Z.div_mod (- A) (C * G) ltac:(lia)) as HdivN.
  pose proof (Z.mod_pos_bound (- A) (C * G) HCG) as HmodN.
  set (N := - ((- A) / (C * G))) in *.
  replace ((- A) / (C * G)) with (- N) in HdivN by (unfold N; lia).
  pose proof (Z.div_mod (- m1) G ltac:(lia)) as HdivT.
  pose proof (Z.mod_pos_bound (- m1) G HG) as HmodT.
  set (T := - ((- m1) / G)) in *.
  replace ((- m1) / G) with (- T) in HdivT by (unfold T; lia).
  set (rN := (- A) mod (C * G)) in *. set (rT := (- m1) mod G) in *.
  assert (HAN : A <= N * (C * G)) by nia.
  assert (HAN' : (N - 1) * (C * G) < A) by nia.
  assert (HmT : m1 <= T * G) by nia.
  assert (HmT' : (T - 1) * G < m1) by nia.
  split.
  - destruct (Z.le_gt_cases (N - 1) T) as [Hle | Hgt]; [exact Hle | exfalso].
    assert (HT : T <= N - 2) by lia.
    assert (H1 : m1 <= (N - 2) * G) by nia.
    assert (H2 : A < (M + 1) * C) by nia.
    assert (H3 : (M + 1) * C <= ((N - 2) * G + 1) * C) by nia.
    assert (H4 : ((N - 2) * G + 1) * C <= (N - 1) * (C * G)) by nia.
    lia.
  - destruct (Z.le_gt_cases T N) as [Hle | Hgt]; [exact Hle | exfalso].
    assert (H1 : N * G < m1) by nia.
    assert (H2 : M * C <= N * G * C) by nia.
    assert (H3 : M <= N * G) by nia.
    assert (H4 : m1 = M + 1) by lia.
    assert (H5 : R <> 0) by (intros H0; specialize (Hexact H0); lia).
    assert (H6 : M * C < N * G * C) by nia.
    assert (H7 : M < N * G) by nia.
    lia.
Qed.

Lemma shr_fexp_exact (m e : Z) :
  0 <= m -> 0 <= fexp JS.prec JS.emax (Zdigits2 m + e) - e ->
  (2 ^ (fexp JS.prec JS.emax (Zdigits2 m + e) - e) | m) ->
  loc_of_shr_record (fst (shr_fexp JS.prec JS.emax m e loc_Exact)) = loc_Exact.
Proof.
  intros Hm Hn Hdiv. unfold shr_fexp, shr.
  destruct (fexp JS.prec JS.emax (Zdigits2 m + e) - e) as [|p|p];
    [reflexivity| |lia].
  cbn [fst shr_record_of_loc].
  destruct (iter_shr_1_exact p (Build_shr_record m false false) Hm eq_refl
              eq_refl Hdiv) as [Hr Hs].
  destruct (SpecFloat.iter_pos shr_1 p (Build_shr_record m false false))
    as [m' r s].
  cbn [shr_r shr_s] in *. subst r s. reflexivity.
Qed.

Lemma Zdigits2_pow2 (d : Z) : 0 <= d -> Zdigits2 (2 ^ d) = d + 1.
Proof.
  intros Hd. apply Zdigits2_unique; [lia|].
  replace (d + 1 - 1) with d by lia. split; [lia|].
  apply Z.pow_lt_mono_r; lia.
Qed.

(** Rounding a mantissa to the format: the mantissa it keeps is the
    truncated one or the next, the truncated one when no digit is lost, and
    the number it gives, when finite, stands for it exactly. *)
Lemma binary_round_aux_bracket (s : bool) (m e : Z) (l : location) :
  0 <= m -> e <= fexp JS.prec JS.emax (Zdigits2 m + e) ->
  exists m1 : Z,
    m / 2 ^ (fexp JS.prec JS.emax (Zdigits2 m + e) - e) <= m1
      <= m / 2 ^ (fexp JS.prec JS.emax (Zdigits2 m + e) - e) + 1 /\
    (l = loc_Exact ->
     (2 ^ (fexp JS.prec JS.emax (Zdigits2 m + e) - e) | m) ->
     m1 = m / 2 ^ (fexp JS.prec JS.emax (Zdigits2 m + e) - e)) /\
    (binary_round_aux JS.prec JS.emax s m e l = S754_infinity s \/
     (m1 = 0 /\ fexp JS.prec JS.emax (Zdigits2 m + e) = -1074 /\
      binary_round_aux JS.prec JS.emax s m e l = S754_zero s) \/
     exists m2 e2,
       binary_round_aux JS.prec JS.emax s m e l = S754_finite s m2 e2 /\
       fexp JS.prec JS.emax (Zdigits2 m + e) <= e2 /\
       m1 = Zpos m2 * 2 ^ (e2 - fexp JS.prec JS.emax (Zdigits2 m + e))).
Proof.
  intros Hm He.
  set (E := fexp JS.prec JS.emax (Zdigits2 m + e)) in *.
  pose proof (shr_fexp_exact m e Hm ltac:(fold E; lia)) as Hexact.
  fold E in Hexact.
  destruct (shr_fexp_canonical m e l Hm He)
    as (mrs' & e' & Hshift & Hm' & Hcanonical' & Hzero').
  destruct (shr_fexp_spec m e l Hm ltac:(fold E; lia))
    as (mrs0 & Hshift0 & HM). fold E in Hshift0, HM.
  rewrite Hshift in Hshift0. injection Hshift0 as <- ->.
  set (M := m / 2 ^ (E - e)) in *.
  pose proof (round_nearest_even_bounds (shr_m mrs') (loc_of_shr_record mrs'))
    as Hround.
  unfold binary_round_aux. rewrite Hshift.
  set (m1 := round_nearest_even (shr_m mrs') (loc_of_shr_record mrs')) in *.
  exists m1. split; [rewrite <- HM; exact Hround|]. split.
  { intros -> Hdiv. specialize (Hexact Hdiv). rewrite Hshift in Hexact.
    cbn [fst] in Hexact. unfold m1. rewrite Hexact, HM. reflexivity. }
  (* the second shift takes out at most one digit, a zero *)
  assert (Hsecond :
            fexp JS.prec JS.emax (Zdigits2 m1 + E) = E \/
            (fexp JS.prec JS.emax (Zdigits2 m1 + E) = E + 1 /\ (2 | m1))).
  { destruct (Z.eq_dec (shr_m mrs') 0) as [H0 | Hne].
    - left. pose proof (Hzero' H0) as HE. rewrite H0 in Hround.
      assert (Hcases : m1 = 0 \/ m1 = 1) by lia.
      rewrite HE.
      destruct Hcases as [-> | ->]; reflexivity.
    - pose proof (Hcanonical' ltac:(lia)) as Hcan.
      destruct (Zdigits2_bounds (shr_m mrs') ltac:(lia)) as [Hlo Hhi].
      assert (Hd : 0 < Zdigits2 (shr_m mrs')).
      { destruct (shr_m mrs'); cbn [Zdigits2]; lia. }
      destruct (Z.eq_dec m1 (2 ^ Zdigits2 (shr_m mrs'))) as [Hpow | Hnot].
      + rewrite Hpow, Zdigits2_pow2 by lia.
        assert (Hdiv2 : (2 | 2 ^ Zdigits2 (shr_m mrs'))).
        { exists (2 ^ (Zdigits2 (shr_m mrs') - 1)).
          rewrite Z.mul_comm, <- Z.pow_succ_r by lia. f_equal. lia. }
        destruct (Z.eq_dec (Zdigits2 (shr_m mrs')) 53) as [H53 | H53];
          [right; split; [|exact Hdiv2] | left];
          unfold fexp, emin, JS.prec, JS.emax in Hcan |- *; lia.
      + left. rewrite (Zdigits2_unique m1 (Zdigits2 (shr_m mrs')));
          [exact Hcan | lia | lia]. }
  assert (He' : E <= fexp JS.prec JS.emax (Zdigits2 m1 + E))
    by (destruct Hsecond as [-> | [-> _]]; lia).
  destruct (shr_fexp_spec m1 E loc_Exact ltac:(lia) ltac:(lia))
    as (mrs'' & -> & Hm'').
  assert (Hvalue : m1 = shr_m mrs'' *
                        2 ^ (fexp JS.prec JS.emax (Zdigits2 m1 + E) - E)).
  { rewrite Hm''. destruct Hsecond as [-> | [-> [k Hk]]].
    - rewrite Z.sub_diag, Z.div_1_r. change (2 ^ 0) with 1. lia.
    - replace (E + 1 - E) with 1 by lia. change (2 ^ 1) with 2.
      rewrite Hk, Z.div_mul by lia. reflexivity. }
  destruct (shr_m mrs'') as [|m2|m2] eqn:Hshr.
  - right. left. split; [lia|]. split; [|reflexivity].
    apply Hzero'. lia.
  - destruct (fexp JS.prec JS.emax (Zdigits2 m1 + E) <=? JS.emax - JS.prec)%Z;
      [|left; reflexivity].
    right. right. eexists _, _. split; [reflexivity|]. split; assumption.
  - exfalso.
    pose proof (Z.pow_pos_nonneg 2
                  (fexp JS.prec JS.emax (Zdigits2 m1 + E) - E) ltac:(lia)
                  ltac:(lia)).
    nia.
Qed.

(** Division of two finite doubles: the mantissa it keeps brackets the
    truncated quotient of the scaled mantissas. *)
Lemma div_bracket (sx sy : bool) (mx my : positive) (ex ey : Z) :
  exists E s n m1 : Z,
    0 <= s /\ 0 <= n /\ ex - ey = E + s - n /\
    Zpos mx * 2 ^ s / (Zpos my * 2 ^ n) <= m1
      <= Zpos mx * 2 ^ s / (Zpos my * 2 ^ n) + 1 /\
    ((Zpos mx * 2 ^ s) mod (Zpos my * 2 ^ n) = 0 ->
     m1 = Zpos mx * 2 ^ s / (Zpos my * 2 ^ n)) /\
    (JS.div (S754_finite sx mx ex) (S754_finite sy my ey)
     = S754_infinity (xorb sx sy) \/
     (m1 = 0 /\ E = -1074 /\
      JS.div (S754_finite sx mx ex) (S754_finite sy my ey)
      = S754_zero (xorb sx sy)) \/
     exists m2 e2,
       JS.div (S754_finite sx mx ex) (S754_finite sy my ey)
       = S754_finite (xorb sx sy) m2 e2 /\
       E <= e2 /\ m1 = Zpos m2 * 2 ^ (e2 - E)).
Proof.
  unfold JS.div, SFdiv, SFdiv_core_binary.
  set (d1 := Zdigits2 (Zpos mx)). set (d2 := Zdigits2 (Zpos my)).
  set (e' := Z.min (fexp JS.prec JS.emax (d1 + ex - (d2 + ey))) (ex - ey)).
  set (s := ex - ey - e').
  assert (Hs : 0 <= s) by (unfold s, e'; lia).
  set (m' := match s with
             | 0 => Zpos mx
             | Zpos _ => Z.shiftl (Zpos mx) s
             | Zneg _ => 0
             end).
  assert (Hm' : m' = Zpos mx * 2 ^ s).
  { unfold m'. destruct s as [|p|p] eqn:Hsp; [lia| |lia].
    apply Z.shiftl_mul_pow2. lia. }
  destruct (Z.div_eucl m' (Zpos my)) as [q r] eqn:Hdiv.
  assert (Hq : q = m' / Zpos my) by (unfold Z.div; rewrite Hdiv; reflexivity).
  assert (Hr : r = m' mod Zpos my)
    by (unfold Z.modulo; rewrite Hdiv; reflexivity).
  pose proof (Z.pow_pos_nonneg 2 s ltac:(lia) Hs) as Hpow.
  assert (Hq0 : 0 <= q) by (rewrite Hq; apply Z.div_pos; lia).
  assert (He : e' <= fexp JS.prec JS.emax (Zdigits2 q + e')).
  { assert (Hdigits : d1 + s - d2 <= Zdigits2 q).
    { destruct (Z.le_gt_cases (d1 + s - d2) 0) as [Hle | Hgt].
      - pose proof (Zdigits2_nonneg q). lia.
      - destruct (Zdigits2_bounds (Zpos mx) ltac:(lia)) as [Hlo1 _].
        destruct (Zdigits2_bounds (Zpos my) ltac:(lia)) as [_ Hhi2].
        fold d1 in Hlo1. fold d2 in Hhi2.
        assert (Hd1 : 0 < d1) by reflexivity.
        assert (Hd2 : 0 < d2) by reflexivity.
        assert (Hlow : 2 ^ (d1 + s - d2 - 1) <= q).
        { rewrite Hq. apply Z.div_le_lower_bound; [lia|].
          assert (Hsplit : 2 ^ (d1 - 1) * 2 ^ s
                           = 2 ^ (d1 + s - d2 - 1) * 2 ^ d2).
          { rewrite <- !Z.pow_add_r by lia. f_equal. lia. }
          pose proof (Z.pow_pos_nonneg 2 (d1 + s - d2 - 1) ltac:(lia)
                        ltac:(lia)).
          nia. }
        pose proof (Z.pow_pos_nonneg 2 (d1 + s - d2 - 1) ltac:(lia)
                      ltac:(lia)).
        destruct (Zdigits2_bounds q ltac:(lia)) as [_ Hhiq].
        destruct (Z.le_gt_cases (d1 + s - d2) (Zdigits2 q)) as [Hok | Hbad];
          [exact Hok | exfalso].
        assert (2 ^ Zdigits2 q <= 2 ^ (d1 + s - d2 - 1))
          by (apply Z.pow_le_mono_r; lia).
        lia. }
    transitivity (fexp JS.prec JS.emax (d1 + ex - (d2 + ey)));
      [unfold e'; lia|].
    apply fexp_mono. unfold s in Hdigits. lia. }
  destruct (binary_round_aux_bracket (xorb sx sy) q e'
              (new_location (Zpos my) r) Hq0 He)
    as (m1 & Hbracket & Hexact & Hresult).
  set (E := fexp JS.prec JS.emax (Zdigits2 q + e')) in *.
  pose proof (Z.pow_pos_nonneg 2 (E - e') ltac:(lia) ltac:(lia)) as Hpown.
  assert (HM : q / 2 ^ (E - e') = Zpos mx * 2 ^ s / (Zpos my * 2 ^ (E - e'))).
  { rewrite Hq, Hm', Z.div_div by lia. reflexivity. }
  exists E, s, (E - e'), m1.
  split; [exact Hs|]. split; [lia|]. split; [unfold s; lia|].
  rewrite <- HM. split; [exact Hbracket|]. split; [|exact Hresult].
  intros Hmod. apply Z.mod_divide in Hmod; [|lia].
  destruct Hmod as [k Hk]. rewrite <- Hm' in Hk.
  assert (Hqk : q = k * 2 ^ (E - e')).
  { rewrite Hq, Hk.
    replace (k * (Zpos my * 2 ^ (E - e')))
      with (k * 2 ^ (E - e') * Zpos my) by ring.
    apply Z.div_mul. lia. }
  apply Hexact.
  - rewrite Hr, Hk.
    replace (k * (Zpos my * 2 ^ (E - e')))
      with (k * 2 ^ (E - e') * Zpos my) by ring.
    rewrite Z.mod_mul by lia. apply new_location_exact.
  - exists k. exact Hqk.
Qed.

(** The rational a positive finite double stands for, as a fraction of two
    powers-of-two multiples. *)
Lemma to_Q_fraction (m : positive) (e : Z) :
  (JS.to_Q (S754_finite false m e)
   == (Zpos m * 2 ^ Z.max e 0) # Z.to_pos (2 ^ Z.max (- e) 0))%Q.
Proof.
  destruct e as [|p|k]; unfold JS.to_Q; cbn [cond_Zopp].
  - reflexivity.
  - reflexivity.
  - change (Z.max (Zneg k) 0) with 0. change (- Zneg k) with (Zpos k).
    change (Z.max (Zpos k) 0) with (Zpos k).
    change 2 with (Zpos 2) at 2. rewrite <- Pos2Z.inj_pow.
    rewrite Z.pow_0_r, Z.mul_1_r. reflexivity.
Qed.

Lemma Qceiling_fraction (a b : Z) :
  0 < b -> Qceiling (a # Z.to_pos b) = - ((- a) / b).
Proof.
  intros Hb. unfold Qceiling, Qfloor, Qopp. cbn [Qnum Qden].
  rewrite Z2Pos.id by exact Hb. reflexivity.
Qed.

(** The exact quotient of two positive finite doubles, over the grid of the
    rounded one. *)
Lemma div_as_fraction (mx my : positive) (ex ey E s n : Z) :
  0 <= s -> 0 <= n -> E <= 0 -> ex - ey = E + s - n ->
  (JS.to_Q (S754_finite false mx ex) / JS.to_Q (S754_finite false my ey)
   == (Zpos mx * 2 ^ s) # Z.to_pos (Zpos my * 2 ^ n * 2 ^ (- E)))%Q.
Proof.
  intros Hs Hn HE Hexp.
  pose proof (Z.pow_pos_nonneg 2 n ltac:(lia) Hn) as Hpn.
  pose proof (Z.pow_pos_nonneg 2 (- E) ltac:(lia) ltac:(lia)) as HpE.
  pose proof (Z.pow_pos_nonneg 2 (Z.max ex 0) ltac:(lia) ltac:(lia)) as Hpx.
  pose proof (Z.pow_pos_nonneg 2 (Z.max ey 0) ltac:(lia) ltac:(lia)) as Hpy.
  pose proof (Z.pow_pos_nonneg 2 (Z.max (- ex) 0) ltac:(lia) ltac:(lia))
    as Hnx.
  pose proof (Z.pow_pos_nonneg 2 (Z.max (- ey) 0) ltac:(lia) ltac:(lia))
    as Hny.
  assert (Hy : ~ (JS.to_Q (S754_finite false my ey) == 0)%Q).
  { rewrite to_Q_fraction. unfold Qeq. cbn [Qnum Qden]. nia. }
  assert (Hx : (JS.to_Q (S754_finite false mx ex)
                == ((Zpos mx * 2 ^ s)
                    # Z.to_pos (Zpos my * 2 ^ n * 2 ^ (- E)))
                   * JS.to_Q (S754_finite false my ey))%Q).
  { rewrite !to_Q_fraction. unfold Qeq, Qmult. cbn [Qnum Qden].
    rewrite !Pos2Z.inj_mul, !Z2Pos.id by nia.
    transitivity (Zpos mx * Zpos my
                  * 2 ^ (Z.max ex 0 + n + - E + Z.max (- ey) 0)).
    - rewrite !Z.pow_add_r by lia. ring.
    - replace (Z.max ex 0 + n + - E + Z.max (- ey) 0)
        with (s + Z.max ey 0 + Z.max (- ex) 0) by lia.
      rewrite !Z.pow_add_r by lia. ring. }
  rewrite Hx. apply Qdiv_mult_l. exact Hy.
Qed.

(** A finite double below [2 ^ 53] has no positive exponent. *)
Lemma small_exponent (m : positive) (e : Z) :
  valid_binary JS.prec JS.emax (S754_finite false m e) = true ->
  (JS.to_Q (S754_finite false m e) < inject_Z (2 ^ 53))%Q -> e <= 0.
Proof.
  intros Hvalid Hlt. destruct e as [|p|k]; [lia| |lia]. exfalso.
  cbn [valid_binary] in Hvalid. unfold bounded in Hvalid.
  apply andb_prop in Hvalid as [Hcanonical _].
  unfold canonical_mantissa in Hcanonical. apply Z.eqb_eq in Hcanonical.
  unfold JS.to_Q in Hlt. cbn [cond_Zopp] in Hlt. rewrite <- Zlt_Qlt in Hlt.
  destruct (Zdigits2_bounds (Zpos m) ltac:(lia)) as [Hlo _].
  cbn [Zdigits2] in Hlo.
  assert (Hd : Zpos (digits2_pos m) = 53)
    by (unfold fexp, emin, JS.prec, JS.emax in Hcanonical; lia).
  rewrite Hd in Hlo. change (2 ^ (53 - 1)) with 4503599627370496 in Hlo.
  change (2 ^ 53) with 9007199254740992 in Hlt.
  assert (H2 : 2 <= 2 ^ Zpos p).
  { change 2 with (2 ^ 1) at 1. apply Z.pow_le_mono_r; lia. }
  nia.
Qed.

(** The ceiling of the double quotient of two positive finite doubles,
    when that quotient is below [2 ^ 53], is the ceiling of their exact
    quotient or one less. *)
Lemma div_ceil_bracket (mx my : positive) (ex ey : Z) :
  let x := S754_finite false mx ex in
  let y := S754_finite false my ey in
  JS.is_finite (JS.div x y) = true ->
  (JS.to_Q (JS.div x y) < inject_Z (2 ^ 53))%Q ->
  Qceiling (JS.to_Q x / JS.to_Q y) - 1 <= Qceiling (JS.to_Q (JS.div x y))
    <= Qceiling (JS.to_Q x / JS.to_Q y).
Proof.
  intros x y Hfinite Hsmall.
  pose proof (div_valid x y) as Hvalid. subst x y.
  destruct (div_bracket false false mx my ex ey)
    as (E & s & n & m1 & Hs & Hn & Hexp & Hbracket & Hexact & Hresult).
  cbn [xorb] in Hresult.
  pose proof (Z.pow_pos_nonneg 2 s ltac:(lia) Hs) as Hps.
  pose proof (Z.pow_pos_nonneg 2 n ltac:(lia) Hn) as Hpn.
  assert (Hgrid : E <= 0 /\
                  Qceiling (JS.to_Q (JS.div (S754_finite false mx ex)
                                       (S754_finite false my ey)))
                  = - ((- m1) / 2 ^ (- E))).
  { destruct Hresult
      as [Hinf | [(Hm1 & HE & Hzero) | (m2 & e2 & Hfin & HEe & Hm1)]].
    - rewrite Hinf in Hfinite. discriminate.
    - rewrite Hzero, Hm1, HE. split; [lia | reflexivity].
    - rewrite Hfin in Hvalid, Hsmall |- *.
      pose proof (small_exponent m2 e2 Hvalid Hsmall) as He2.
      split; [lia|].
      rewrite (Qceiling_comp _ _ (to_Q_fraction m2 e2)).
      replace (Z.max e2 0) with 0 by lia.
      replace (Z.max (- e2) 0) with (- e2) by lia.
      pose proof (Z.pow_pos_nonneg 2 (- e2) ltac:(lia) ltac:(lia)) as Hpe.
      pose proof (Z.pow_pos_nonneg 2 (e2 - E) ltac:(lia) ltac:(lia)) as HpE.
      rewrite Qceiling_fraction by exact Hpe.
      rewrite Z.pow_0_r, Z.mul_1_r, Hm1.
      replace (- E) with (- e2 + (e2 - E)) by lia.
      rewrite Z.pow_add_r by lia.
      rewrite <- Z.mul_opp_l, Z.div_mul_cancel_r by lia. reflexivity. }
  destruct Hgrid as [HE Hquotient].
  pose proof (Z.pow_pos_nonneg 2 (- E) ltac:(lia) ltac:(lia)) as HpG.
  rewrite (Qceiling_comp _ _
             (div_as_fraction mx my ex ey E s n Hs Hn HE Hexp)).
  rewrite Qceiling_fraction by nia. rewrite Hquotient.
  apply ceil_bracket; [nia | nia | lia | exact Hbracket | exact Hexact].
Qed.

(** The quotients of 1000 by the integers from 1 to 1000 round to numbers
    whose ceiling is the ceiling of the exact quotient. *)
Lemma integer_rate_limits :
  forallb (fun n : Z =>
             bool_decide
               (JS.Math_ceil (JS.div (JS.of_Z 1000) (JS.of_Z n))
                = JS.of_Z (Qceiling (1000 # Z.to_pos n))))
    (seqZ 1 1000) = true.
Proof. vm_compute. reflexivity. Qed.

(** C9, amended. The interval [keyVaultRateLimitMinTime] of the instance is
    [Math.ceil] of the quotient of 1000 by the [rateLimit], the one supplied
    to the constructor or the default 45, whatever number it is, as the
    division of two numbers gives it, rounded. When that quotient is a
    finite number the interval is the least integer that is not below it;
    when it is an infinity or NaN the interval is the quotient itself. For
    an integer rate limit from 1 to 1000 the interval is the ceiling of the
    exact quotient. For a positive finite rate limit whose rounded quotient
    is finite and below [2 ^ 53] the interval is the ceiling of the exact
    quotient or one less. *)
Theorem keyVaultRateLimitMinTime_ceil options (r : JS.number) :
  opt_rateLimit options = Some r \/
  (opt_rateLimit options = None /\ r = JS.of_Z 45) ->
  let quotient := JS.div (JS.of_Z 1000) r in
  let T := keyVaultRateLimitMinTime (constructor options) in
  (JS.is_finite quotient = true ->
   JS.is_finite T = true /\
   exists n : Z,
     (JS.to_Q T == inject_Z n)%Q /\ Spec.is_ceil (JS.to_Q quotient) n) /\
  (JS.is_finite quotient = false -> T = quotient) /\
  (forall n : Z,
     1 <= n <= 1000 -> r = JS.of_Z n ->
     T = JS.of_Z (Qceiling (1000 # Z.to_pos n))) /\
  (forall (m : positive) (e : Z),
     r = S754_finite false m e ->
     JS.is_finite quotient = true ->
     (JS.to_Q quotient < inject_Z (2 ^ 53))%Q ->
     exists n : Z,
       (JS.to_Q T == inject_Z n)%Q /\
       (Spec.is_ceil (1000 / JS.to_Q r) n \/
        Spec.is_ceil (1000 / JS.to_Q r) (n + 1))).
Proof.
  intros Hrate quotient T.
  assert (HT : T = JS.Math_ceil quotient).
  { unfold T, quotient, constructor. cbn [keyVaultRateLimitMinTime].
    destruct Hrate as [-> | [-> ->]]; reflexivity. }
  rewrite HT. split; [|split; [|split]].
  - intros Hfinite.
    destruct (Math_ceil_is_ceil quotient Hfinite (div_valid _ _))
      as [HfT Hvalue].
    split; [exact HfT|]. exists (Qceiling (JS.to_Q quotient)).
    split; [exact Hvalue | apply Qceiling_is_ceil].
  - intros Hinf. destruct quotient; try discriminate; reflexivity.
  - intros n Hn ->. unfold quotient.
    pose proof integer_rate_limits as Hall.
    rewrite forallb_forall in Hall.
    specialize (Hall n). apply bool_decide_eq_true in Hall; [exact Hall|].
    apply list_elem_of_In, elem_of_seqZ. lia.
  - intros m e Hr Hfinite Hsmall. clear HT T Hrate.
    revert quotient Hfinite Hsmall. rewrite Hr. intros quotient Hfinite Hsmall.
    destruct (Math_ceil_is_ceil quotient Hfinite (div_valid _ _))
      as [_ Hvalue].
    exists (Qceiling (JS.to_Q quotient)). split; [exact Hvalue|].
    assert (Hexact : Qceiling (1000 / JS.to_Q (S754_finite false m e))
                     = Qceiling (JS.to_Q (JS.of_Z 1000)
                                 / JS.to_Q (S754_finite false m e)))
      by (apply Qceiling_comp, Qdiv_comp;
          [vm_compute; reflexivity | reflexivity]).
    pose proof (div_ceil_bracket 8796093022208000 m (-43) e Hfinite Hsmall)
      as Hbracket.
    cbv zeta in Hbracket.
    change (S754_finite false 8796093022208000 (-43)) with (JS.of_Z 1000)
      in Hbracket.
    fold quotient in Hbracket. rewrite <- Hexact in Hbracket.
    pose proof (Qceiling_is_ceil (1000 / JS.to_Q (S754_finite false m e)))
      as Hceil.
    destruct (Z.eq_dec (Qceiling (JS.to_Q quotient))
                (Qceiling (1000 / JS.to_Q (S754_finite false m e))))
      as [Hsame | Hless].
    + left. rewrite Hsame. exact Hceil.
    + right.
      replace (Qceiling (JS.to_Q quotient) + 1)
        with (Qceiling (1000 / JS.to_Q (S754_finite false m e))) by lia.
      exact Hceil.
Qed.

(** C9 at the default rate limit: 23 milliseconds, the ceiling of the
    number the division gives for 1000 / 45. *)
Lemma keyVaultRateLimitMinTime_ceil_witness :
  keyVaultRateLimitMinTime (Sample.instance None) = JS.of_Z 23 /\
  Spec.is_ceil (JS.to_Q (JS.div (JS.of_Z 1000) (JS.of_Z 45))) 23 /\
  Qceiling (1000 # 45) = 23 /\
  exists n : Z,
    (JS.to_Q (keyVaultRateLimitMinTime (Sample.instance None))
     == inject_Z n)%Q /\
    (Spec.is_ceil (1000 / JS.to_Q (JS.of_Z 45)) n \/
     Spec.is_ceil (1000 / JS.to_Q (JS.of_Z 45)) (n + 1)).
Proof.
  destruct (keyVaultRateLimitMinTime_ceil
              {| opt_rateLimit := None; opt_tenantId := None;
                 opt_clientId := None; opt_clientSecret := None;
                 opt_connectionString := None |} (JS.of_Z 45)
              (or_intror (conj eq_refl eq_refl)))
    as (Hfinite & _ & Hinteger & Hbracket).
  split; [|split; [|split; [reflexivity|]]].
  - apply (Hinteger 45); [lia | reflexivity].
  - destruct Hfinite as (_ & n & Hvalue & Hceil); [vm_compute; reflexivity|].
    replace 23 with n; [exact Hceil|].
    assert (Hq : (inject_Z 23 == inject_Z n)%Q)
      by (rewrite <- Hvalue; vm_compute; reflexivity).
    unfold Qeq, inject_Z in Hq. cbn [Qnum Qden] in Hq. lia.
  - apply (Hbracket 6333186975989760%positive (-47));
      [reflexivity | reflexivity | vm_compute; reflexivity].
Defined.

(** C9 as stated fails at the rate limit 333.3333333333333, a positive
    number just below 1000 / 3: the exact quotient is above 3 and its
    ceiling is 4, but the division rounds it to the number 3, and the
    interval is 3. *)
Lemma keyVaultRateLimitMinTime_rounded :
  let r := JS.div (JS.of_Z 3333333333333333) (JS.of_Z 10000000000000) in
  let this :=
    constructor {| opt_rateLimit := Some r; opt_tenantId := None;
                   opt_clientId := None; opt_clientSecret := None;
                   opt_connectionString := None |} in
  r = S754_finite false 5864062014805333 (-44) /\
  valid_binary JS.prec JS.emax r = true /\
  (0 < JS.to_Q r)%Q /\
  JS.div (JS.of_Z 1000) r = JS.of_Z 3 /\
  keyVaultRateLimitMinTime this = JS.of_Z 3 /\
  (3 < 1000 / JS.to_Q r)%Q /\
  Spec.is_ceil (1000 / JS.to_Q r) 4.
Proof.
  intros r this.
  assert (Hr : r = S754_finite false 5864062014805333 (-44))
    by (vm_compute; reflexivity).
  split; [exact Hr|]. split; [vm_compute; reflexivity|].
  split; [vm_compute; reflexivity|]. split; [vm_compute; reflexivity|].
  split; [vm_compute; reflexivity|]. split; [vm_compute; reflexivity|].
  replace 4 with (Qceiling (1000 / JS.to_Q r)) by (vm_compute; reflexivity).
  apply Qceiling_is_ceil.
Qed.

(** ** The secret reference detector *)

Section Detector.

Context `{W : Collaborators}.

Lemma isKeyVaultReference_true config :
  isKeyVaultReference config = true <->
  contentType config = Some keyVaultReferenceContentType.
Proof. unfold isKeyVaultReference. apply bool_decide_eq_true. Qed.

Lemma isKeyVaultReference_false config :
  isKeyVaultReference config = false <->
  contentType config <> Some keyVaultReferenceContentType.
Proof. unfold isKeyVaultReference. apply bool_decide_eq_false. Qed.

(** C6. An entry is classified as a Key Vault reference exactly when its
    content type is the string
    [application/vnd.microsoft.appconfig.keyvaultref+json;charset=utf-8];
    with any other content type, or none, the loop of the fetcher assigns
    the value of the entry as it is to its key among the plain values and
    leaves the references alone, whatever the value is and whatever decoding
    it would give. *)
Theorem isKeyVaultReference_exact config :
  (isKeyVaultReference config = true <->
   contentType config =
     Some "application/vnd.microsoft.appconfig.keyvaultref+json;charset=utf-8")
  /\
  (contentType config <>
     Some "application/vnd.microsoft.appconfig.keyvaultref+json;charset=utf-8" ->
   forall rest vars refs,
     getAppConfigurations_loop (Yield config rest) vars refs =
     getAppConfigurations_loop rest
       (JS.assign (key config) (value config) vars) refs).
Proof.
  split; [apply isKeyVaultReference_true|].
  intros Hother rest vars refs. simpl.
  apply isKeyVaultReference_false in Hother. rewrite Hother. reflexivity.
Qed.

(** The string handed to [new URL], when reading [obj.uri] does not throw. *)
Lemma decode_uri value :
  let obj := match value with
             | None => Some JS.Undefined
             | Some v => if String.eqb v "" then Some (JS.Str v) else JSON_parse v
             end in
  obj ≫= JS.get_uri = Spec.json_uri value \/
  (Spec.json_uri value = None /\ obj ≫= JS.get_uri = Some JS.Undefined).
Proof.
  unfold Spec.json_uri. destruct value as [v|]; simpl; [|left; reflexivity].
  destruct (String.eqb_spec v "") as [-> | Hne]; simpl.
  - right. rewrite JSON_parse_empty. split; reflexivity.
  - destruct (JSON_parse v) as [[ | | b | n | s | items | props]|]; simpl; auto.
    destruct (JS.assoc "uri" props); simpl; auto.
Qed.

(** What follows the reading of [obj.uri] in [getKeyVaultReferenceInfo]. *)
Lemma decode_from_uri value :
  decodeKeyVaultReference value =
    uri ← (match value with
           | None => Some JS.Undefined
           | Some v => if String.eqb v "" then Some (JS.Str v) else JSON_parse v
           end ≫= JS.get_uri);
    keyVaultUrl ← URL_new (JS.ToString uri);
    name ← Spec.present (Spec.path_segment keyVaultUrl 2);
    vaultUrl ← URL_new (JS.origin keyVaultUrl);
    Some {| vaultUrl := vaultUrl;
            secretUrl := keyVaultUrl;
            secretName := name;
            secretVersion := Spec.path_segment keyVaultUrl 3 |}.
Proof.
  unfold decodeKeyVaultReference, Spec.path_segment.
  destruct (match value with None => _ | Some _ => _ end) as [obj|];
    simpl; [|reflexivity].
  destruct (JS.get_uri obj) as [uri|]; simpl; [|reflexivity].
  destruct (URL_new (JS.ToString uri)) as [url|]; simpl; [|reflexivity].
  destruct (JS.split "/" (JS.pathname url) !! 2%nat) as [[|c name]|];
    reflexivity.
Qed.

Lemma decode_failure value :
  decodeKeyVaultReference value = None <->
  Spec.no_uri value \/ Spec.bad_url value \/ Spec.no_secret_name value \/
  Spec.opaque_origin value.
Proof.
  rewrite decode_from_uri.
  unfold Spec.no_uri, Spec.bad_url, Spec.no_secret_name, Spec.opaque_origin.
  destruct (decode_uri value) as [-> | [Hnone ->]]; simpl.
  - destruct (Spec.json_uri value) as [uri|]; simpl; [|tauto].
    destruct (URL_new (JS.ToString uri)) as [url|] eqn:Hurl; simpl.
    2:{ split; [intros _; right; left; eauto|reflexivity]. }
    destruct (Spec.present (Spec.path_segment url 2)) as [name|] eqn:Hname;
      simpl.
    2:{ split; [intros _; right; right; left; eauto|reflexivity]. }
    destruct (URL_new (JS.origin url)) as [origin_url|] eqn:Horigin; simpl.
    + split; [discriminate|].
      intros [Hno | [(u & [= <-] & Hbad) | [(u & url' & [= <-] & Hu & Hn)
                   | (u & url' & name' & [= <-] & Hu & Hn & Ho)]]].
      all: congruence.
    + split; [intros _; right; right; right|reflexivity].
      exists uri, url, name. auto.
  - rewrite URL_new_undefined. simpl. tauto.
Qed.

Lemma decode_success value info :
  decodeKeyVaultReference value = Some info <-> Spec.decodes_to value info.
Proof.
  rewrite decode_from_uri. unfold Spec.decodes_to.
  destruct (decode_uri value) as [-> | [Hnone ->]]; simpl.
  - split.
    + destruct (Spec.json_uri value) as [uri|]; simpl; [|discriminate].
      destruct (URL_new (JS.ToString uri)) as [url|] eqn:Hurl; simpl;
        [|discriminate].
      destruct (Spec.present (Spec.path_segment url 2)) as [name|] eqn:Hname;
        simpl; [|discriminate].
      destruct (URL_new (JS.origin url)) as [origin_url|] eqn:Horigin;
        simpl; [|discriminate].
      intros [= <-]. exists uri, url, name, origin_url.
      repeat split; assumption || reflexivity.
    + intros (uri & url & name & origin_url & -> & Hurl & Hname & Ho & ->).
      simpl. rewrite Hurl. simpl. rewrite Hname. simpl. rewrite Ho.
      reflexivity.
  - rewrite URL_new_undefined. simpl. split; [discriminate|].
    intros (uri & url & name & origin_url & Huri & _). congruence.
Qed.

End Detector.

Section Decoder.

Context `{W : Collaborators}.

Lemma getKeyVaultReferenceInfo_Throw config err :
  getKeyVaultReferenceInfo config = Throw err <->
  err = InvalidKeyVaultUrlError (key config) /\
  decodeKeyVaultReference (value config) = None.
Proof.
  unfold getKeyVaultReferenceInfo.
  destruct (decodeKeyVaultReference (value config)) as [info|]; split.
  - discriminate.
  - intros [_ Hnone]. discriminate.
  - intros [= <-]. split; reflexivity.
  - intros [-> _]. reflexivity.
Qed.

Lemma getKeyVaultReferenceInfo_Ok config info :
  getKeyVaultReferenceInfo config = Ok info <->
  decodeKeyVaultReference (value config) = Some info.
Proof.
  unfold getKeyVaultReferenceInfo.
  destruct (decodeKeyVaultReference (value config)) as [info'|]; split;
    try discriminate; intros [= <-]; reflexivity.
Qed.

(** C7, amended. Decoding an entry throws nothing but
    [InvalidKeyVaultUrlError] with the key of the entry, and it throws it
    exactly when the value does not parse as JSON with a [uri] field, or the
    [uri] does not parse as a URL, or the third segment of the path (the
    secret name) is empty or absent, or the origin of the URL is not itself
    a URL; otherwise it returns the reference whose secret name is the third
    segment of the path, whose version is the fourth segment when there is
    one, whose secret URL is the parsed [uri] and whose vault URL is the URL
    parsed from its origin. *)
Theorem getKeyVaultReferenceInfo_decoding config :
  (forall err, getKeyVaultReferenceInfo config = Throw err ->
               err = InvalidKeyVaultUrlError (key config)) /\
  (getKeyVaultReferenceInfo config = Throw (InvalidKeyVaultUrlError (key config))
   <-> Spec.no_uri (value config) \/ Spec.bad_url (value config) \/
       Spec.no_secret_name (value config) \/ Spec.opaque_origin (value config))
  /\
  (forall info, getKeyVaultReferenceInfo config = Ok info <->
                Spec.decodes_to (value config) info).
Proof.
  split; [|split].
  - intros err Herr. apply getKeyVaultReferenceInfo_Throw in Herr. tauto.
  - rewrite getKeyVaultReferenceInfo_Throw, decode_failure. tauto.
  - intros info. rewrite getKeyVaultReferenceInfo_Ok. apply decode_success.
Qed.

End Decoder.

(** C6 at an entry of content type [application/json] whose value is the
    text of a well-formed reference: it is kept as a plain value. *)
Lemma isKeyVaultReference_exact_witness :
  let entry :=
    {| key := "K"; label := None;
       value := Some (Sample.reference_value "https://v.vault.azure.net/secrets/s");
       contentType := Some "application/json" |} in
  isKeyVaultReference entry = false /\
  is_Some (decodeKeyVaultReference (W := Sample.scenario) (value entry)) /\
  getAppConfigurations_loop (W := Sample.scenario) (Yield entry Done) ∅ ∅ =
    Ok {| appConfigVars := {[ "K" := value entry ]}; keyVaultReferences := ∅ |}.
Proof.
  intros entry. split; [reflexivity|]. split.
  - vm_compute. eexists. reflexivity.
  - rewrite (proj2 (isKeyVaultReference_exact (W := Sample.scenario) entry));
      [reflexivity|].
    discriminate.
Defined.

(** C7 at the entry [D] of the specification, whose [uri] is not a URL, and
    at a well-formed reference with a version. *)
Lemma getKeyVaultReferenceInfo_decoding_witness :
  getKeyVaultReferenceInfo (W := Sample.scenario)
    (Sample.reference "D" None "not a url")
  = Throw (InvalidKeyVaultUrlError "D") /\
  Spec.decodes_to (W := Sample.scenario)
    (Some (Sample.reference_value "https://v.vault.azure.net/secrets/s/v1"))
    {| vaultUrl := {| JS.href := "https://v.vault.azure.net/";
                      JS.origin := "https://v.vault.azure.net";
                      JS.pathname := "/" |};
       secretUrl := {| JS.href := "https://v.vault.azure.net/secrets/s/v1";
                       JS.origin := "https://v.vault.azure.net";
                       JS.pathname := "/secrets/s/v1" |};
       secretName := "s";
       secretVersion := Some "v1" |}.
Proof.
  split.
  - apply (proj1 (proj2 (getKeyVaultReferenceInfo_decoding (W := Sample.scenario)
                           (Sample.reference "D" None "not a url")))).
    right. left. exists (JS.Str "not a url").
    split; vm_compute; reflexivity.
  - apply (proj2 (proj2 (getKeyVaultReferenceInfo_decoding (W := Sample.scenario)
                           (Sample.reference "K" None
                              "https://v.vault.azure.net/secrets/s/v1")))).
    vm_compute. reflexivity.
Defined.

(** C7 as stated fails at a reference whose URL has a scheme without tuple
    origin: the value parses as JSON with a [uri] field, the [uri] parses as
    a URL and the secret name is [s], yet decoding throws, because the
    origin [null] is not a URL. *)
Lemma getKeyVaultReferenceInfo_opaque_origin :
  let entry := Sample.reference "D" None "foo://h/secrets/s" in
  getKeyVaultReferenceInfo (W := Sample.scenario) entry
  = Throw (InvalidKeyVaultUrlError "D") /\
  ~ (Spec.no_uri (W := Sample.scenario) (value entry) \/
     Spec.bad_url (W := Sample.scenario) (value entry) \/
     Spec.no_secret_name (W := Sample.scenario) (value entry)).
Proof.
  intros entry. split; [vm_compute; reflexivity|].
  intros [Hno | [(uri & Huri & Hbad) | (uri & url & Huri & Hurl & Hname)]].
  - vm_compute in Hno. discriminate.
  - vm_compute in Huri. injection Huri as <-.
    vm_compute in Hbad. discriminate.
  - vm_compute in Huri. injection Huri as <-.
    vm_compute in Hurl. injection Hurl as <-.
    vm_compute in Hname. discriminate.
Qed.

(** ** The remote configuration fetcher *)

(** Assignment to a property of an object literal. *)
Lemma lookup_assign_eq {V : Type} (key : string) (v : V) (obj : gmap string V) :
  key <> "__proto__" -> JS.assign key v obj !! key = Some v.
Proof.
  intros Hkey. unfold JS.assign.
  destruct (String.eqb_spec key "__proto__"); [contradiction|].
  apply lookup_insert_eq.
Qed.

Lemma lookup_assign_ne {V : Type} (key k : string) (v : V) (obj : gmap string V) :
  key <> k -> JS.assign key v obj !! k = obj !! k.
Proof.
  intros Hkey. unfold JS.assign.
  destruct (String.eqb key "__proto__"); [reflexivity|].
  apply lookup_insert_ne, Hkey.
Qed.

Lemma lookup_assign_proto {V : Type} (key : string) (v : V)
    (obj : gmap string V) :
  JS.assign key v obj !! "__proto__" = obj !! "__proto__".
Proof.
  unfold JS.assign. destruct (String.eqb_spec key "__proto__"); [reflexivity|].
  apply lookup_insert_ne. assumption.
Qed.

Lemma elem_of_dom_assign {V : Type} (key k : string) (v : V)
    (obj : gmap string V) :
  k ∈ dom (JS.assign key v obj) <->
  k ∈ dom obj \/ (k = key /\ k <> "__proto__").
Proof.
  unfold JS.assign. destruct (String.eqb_spec key "__proto__") as [-> | Hkey].
  - split; [auto|]. intros [Hk | [-> Hk]]; [exact Hk | contradiction].
  - rewrite dom_insert, elem_of_union, elem_of_singleton. split.
    + intros [-> | Hk]; auto.
    + intros [Hk | [-> _]]; auto.
Qed.

Section Fetcher.

Context `{W : Collaborators}.

(** The keys of the two objects the loop returns: those it started from,
    and the keys of the entries by classification, [__proto__] apart. *)
Lemma getAppConfigurations_loop_keys run :
  forall vars refs cfg,
    getAppConfigurations_loop run vars refs = Ok cfg ->
    forall k : string,
      (k ∈ dom (appConfigVars cfg) <->
       k ∈ dom vars \/
       (k <> "__proto__" /\
        exists c, c ∈ yielded run /\ key c = k /\
                  isKeyVaultReference c = false)) /\
      (k ∈ dom (keyVaultReferences cfg) <->
       k ∈ dom refs \/
       (k <> "__proto__" /\
        exists c, c ∈ yielded run /\ key c = k /\
                  isKeyVaultReference c = true)).
Proof.
  induction run as [|config rest IH|reason]; intros vars refs cfg Hrun k;
    [| |discriminate].
  - simpl in Hrun. injection Hrun as <-. simpl.
    split; (split; [auto|]); intros [Hk | (_ & c & Hc & _)]; auto;
      apply elem_of_nil in Hc; contradiction.
  - cbn [getAppConfigurations_loop yielded] in *.
    destruct (isKeyVaultReference config) eqn:Hclass.
    + destruct (getKeyVaultReferenceInfo config) as [info|err];
        [|discriminate].
      destruct (IH _ _ _ Hrun k) as [Hvars Hrefs]. split.
      * rewrite Hvars. split; intros [Hk | (Hp & c & Hc & Hkey & Hc')]; auto.
        -- right. split; [exact Hp|]. exists c. rewrite elem_of_cons. auto.
        -- apply elem_of_cons in Hc as [-> | Hc]; [congruence|].
           right. split; [exact Hp|]. exists c. auto.
      * rewrite Hrefs, elem_of_dom_assign. split.
        -- intros [[Hk | [-> Hp]] | (Hp & c & Hc & Hkey & Hc')]; auto.
           ++ right. split; [exact Hp|]. exists config.
              rewrite elem_of_cons. auto.
           ++ right. split; [exact Hp|]. exists c. rewrite elem_of_cons. auto.
        -- intros [Hk | (Hp & c & Hc & Hkey & Hc')]; auto.
           apply elem_of_cons in Hc as [-> | Hc]; auto.
           right. split; [exact Hp|]. exists c. auto.
    + destruct (IH _ _ _ Hrun k) as [Hvars Hrefs]. split.
      * rewrite Hvars, elem_of_dom_assign. split.
        -- intros [[Hk | [-> Hp]] | (Hp & c & Hc & Hkey & Hc')]; auto.
           ++ right. split; [exact Hp|]. exists config.
              rewrite elem_of_cons. auto.
           ++ right. split; [exact Hp|]. exists c. rewrite elem_of_cons. auto.
        -- intros [Hk | (Hp & c & Hc & Hkey & Hc')]; auto.
           apply elem_of_cons in Hc as [-> | Hc]; auto.
           right. split; [exact Hp|]. exists c. auto.
      * rewrite Hrefs. split; intros [Hk | (Hp & c & Hc & Hkey & Hc')]; auto.
        -- right. split; [exact Hp|]. exists c. rewrite elem_of_cons. auto.
        -- apply elem_of_cons in Hc as [-> | Hc]; [congruence|].
           right. split; [exact Hp|]. exists c. auto.
Qed.

(** The loop returns only when the run of the store got to its end. *)
Lemma getAppConfigurations_loop_complete run :
  forall vars refs cfg,
    getAppConfigurations_loop run vars refs = Ok cfg -> rejection run = None.
Proof.
  induction run as [|config rest IH|reason]; intros vars refs cfg Hrun;
    [reflexivity| |discriminate].
  cbn [getAppConfigurations_loop rejection] in *.
  destruct (isKeyVaultReference config).
  - destruct (getKeyVaultReferenceInfo config); [|discriminate].
    eapply IH, Hrun.
  - eapply IH, Hrun.
Qed.

Lemma getAppConfigurations_run client st cfg st' :
  getAppConfigurations client st = (Ok cfg, st') ->
  getAppConfigurations_loop
    (listConfigurationSettings (client_connectionString client)) ∅ ∅ = Ok cfg.
Proof.
  unfold getAppConfigurations, mbind, M_bind, bind, emit, lift.
  intros [= Hcfg _]. exact Hcfg.
Qed.

Lemma NoDup_fmap_elem {A B : Type} (f : A -> B) (l : list A) (x y : A) :
  NoDup (f <$> l) -> x ∈ l -> y ∈ l -> f x = f y -> x = y.
Proof.
  induction l as [|a l IH]; intros Hnd Hx Hy Hf.
  - apply elem_of_nil in Hx. contradiction.
  - rewrite fmap_cons in Hnd. apply NoDup_cons in Hnd as [Ha Hnd].
    apply elem_of_cons in Hx as [-> | Hx];
      apply elem_of_cons in Hy as [-> | Hy]; auto.
    + exfalso. apply Ha. rewrite Hf. apply list_elem_of_fmap_2, Hy.
    + exfalso. apply Ha. rewrite <- Hf. apply list_elem_of_fmap_2, Hx.
Qed.

(** C8, amended. When the fetcher returns, the keys of the two objects
    together are the keys of the enumerated entries other than [__proto__],
    under which an assignment creates no property; the two sets of keys are
    disjoint exactly when no key other than [__proto__] is enumerated both
    by an entry classified as a reference and by one that is not, as when
    the keys of the enumerated entries are pairwise distinct. The fetcher
    returns only when the run of the store got to its end. *)
Theorem getAppConfigurations_partition client st cfg st' :
  getAppConfigurations client st = (Ok cfg, st') ->
  let run := listConfigurationSettings (client_connectionString client) in
  let entries := yielded run in
  dom (appConfigVars cfg) ∪ dom (keyVaultReferences cfg)
    = list_to_set (key <$> entries) ∖ {[ "__proto__" ]} /\
  (dom (appConfigVars cfg) ## dom (keyVaultReferences cfg) <->
   forall c1 c2, c1 ∈ entries -> c2 ∈ entries -> key c1 = key c2 ->
                 key c1 <> "__proto__" ->
                 isKeyVaultReference c1 = isKeyVaultReference c2) /\
  (NoDup (key <$> entries) ->
   dom (appConfigVars cfg) ## dom (keyVaultReferences cfg)) /\
  rejection run = None.
Proof.
  intros Hrun run entries. apply getAppConfigurations_run in Hrun.
  fold run in Hrun.
  pose proof (getAppConfigurations_loop_keys run ∅ ∅ cfg Hrun) as Hkeys.
  fold entries in Hkeys.
  assert (Hvars : forall k, k ∈ dom (appConfigVars cfg) <->
            k <> "__proto__" /\
            exists c, c ∈ entries /\ key c = k /\ isKeyVaultReference c = false).
  { intros k. rewrite (proj1 (Hkeys k)), dom_empty, elem_of_empty. tauto. }
  assert (Hrefs : forall k, k ∈ dom (keyVaultReferences cfg) <->
            k <> "__proto__" /\
            exists c, c ∈ entries /\ key c = k /\ isKeyVaultReference c = true).
  { intros k. rewrite (proj2 (Hkeys k)), dom_empty, elem_of_empty. tauto. }
  assert (Hdisjoint :
            dom (appConfigVars cfg) ## dom (keyVaultReferences cfg) <->
            forall c1 c2, c1 ∈ entries -> c2 ∈ entries -> key c1 = key c2 ->
                          key c1 <> "__proto__" ->
                          isKeyVaultReference c1 = isKeyVaultReference c2).
  { split.
    - intros Hd c1 c2 H1 H2 Hkey Hp.
      destruct (isKeyVaultReference c1) eqn:E1,
               (isKeyVaultReference c2) eqn:E2; try reflexivity; exfalso.
      + apply (Hd (key c1)); [apply Hvars | apply Hrefs];
          (split; [exact Hp|]); [exists c2 | exists c1]; auto.
      + apply (Hd (key c1)); [apply Hvars | apply Hrefs];
          (split; [exact Hp|]); [exists c1 | exists c2]; auto.
    - intros Hsame k Hk1 Hk2.
      apply Hvars in Hk1 as (Hp & c1 & H1 & <- & E1).
      apply Hrefs in Hk2 as (_ & c2 & H2 & Hkey & E2).
      specialize (Hsame c1 c2 H1 H2 (eq_sym Hkey) Hp). congruence. }
  split; [|split; [|split]].
  - apply set_eq. intros k.
    rewrite elem_of_union, Hvars, Hrefs, elem_of_difference,
      elem_of_list_to_set, list_elem_of_fmap, elem_of_singleton.
    split.
    + intros [(Hp & c & Hc & Hkey & _) | (Hp & c & Hc & Hkey & _)];
        (split; [exists c; auto | exact Hp]).
    + intros [(c & -> & Hc) Hp].
      destruct (isKeyVaultReference c) eqn:E; [right | left];
        (split; [exact Hp|]); exists c; auto.
  - exact Hdisjoint.
  - intros Hnd. apply Hdisjoint. intros c1 c2 H1 H2 Hkey _.
    rewrite (NoDup_fmap_elem key entries c1 c2 Hnd H1 H2 Hkey). reflexivity.
  - eapply getAppConfigurations_loop_complete, Hrun.
Qed.

End Fetcher.

(** C8 at the store of the specification's scenario, the plain entry [B]
    and the reference [C], after an entry of key [__proto__]. *)
Lemma getAppConfigurations_partition_witness :
  exists cfg,
    fst (getAppConfigurations (W := Sample.proto) Sample.client
           (initial_state ∅)) = Ok cfg /\
    dom (appConfigVars cfg) ∪ dom (keyVaultReferences cfg) = {[ "B"; "C" ]} /\
    dom (appConfigVars cfg) ## dom (keyVaultReferences cfg).
Proof.
  destruct (getAppConfigurations (W := Sample.proto) Sample.client
              (initial_state ∅)) as [[cfg|err] st'] eqn:Hrun.
  - exists cfg. split; [reflexivity|].
    destruct (getAppConfigurations_partition _ _ _ _ Hrun)
      as (Hunion & _ & Hdisjoint & _).
    split.
    + rewrite Hunion. vm_compute. reflexivity.
    + apply Hdisjoint. simpl. repeat (apply NoDup_cons; split).
      * rewrite !elem_of_cons, elem_of_nil. intuition discriminate.
      * rewrite !elem_of_cons, elem_of_nil. intuition discriminate.
      * apply not_elem_of_nil.
      * apply NoDup_nil_2.
  - vm_compute in Hrun. discriminate.
Defined.

(** C8 as stated fails on a store that enumerates the key [K] twice, under
    the label [dev] with a plain value and under the label [prod] with a
    reference: [K] is a key of both objects. And on a store with a reference
    that does not decode the fetcher returns no objects: it throws. *)
Lemma getAppConfigurations_overlap :
  (exists cfg,
      fst (getAppConfigurations (W := Sample.collision) Sample.client
             (initial_state ∅)) = Ok cfg /\
      appConfigVars cfg !! "K" = Some (Some "plain") /\
      is_Some (keyVaultReferences cfg !! "K") /\
      ~ dom (appConfigVars cfg) ## dom (keyVaultReferences cfg)) /\
  fst (getAppConfigurations (W := Sample.malformed) Sample.client
         (initial_state ∅)) = Throw (InvalidKeyVaultUrlError "D").
Proof.
  split; [|vm_compute; reflexivity].
  exists (Sample.returned Sample.no_configurations
            (fst (getAppConfigurations (W := Sample.collision) Sample.client
                    (initial_state ∅)))).
  split; [vm_compute; reflexivity|].
  split; [vm_compute; reflexivity|].
  split; [vm_compute; eexists; reflexivity|].
  intros Hd. apply (Hd "K"); apply elem_of_dom; vm_compute; eexists;
    reflexivity.
Qed.
(** ** The merge assembler *)

Section Assembler.

Context `{W : Collaborators}.

Lemma AppConfigurationClient_new_run connectionString st :
  AppConfigurationClient_new connectionString st =
    (match AppConfigurationClient_invalid connectionString with
     | Some err => Throw err
     | None => Ok {| client_connectionString := connectionString |}
     end,
     {| process_env := process_env st;
        keyVaultClients := keyVaultClients st;
        log := log st ++ [NewAppConfigurationClient connectionString] |}).
Proof.
  unfold AppConfigurationClient_new, mbind, M_bind, bind, emit.
  destruct (AppConfigurationClient_invalid connectionString); reflexivity.
Qed.

(** [loadFromAzure] after the credentials are resolved, the client of the
    store built and the entries fetched: the outcome of the secret phase
    decides the rest. *)
Lemma loadFromAzure_run this dotenvVars st creds cfg st1 :
  getAzureCredentials this dotenvVars st = (Ok creds, st) ->
  AppConfigurationClient_invalid (cred_connectionString creds) = None ->
  getAppConfigurations
    {| client_connectionString := cred_connectionString creds |}
    {| process_env := process_env st;
       keyVaultClients := keyVaultClients st;
       log := log st ++ [NewAppConfigurationClient (cred_connectionString creds)] |}
  = (Ok cfg, st1) ->
  loadFromAzure this dotenvVars st =
    match getSecretsFromKeyVault this (keyVaultReferences cfg) st1 with
    | (Ok secrets, st2) => (Ok (JS.spread (appConfigVars cfg) secrets), st2)
    | (Throw err, st2) =>
        (Ok (appConfigVars cfg),
         if instanceof_Error err
         then {| process_env := process_env st2;
                 keyVaultClients := keyVaultClients st2;
                 log := log st2 ++ [ConsoleWarn warning_prefix err] |}
         else st2)
    end.
Proof.
  intros Hcred Hclient Hfetch.
  unfold loadFromAzure, mbind, M_bind, bind. rewrite Hcred.
  rewrite AppConfigurationClient_new_run, Hclient, Hfetch. unfold try_catch.
  destruct (getSecretsFromKeyVault this (keyVaultReferences cfg) st1)
    as [[secrets|err] st2]; [reflexivity|].
  destruct (instanceof_Error err); simpl; unfold mret, M_ret, ret;
    rewrite spread_empty_r; reflexivity.
Qed.

Lemma parse_run this src options st :
  parse this src options st =
    match loadFromAzure this (Some (dotenv_parse src options)) st with
    | (Ok azureVars, st') =>
        (Ok (JS.spread azureVars (Some <$> dotenv_parse src options)), st')
    | (Throw err, st') => (Throw err, st')
    end.
Proof. reflexivity. Qed.

Lemma config_parsed this options st out st' :
  config this options st = (Ok out, st') ->
  dotenv out = (dotenv_config options (process_env st)).1 /\
  parsed out =
    JS.spread (azure out) (Some <$> default ∅ (dotenv_parsed (dotenv out))).
Proof.
  unfold config, mbind, M_bind, bind, dotenv_config_run,
    populateProcessEnv_run.
  destruct (loadFromAzure this _ _) as [[azureVars|err] st1]; [|discriminate].
  destruct (default false (safe options)).
  - destruct (validateFromEnvExample options _ _) as [[[]|err] st2];
      [|discriminate].
    intros [= <- _]. split; reflexivity.
  - intros [= <- _]. split; reflexivity.
Qed.

Lemma lookup_spread_local (azureVars : VariablesObject)
    (local : DotenvParseOutput) (k v : string) :
  local !! k = Some v ->
  JS.spread azureVars (Some <$> local) !! k = Some (Some v).
Proof.
  intros Hk. apply lookup_spread_Some. rewrite lookup_fmap, Hk. reflexivity.
Qed.

(** C1. A key of the local mapping maps to its local value in the object
    [parse] returns and in the [parsed] field of the object [config]
    returns, whatever the store enumerates and the vaults answer. *)
Theorem local_values_win this (local : DotenvParseOutput) (k v : string) :
  local !! k = Some v ->
  (forall src options st merged st',
      dotenv_parse src options = local ->
      parse this src options st = (Ok merged, st') ->
      merged !! k = Some (Some v)) /\
  (forall options st out st',
      dotenv_parsed (dotenv out) = Some local ->
      config this options st = (Ok out, st') ->
      parsed out !! k = Some (Some v)).
Proof.
  intros Hk. split.
  - intros src options st merged st' Hlocal Hrun.
    rewrite parse_run, Hlocal in Hrun.
    destruct (loadFromAzure this (Some local) st) as [[azureVars|err] st1];
      [|discriminate].
    injection Hrun as <- _. apply lookup_spread_local, Hk.
  - intros options st out st' Hlocal Hrun.
    apply config_parsed in Hrun as [_ ->]. rewrite Hlocal. simpl.
    apply lookup_spread_local, Hk.
Qed.

(** C2, amended. When the credentials are resolved, the client of the store
    built, the entries fetched and the secret phase fails, [loadFromAzure]
    does not throw: it returns the plain values of the fetch, nothing else,
    from the state the secret phase left, with one more entry in the log,
    the warning that carries the error, when what was thrown is an [Error],
    and no new entry when it is not. *)
Theorem loadFromAzure_secret_failure this dotenvVars st creds cfg st1 err st2 :
  getAzureCredentials this dotenvVars st = (Ok creds, st) ->
  AppConfigurationClient_invalid (cred_connectionString creds) = None ->
  getAppConfigurations
    {| client_connectionString := cred_connectionString creds |}
    {| process_env := process_env st;
       keyVaultClients := keyVaultClients st;
       log := log st ++ [NewAppConfigurationClient (cred_connectionString creds)] |}
  = (Ok cfg, st1) ->
  getSecretsFromKeyVault this (keyVaultReferences cfg) st1 = (Throw err, st2) ->
  exists st3,
    loadFromAzure this dotenvVars st = (Ok (appConfigVars cfg), st3) /\
    process_env st3 = process_env st2 /\
    keyVaultClients st3 = keyVaultClients st2 /\
    log st3 = (log st2 ++ if instanceof_Error err
                          then [ConsoleWarn warning_prefix err]
                          else [])%list.
Proof.
  intros Hcred Hclient Hfetch Hsecrets.
  rewrite (loadFromAzure_run _ _ _ _ _ _ Hcred Hclient Hfetch), Hsecrets.
  eexists. split; [reflexivity|].
  destruct (instanceof_Error err); simpl; rewrite ?app_nil_r; auto.
Qed.

(** C3, amended. When the credentials are resolved, the client of the store
    built, the entries fetched and the secrets resolved, the precedence from
    lowest to highest is: plain remote values, resolved secrets, local
    values. [loadFromAzure] returns the plain values overwritten by the
    secrets, so a key that is both a plain value and a resolved secret maps
    to the secret, and [parse] returns that object overwritten by the local
    values. *)
Theorem merge_precedence this src options st creds cfg st1 secrets st2 :
  getAzureCredentials this (Some (dotenv_parse src options)) st = (Ok creds, st) ->
  AppConfigurationClient_invalid (cred_connectionString creds) = None ->
  getAppConfigurations
    {| client_connectionString := cred_connectionString creds |}
    {| process_env := process_env st;
       keyVaultClients := keyVaultClients st;
       log := log st ++ [NewAppConfigurationClient (cred_connectionString creds)] |}
  = (Ok cfg, st1) ->
  getSecretsFromKeyVault this (keyVaultReferences cfg) st1 = (Ok secrets, st2) ->
  exists azureVars merged,
    loadFromAzure this (Some (dotenv_parse src options)) st = (Ok azureVars, st2) /\
    parse this src options st = (Ok merged, st2) /\
    (forall k p s,
        appConfigVars cfg !! k = Some p -> secrets !! k = Some s ->
        azureVars !! k = Some s) /\
    (forall k, azureVars !! k = Spec.merge3 ∅ (appConfigVars cfg) secrets k) /\
    (forall k, merged !! k =
               Spec.merge3 (appConfigVars cfg) secrets
                 (Some <$> dotenv_parse src options) k).
Proof.
  intros Hcred Hclient Hfetch Hsecrets.
  pose proof (loadFromAzure_run _ _ _ _ _ _ Hcred Hclient Hfetch) as Hrun.
  rewrite Hsecrets in Hrun.
  exists (JS.spread (appConfigVars cfg) secrets),
         (JS.spread (JS.spread (appConfigVars cfg) secrets)
            (Some <$> dotenv_parse src options)).
  split; [exact Hrun|]. split; [rewrite parse_run, Hrun; reflexivity|].
  split; [|split].
  - intros k p s _ Hs. apply lookup_spread_Some, Hs.
  - intros k. rewrite lookup_spread. unfold Spec.merge3.
    rewrite lookup_empty.
    destruct (secrets !! k), (appConfigVars cfg !! k); reflexivity.
  - intros k. rewrite !lookup_spread. unfold Spec.merge3. reflexivity.
Qed.

End Assembler.

(** ** The secret phase against an unreachable vault *)

Section Unreachable.

Context `{W : Collaborators}.

Variable reason : Exn.

Hypothesis unreachable :
  forall vaultURL name version, vault_getSecret vaultURL name version = Rejected reason.

Lemma getSecret_unreachable key info secrets st :
  fst (getSecret key info secrets st) = Throw reason.
Proof.
  unfold getSecret, mbind, M_bind, bind, getKeyVaultClient,
    SecretClient_getSecret, emit.
  destruct (keyVaultClients st !! JS.href (vaultUrl info)); simpl;
    rewrite unreachable; reflexivity.
Qed.

(** The phase fails as soon as there is a reference to resolve. *)
Lemma getSecretsFromKeyVault_unreachable this (vars : KeyVaultReferences) st :
  vars <> ∅ -> fst (getSecretsFromKeyVault this vars st) = Throw reason.
Proof.
  intros Hvars. unfold getSecretsFromKeyVault, mbind, M_bind, bind, emit.
  destruct (map_to_list vars) as [|[key info] rest] eqn:Htasks.
  - apply map_to_list_empty_iff in Htasks. contradiction.
  - simpl. unfold mbind, M_bind, bind.
    match goal with
    | |- context [getSecret key info ∅ ?s] =>
        pose proof (getSecret_unreachable key info ∅ s) as Hfirst;
        destruct (getSecret key info ∅ s) as [[secrets|err] st']
    end; simpl in Hfirst; [discriminate|].
    injection Hfirst as ->. reflexivity.
Qed.

(** With the credentials resolved, the client built and the entries
    fetched, [loadFromAzure] returns the plain values, whether there are
    references or not. *)
Lemma loadFromAzure_unreachable this dotenvVars st creds cfg st1 :
  getAzureCredentials this dotenvVars st = (Ok creds, st) ->
  AppConfigurationClient_invalid (cred_connectionString creds) = None ->
  getAppConfigurations
    {| client_connectionString := cred_connectionString creds |}
    {| process_env := process_env st;
       keyVaultClients := keyVaultClients st;
       log := log st ++ [NewAppConfigurationClient (cred_connectionString creds)] |}
  = (Ok cfg, st1) ->
  fst (loadFromAzure this dotenvVars st) = Ok (appConfigVars cfg).
Proof.
  intros Hcred Hclient Hfetch.
  rewrite (loadFromAzure_run _ _ _ _ _ _ Hcred Hclient Hfetch).
  destruct (decide (keyVaultReferences cfg = ∅)) as [Hnone | Hsome].
  - rewrite Hnone. unfold getSecretsFromKeyVault, mbind, M_bind, bind, emit.
    rewrite map_to_list_empty. simpl. rewrite spread_empty_r. reflexivity.
  - pose proof (getSecretsFromKeyVault_unreachable this _ st1 Hsome) as Hfail.
    destruct (getSecretsFromKeyVault this (keyVaultReferences cfg) st1)
      as [[secrets|err] st2]; simpl in Hfail; [discriminate|reflexivity].
Qed.

End Unreachable.

(** Names the results of the fetch of [loadFromAzure] at a concrete world,
    from the empty state and the connection string [Sample.connection]. *)
Ltac run_fetch world cfg st1 Hfetch :=
  pose (cfg := Sample.returned Sample.no_configurations
                 (fst (getAppConfigurations (W := world) Sample.client
                         (Sample.connected (initial_state ∅)))));
  pose (st1 := snd (getAppConfigurations (W := world) Sample.client
                      (Sample.connected (initial_state ∅))));
  assert (Hfetch : getAppConfigurations (W := world) Sample.client
                     (Sample.connected (initial_state ∅)) = (Ok cfg, st1))
    by (vm_compute; reflexivity).

(** C1 at a local file that defines [K], against a store that enumerates
    [K] both as a plain value and as a reference. *)
Lemma local_values_win_witness :
  let this := Sample.instance (Some Sample.connection) in
  (exists merged,
      fst (parse (W := Sample.collision) this "K=local" None (initial_state ∅))
      = Ok merged /\
      merged !! "K" = Some (Some "local")) /\
  (exists out,
      fst (config (W := Sample.collision) this Sample.no_options
             (initial_state ∅)) = Ok out /\
      azure out !! "K" = Some (Some "secret") /\
      parsed out !! "K" = Some (Some "local")).
Proof.
  intros this.
  assert (Hk : ({[ "K" := "local" ]} : DotenvParseOutput) !! "K" = Some "local")
    by (vm_compute; reflexivity).
  destruct (local_values_win (W := Sample.collision) this _ "K" "local" Hk)
    as [Hparse Hconfig].
  split.
  - destruct (parse (W := Sample.collision) this "K=local" None (initial_state ∅))
      as [[merged|err] st'] eqn:Hrun.
    + exists merged. split; [reflexivity|].
      apply (Hparse "K=local" None (initial_state ∅) merged st' eq_refl Hrun).
    + vm_compute in Hrun. discriminate.
  - pose (out := Sample.returned
                   {| parsed := ∅;
                      dotenv := {| dotenv_parsed := None; dotenv_error := None |};
                      azure := ∅ |}
                   (fst (config (W := Sample.collision) this Sample.no_options
                           (initial_state ∅)))).
    pose (st' := snd (config (W := Sample.collision) this Sample.no_options
                        (initial_state ∅))).
    assert (Hrun : config (W := Sample.collision) this Sample.no_options
                     (initial_state ∅) = (Ok out, st'))
      by (vm_compute; reflexivity).
    exists out. rewrite Hrun. split; [reflexivity|].
    split; [vm_compute; reflexivity|].
    apply (Hconfig Sample.no_options (initial_state ∅) out st');
      [vm_compute; reflexivity | exact Hrun].
Defined.

(** C2 at a vault that rejects every fetch with an [Error]: the plain value
    is returned and the warning is the last entry of the log. *)
Lemma loadFromAzure_secret_failure_witness :
  let run := loadFromAzure (W := Sample.unreachable (OtherError "unreachable"))
               (Sample.instance (Some Sample.connection)) None (initial_state ∅) in
  fst run = Ok {[ "B" := Some "2" ]} /\
  log (snd run) =
    [NewAppConfigurationClient Sample.connection;
     ListConfigurationSettings Sample.connection;
     NewBottleneck (JS.of_Z 23);
     NewSecretClient "https://v.vault.azure.net/";
     GetSecret "https://v.vault.azure.net/" "s" None;
     ConsoleWarn warning_prefix (OtherError "unreachable")].
Proof.
  intros run.
  pose (world := Sample.unreachable (OtherError "unreachable")).
  pose (this := Sample.instance (Some Sample.connection)).
  run_fetch world cfg st1 Hfetch.
  pose (st2 := snd (getSecretsFromKeyVault (W := world) this
                      (keyVaultReferences cfg) st1)).
  assert (Hsecrets : getSecretsFromKeyVault (W := world) this
                       (keyVaultReferences cfg) st1
                     = (Throw (OtherError "unreachable"), st2))
    by (vm_compute; reflexivity).
  destruct (loadFromAzure_secret_failure (W := world) this None (initial_state ∅)
              {| cred_connectionString := Sample.connection |} cfg st1
              (OtherError "unreachable") st2 eq_refl eq_refl Hfetch Hsecrets)
    as (st3 & Hrun & _ & _ & Hlog).
  unfold run. fold world this. rewrite Hrun. cbn [fst snd]. split.
  - vm_compute. reflexivity.
  - rewrite Hlog. vm_compute. reflexivity.
Defined.

(** C2 as stated fails at a vault that rejects with a value that is not an
    [Error]: the secret phase fails, the plain value is returned, and the
    log ends with the rejected fetch; no warning is reported. *)
Lemma loadFromAzure_silent_failure :
  let world := Sample.unreachable (NotAnError "unreachable") in
  let this := Sample.instance (Some Sample.connection) in
  let fetched :=
    getAppConfigurations (W := world) Sample.client
      (Sample.connected (initial_state ∅)) in
  let run := loadFromAzure (W := world) this None (initial_state ∅) in
  fst (getSecretsFromKeyVault (W := world) this
         (keyVaultReferences (Sample.returned Sample.no_configurations
                                (fst fetched)))
         (snd fetched))
  = Throw (NotAnError "unreachable") /\
  fst run = Ok {[ "B" := Some "2" ]} /\
  log (snd run) =
    [NewAppConfigurationClient Sample.connection;
     ListConfigurationSettings Sample.connection;
     NewBottleneck (JS.of_Z 23);
     NewSecretClient "https://v.vault.azure.net/";
     GetSecret "https://v.vault.azure.net/" "s" None] /\
  (forall prefix err, ConsoleWarn prefix err ∉ log (snd run)).
Proof.
  intros world this fetched run.
  assert (Hlog : log (snd run) =
            [NewAppConfigurationClient Sample.connection;
             ListConfigurationSettings Sample.connection;
             NewBottleneck (JS.of_Z 23);
             NewSecretClient "https://v.vault.azure.net/";
             GetSecret "https://v.vault.azure.net/" "s" None])
    by (vm_compute; reflexivity).
  split; [vm_compute; reflexivity|].
  split; [vm_compute; reflexivity|].
  split; [exact Hlog|].
  intros prefix err Hin. rewrite Hlog in Hin.
  repeat (apply elem_of_cons in Hin as [Hin | Hin]; [discriminate|]).
  apply elem_of_nil in Hin. exact Hin.
Qed.

(** C3 at the scenario of the specification: the local file defines [A],
    the store has the plain entry [B] and the reference [C], the vault
    resolves it to [3]. *)
Lemma merge_precedence_witness :
  exists merged,
    fst (parse (W := Sample.scenario) (Sample.instance (Some Sample.connection))
           "A=1" None (initial_state ∅)) = Ok merged /\
    merged !! "A" = Some (Some "1") /\
    merged !! "B" = Some (Some "2") /\
    merged !! "C" = Some (Some "3") /\
    merged !! "D" = None.
Proof.
  pose (this := Sample.instance (Some Sample.connection)).
  run_fetch Sample.scenario cfg st1 Hfetch.
  pose (secrets := Sample.returned (∅ : VariablesObject)
                     (fst (getSecretsFromKeyVault (W := Sample.scenario) this
                             (keyVaultReferences cfg) st1))).
  pose (st2 := snd (getSecretsFromKeyVault (W := Sample.scenario) this
                      (keyVaultReferences cfg) st1)).
  assert (Hsecrets : getSecretsFromKeyVault (W := Sample.scenario) this
                       (keyVaultReferences cfg) st1 = (Ok secrets, st2))
    by (vm_compute; reflexivity).
  destruct (merge_precedence (W := Sample.scenario) this "A=1" None
              (initial_state ∅) {| cred_connectionString := Sample.connection |}
              cfg st1 secrets st2 eq_refl eq_refl Hfetch Hsecrets)
    as (azureVars & merged & _ & Hparse & _ & _ & Hmerged).
  exists merged. fold this. rewrite Hparse. split; [reflexivity|].
  rewrite (Hmerged "A"), (Hmerged "B"), (Hmerged "C"), (Hmerged "D").
  repeat split; vm_compute; reflexivity.
Defined.

(** C3 as stated fails on a store that enumerates the key [K] both with a
    plain value and with a reference: [K] is a plain value and a resolved
    secret, and [loadFromAzure] maps it to the secret. *)
Lemma loadFromAzure_secret_over_plain :
  let this := Sample.instance (Some Sample.connection) in
  let fetched :=
    getAppConfigurations (W := Sample.collision) Sample.client
      (Sample.connected (initial_state ∅)) in
  let cfg := Sample.returned Sample.no_configurations (fst fetched) in
  let secrets :=
    getSecretsFromKeyVault (W := Sample.collision) this
      (keyVaultReferences cfg) (snd fetched) in
  appConfigVars cfg !! "K" = Some (Some "plain") /\
  fst secrets = Ok {[ "K" := Some "secret" ]} /\
  fst (loadFromAzure (W := Sample.collision) this None (initial_state ∅))
  = Ok {[ "K" := Some "secret" ]}.
Proof.
  intros this fetched cfg secrets. repeat split; vm_compute; reflexivity.
Qed.

(** * Further properties of the pipeline *)

(** ** The secret phase *)

Section SecretPhase.

Context `{W : Collaborators}.

Lemma clients_created_app l1 l2 :
  Trace.clients_created (l1 ++ l2) =
  (Trace.clients_created l1 ++ Trace.clients_created l2)%list.
Proof. apply omap_app. Qed.

Lemma fetches_app l1 l2 :
  Trace.fetches (l1 ++ l2) = (Trace.fetches l1 ++ Trace.fetches l2)%list.
Proof. apply omap_app. Qed.

Lemma limiters_app l1 l2 :
  Trace.limiters (l1 ++ l2) = (Trace.limiters l1 ++ Trace.limiters l2)%list.
Proof. apply omap_app. Qed.

Lemma registry_ok_log st ev :
  Trace.clients_created [ev] = [] ->
  Trace.registry_ok st ->
  Trace.registry_ok {| process_env := process_env st;
                       keyVaultClients := keyVaultClients st;
                       log := log st ++ [ev] |}.
Proof.
  intros Hev Hok. unfold Trace.registry_ok in *. cbn [log keyVaultClients].
  rewrite clients_created_app, Hev, app_nil_r. exact Hok.
Qed.

(** [getKeyVaultClient] returns the client of the origin, which the
    registry holds from then on; it builds one only when the registry has
    none, and changes nothing else. *)
Lemma getKeyVaultClient_run vaultURL st :
  Trace.registry_ok st ->
  exists client new clients,
    getKeyVaultClient vaultURL st =
      (Ok client, {| process_env := process_env st;
                     keyVaultClients := clients;
                     log := log st ++ new |}) /\
    Trace.registry_ok {| process_env := process_env st;
                         keyVaultClients := clients;
                         log := log st ++ new |} /\
    client_vaultURL client = vaultURL /\
    clients !! vaultURL = Some client /\
    keyVaultClients st ⊆ clients /\
    new = match keyVaultClients st !! vaultURL with
          | Some _ => []
          | None => [NewSecretClient vaultURL]
          end.
Proof.
  intros Hok. pose proof Hok as (Hnodup & Hlog & Hbound).
  unfold getKeyVaultClient.
  destruct (keyVaultClients st !! vaultURL) as [client|] eqn:Hreg.
  - exists client, [], (keyVaultClients st). rewrite app_nil_r.
    destruct st as [env clients events]. simpl in *.
    split; [reflexivity|]. split; [exact Hok|].
    split; [eauto|]. split; [exact Hreg|]. split; reflexivity.
  - eexists _, _, _. split; [reflexivity|].
    split; [|split; [reflexivity|split; [apply lookup_insert_eq|]]].
    2:{ split; [apply insert_subseteq, Hreg | reflexivity]. }
    unfold Trace.registry_ok. cbn [log keyVaultClients].
    split; [|split].
    + rewrite clients_created_app. simpl. apply NoDup_app.
      split; [exact Hnodup|]. split; [|apply NoDup_singleton].
      intros u Hu Hin. apply list_elem_of_singleton in Hin as ->.
      apply Hlog in Hu as [c Hc]. congruence.
    + intros u. rewrite clients_created_app, elem_of_app. simpl.
      rewrite list_elem_of_singleton, Hlog.
      destruct (decide (vaultURL = u)) as [-> | Hne].
      * rewrite lookup_insert_eq. split; eauto.
      * rewrite lookup_insert_ne by exact Hne. split; [|auto].
        intros [Hu | ->]; [exact Hu | contradiction].
    + intros u c. destruct (decide (vaultURL = u)) as [-> | Hne].
      * rewrite lookup_insert_eq. intros [= <-]. reflexivity.
      * rewrite lookup_insert_ne by exact Hne. apply Hbound.
Qed.

(** One task of the secret phase: the fetch the reference asks for is
    issued once, and the answer of the vault decides the outcome. *)
Lemma getSecret_run key info secrets st :
  Trace.registry_ok st ->
  exists new clients,
    getSecret key info secrets st =
      (match Trace.answer info with
       | Resolved response_value => Ok (<[key := response_value]> secrets)
       | Rejected reason => Throw reason
       end,
       {| process_env := process_env st;
          keyVaultClients := clients;
          log := log st ++ new |}) /\
    Trace.registry_ok {| process_env := process_env st;
                         keyVaultClients := clients;
                         log := log st ++ new |} /\
    keyVaultClients st ⊆ clients /\
    Trace.fetches new = [Trace.request info] /\
    Trace.limiters new = [] /\
    forallb Trace.is_vault_event new = true.
Proof.
  intros Hok.
  destruct (getKeyVaultClient_run (JS.href (vaultUrl info)) st Hok)
    as (client & new & clients & Hrun & Hok' & Hurl & _ & Hsub & Hnew).
  exists (new ++ [GetSecret (JS.href (vaultUrl info)) (secretName info)
                    (secretVersion info)])%list, clients.
  split; [|split; [|split; [exact Hsub|]]].
  - unfold getSecret, mbind, M_bind, bind. rewrite Hrun.
    unfold SecretClient_getSecret, mbind, M_bind, bind, emit.
    cbn [process_env keyVaultClients log]. rewrite Hurl, <- app_assoc.
    unfold Trace.answer.
    destruct (vault_getSecret _ _ _); reflexivity.
  - rewrite app_assoc.
    apply (registry_ok_log _ (GetSecret _ _ _) eq_refl Hok').
  - rewrite fetches_app, limiters_app, forallb_app. subst new.
    destruct (keyVaultClients st !! JS.href (vaultUrl info));
      repeat split; reflexivity.
Qed.

(** The tasks of the phase, one after the other. *)
Lemma Promise_all_run limiter tasks :
  forall secrets st,
    Trace.registry_ok st ->
    exists new clients,
      Promise_all limiter tasks secrets st =
        (Trace.outcome tasks secrets,
         {| process_env := process_env st;
            keyVaultClients := clients;
            log := log st ++ new |}) /\
      Trace.registry_ok {| process_env := process_env st;
                           keyVaultClients := clients;
                           log := log st ++ new |} /\
      keyVaultClients st ⊆ clients /\
      Trace.fetches new = Trace.request <$> (Trace.issued tasks).*2 /\
      Trace.limiters new = [] /\
      forallb Trace.is_vault_event new = true.
Proof.
  induction tasks as [|[key info] rest IH]; intros secrets st Hok.
  - exists [], (keyVaultClients st). rewrite app_nil_r.
    destruct st as [env clients events]. simpl.
    split; [reflexivity|]. split; [exact Hok|]. repeat split; reflexivity.
  - destruct (getSecret_run key info secrets st Hok)
      as (new & clients & Hrun & Hok' & Hsub & Hfetch & Hlim & Hvault).
    cbn [Promise_all Trace.outcome Trace.issued].
    unfold mbind, M_bind, bind. rewrite Hrun.
    destruct (Trace.answer info) as [response_value|reason].
    + destruct (IH (<[key := response_value]> secrets) _ Hok')
        as (new' & clients' & Hrun' & Hok'' & Hsub' & Hfetch' & Hlim' & Hvault').
      cbn [process_env keyVaultClients log] in *.
      exists (new ++ new')%list, clients'. rewrite app_assoc.
      split; [exact Hrun'|]. split; [exact Hok''|].
      split; [etransitivity; eassumption|].
      rewrite fetches_app, limiters_app, forallb_app, Hfetch, Hfetch', Hlim,
        Hlim', Hvault, Hvault'. repeat split; reflexivity.
    + exists new, clients.
      split; [reflexivity|]. split; [exact Hok'|]. split; [exact Hsub|].
      split; [exact Hfetch|]. split; assumption.
Qed.

Lemma getSecretsFromKeyVault_run this (vars : KeyVaultReferences) st :
  Trace.registry_ok st ->
  exists new clients,
    getSecretsFromKeyVault this vars st =
      (Trace.outcome (map_to_list vars) ∅,
       {| process_env := process_env st;
          keyVaultClients := clients;
          log := log st ++ NewBottleneck (keyVaultRateLimitMinTime this) :: new |})
    /\
    Trace.registry_ok {| process_env := process_env st;
                         keyVaultClients := clients;
                         log := log st ++ NewBottleneck (keyVaultRateLimitMinTime this) :: new |}
    /\
    keyVaultClients st ⊆ clients /\
    Trace.fetches new = Trace.request <$> (Trace.issued (map_to_list vars)).*2 /\
    Trace.limiters new = [] /\
    forallb Trace.is_vault_event new = true.
Proof.
  intros Hok. unfold getSecretsFromKeyVault, mbind, M_bind, bind, emit.
  destruct (Promise_all_run
              {| minTime := keyVaultRateLimitMinTime this |}
              (map_to_list vars) ∅ _
              (registry_ok_log st (NewBottleneck (keyVaultRateLimitMinTime this))
                 eq_refl Hok))
    as (new & clients & Hrun & Hok' & Hsub & Hrest).
  cbn [process_env keyVaultClients log minTime] in *.
  exists new, clients. rewrite <- app_assoc in Hrun, Hok'. simpl in Hrun, Hok'.
  split; [exact Hrun|]. split; [exact Hok'|]. split; [exact Hsub | exact Hrest].
Qed.

End SecretPhase.

(** ** What the secret phase comes to *)

Section Outcome.

Context `{W : Collaborators}.

Lemma outcome_Ok tasks :
  forall acc secrets,
    Trace.outcome tasks acc = Ok secrets ->
    NoDup tasks.*1 ->
    (forall k info, (k, info) ∈ tasks ->
       exists v, Trace.answer info = Resolved v /\ secrets !! k = Some v) /\
    (forall k, k ∉ tasks.*1 -> secrets !! k = acc !! k) /\
    Trace.issued tasks = tasks.
Proof.
  induction tasks as [|[key info] rest IH]; intros acc secrets Hrun Hnodup.
  - injection Hrun as <-. split; [|split; [auto | reflexivity]].
    intros k info Hin. apply elem_of_nil in Hin. contradiction.
  - cbn [Trace.outcome Trace.issued] in *.
    rewrite fmap_cons in Hnodup. apply NoDup_cons in Hnodup as [Hfresh Hnodup].
    destruct (Trace.answer info) as [v|reason] eqn:Hanswer; [|discriminate].
    destruct (IH _ _ Hrun Hnodup) as (Hin & Hout & Hissued).
    split; [|split].
    + intros k info' Hk. apply elem_of_cons in Hk as [[= -> ->] | Hk].
      * exists v. split; [exact Hanswer|].
        rewrite (Hout key Hfresh). apply lookup_insert_eq.
      * apply Hin, Hk.
    + intros k Hk. rewrite fmap_cons, not_elem_of_cons in Hk.
      destruct Hk as [Hne Hk]. rewrite (Hout k Hk).
      apply lookup_insert_ne. simpl in Hne. congruence.
    + rewrite Hissued. reflexivity.
Qed.

Lemma outcome_Throw tasks :
  forall acc reason,
    Trace.outcome tasks acc = Throw reason ->
    exists k info, (k, info) ∈ tasks /\ Trace.answer info = Rejected reason.
Proof.
  induction tasks as [|[key info] rest IH]; intros acc reason Hrun.
  - discriminate.
  - cbn [Trace.outcome] in Hrun.
    destruct (Trace.answer info) as [v|reason'] eqn:Hanswer.
    + destruct (IH _ _ Hrun) as (k & info' & Hin & Hrejected).
      exists k, info'. split; [apply elem_of_cons; auto | exact Hrejected].
    + injection Hrun as ->. exists key, info.
      split; [apply elem_of_cons; auto | exact Hanswer].
Qed.

Lemma outcome_cases tasks acc :
  (exists secrets, Trace.outcome tasks acc = Ok secrets) \/
  (exists reason, Trace.outcome tasks acc = Throw reason).
Proof. destruct (Trace.outcome tasks acc); eauto. Qed.

Lemma issued_sublist tasks : Trace.issued tasks `sublist_of` tasks.
Proof.
  induction tasks as [|[key info] rest IH]; [reflexivity|].
  cbn [Trace.issued]. destruct (Trace.answer info).
  - apply sublist_skip, IH.
  - apply sublist_skip, sublist_nil_l.
Qed.

End Outcome.

Section SecretResolver.

Context `{W : Collaborators}.

Lemma map_to_list_tasks (vars : KeyVaultReferences) k info :
  (k, info) ∈ map_to_list vars <-> vars !! k = Some info.
Proof. apply elem_of_map_to_list. Qed.

Lemma getSecretsFromKeyVault_outcome this (vars : KeyVaultReferences) st :
  Trace.registry_ok st ->
  fst (getSecretsFromKeyVault this vars st) =
  Trace.outcome (map_to_list vars) ∅.
Proof.
  intros Hok.
  destruct (getSecretsFromKeyVault_run this vars st Hok)
    as (new & clients & -> & _). reflexivity.
Qed.

Lemma outcome_secrets (vars : KeyVaultReferences) secrets :
  Trace.outcome (map_to_list vars) ∅ = Ok secrets ->
  dom secrets = dom vars /\
  (forall k info, vars !! k = Some info ->
     exists v, Trace.answer info = Resolved v /\ secrets !! k = Some v).
Proof.
  intros Hout.
  destruct (outcome_Ok _ _ _ Hout (NoDup_fst_map_to_list vars))
    as (Hin & Hnot & _).
  assert (Hvalues : forall k info, vars !! k = Some info ->
            exists v, Trace.answer info = Resolved v /\ secrets !! k = Some v).
  { intros k info Hk. apply Hin, map_to_list_tasks, Hk. }
  split; [|exact Hvalues].
  apply set_eq. intros k. rewrite !elem_of_dom. split.
  - intros Hk. destruct (vars !! k) as [info|] eqn:Hvars; [eauto|].
    rewrite Hnot, lookup_empty in Hk; [destruct Hk; discriminate|].
    intros Hin'. apply list_elem_of_fmap in Hin' as ([k' info] & -> & Hin').
    apply map_to_list_tasks in Hin'. simpl in Hvars. congruence.
  - intros [info Hk]. destruct (Hvalues k info Hk) as (v & _ & Hv). eauto.
Qed.

Lemma outcome_rejected (vars : KeyVaultReferences) reason :
  Trace.outcome (map_to_list vars) ∅ = Throw reason ->
  exists k info, vars !! k = Some info /\ Trace.answer info = Rejected reason.
Proof.
  intros Hout.
  destruct (outcome_Throw _ _ _ Hout) as (k & info & Hin & Hrejected).
  exists k, info. split; [apply map_to_list_tasks, Hin | exact Hrejected].
Qed.

Lemma outcome_resolves (vars : KeyVaultReferences) :
  (forall k info, vars !! k = Some info ->
     exists v, Trace.answer info = Resolved v) ->
  exists secrets, Trace.outcome (map_to_list vars) ∅ = Ok secrets.
Proof.
  intros Hall.
  destruct (outcome_cases (map_to_list vars) ∅) as [Hret | [reason Hout]];
    [exact Hret|].
  destruct (outcome_rejected vars reason Hout) as (k & info & Hk & Hrejected).
  destruct (Hall k info Hk) as (v & Hv). congruence.
Qed.

(** X1. [getKeyVaultClient] memoises per origin: the call returns a client,
    a second call for the same origin returns that client and changes
    nothing, the clients of the other origins stay as they were, and when
    the registry already had a client for the origin the first call changes
    nothing either. *)
Theorem getKeyVaultClient_reuse vaultURL st :
  exists client st1,
    getKeyVaultClient vaultURL st = (Ok client, st1) /\
    getKeyVaultClient vaultURL st1 = (Ok client, st1) /\
    (forall other, other <> vaultURL ->
       keyVaultClients st1 !! other = keyVaultClients st !! other) /\
    (is_Some (keyVaultClients st !! vaultURL) -> st1 = st) /\
    (keyVaultClients st !! vaultURL = None ->
     log st1 = (log st ++ [NewSecretClient vaultURL])%list).
Proof.
  unfold getKeyVaultClient.
  destruct (keyVaultClients st !! vaultURL) as [client|] eqn:Hreg.
  - exists client, st. rewrite Hreg. repeat split; auto. discriminate.
  - eexists _, _. split; [reflexivity|]. cbn [keyVaultClients log].
    rewrite lookup_insert_eq. split; [reflexivity|].
    split; [|split; [intros [c Hc]; discriminate | reflexivity]].
    intros other Hother. apply lookup_insert_ne. congruence.
Qed.

(** X3. When the secret phase returns, from a state whose registry is in
    order, the object it returns has exactly the keys of the references,
    and under each key the value the vault resolved for the fetch that
    reference asks for. *)
Theorem getSecretsFromKeyVault_resolved this (vars : KeyVaultReferences)
    st secrets st' :
  Trace.registry_ok st ->
  getSecretsFromKeyVault this vars st = (Ok secrets, st') ->
  dom secrets = dom vars /\
  (forall k info, vars !! k = Some info ->
     exists v, Trace.answer info = Resolved v /\ secrets !! k = Some v).
Proof.
  intros Hok Hrun. apply outcome_secrets.
  rewrite <- (getSecretsFromKeyVault_outcome this vars st Hok), Hrun.
  reflexivity.
Qed.

(** X4. From a state whose registry is in order, the secret phase returns
    exactly when the vault resolves the fetch of every reference; when it
    throws, what it throws is the reason with which the vault rejected the
    fetch of one of the references. *)
Theorem getSecretsFromKeyVault_succeeds_iff this (vars : KeyVaultReferences)
    st :
  Trace.registry_ok st ->
  ((exists secrets, fst (getSecretsFromKeyVault this vars st) = Ok secrets) <->
   (forall k info, vars !! k = Some info ->
      exists v, Trace.answer info = Resolved v)) /\
  (forall reason,
     fst (getSecretsFromKeyVault this vars st) = Throw reason ->
     exists k info, vars !! k = Some info /\
                    Trace.answer info = Rejected reason).
Proof.
  intros Hok. rewrite (getSecretsFromKeyVault_outcome this vars st Hok).
  split; [|apply outcome_rejected]. split; [|apply outcome_resolves].
  intros [secrets Hout] k info Hk.
  destruct (proj2 (outcome_secrets vars secrets Hout) k info Hk) as (v & Hv & _).
  eauto.
Qed.

(** X5. From a state whose registry is in order, one run of the secret
    phase only appends to the log, never touches [process.env], builds one
    limiter, with the interval of the instance, and issues at most one
    fetch per reference, each the fetch a reference asks for; when the phase
    returns it has issued the fetch of every reference, once. The fetches
    are compared as multisets, since the order in which the references are
    visited is the order of the object's entries. *)
Theorem getSecretsFromKeyVault_fetches this (vars : KeyVaultReferences) st :
  Trace.registry_ok st ->
  exists new,
    log (snd (getSecretsFromKeyVault this vars st)) = (log st ++ new)%list /\
    process_env (snd (getSecretsFromKeyVault this vars st)) = process_env st /\
    Trace.limiters new = [keyVaultRateLimitMinTime this] /\
    Trace.fetches new ⊆+ Trace.request <$> (map_to_list vars).*2 /\
    (forall secrets,
       fst (getSecretsFromKeyVault this vars st) = Ok secrets ->
       Trace.fetches new ≡ₚ Trace.request <$> (map_to_list vars).*2).
Proof.
  intros Hok.
  destruct (getSecretsFromKeyVault_run this vars st Hok)
    as (new & clients & Hrun & _ & _ & Hfetch & Hlim & _).
  rewrite Hrun. cbn [fst snd log process_env].
  exists (NewBottleneck (keyVaultRateLimitMinTime this) :: new).
  split; [reflexivity|]. split; [reflexivity|].
  split; [simpl; rewrite Hlim; reflexivity|].
  change (Trace.fetches (NewBottleneck (keyVaultRateLimitMinTime this) :: new))
    with (Trace.fetches new).
  rewrite Hfetch. split.
  - apply sublist_submseteq, fmap_sublist, fmap_sublist, issued_sublist.
  - intros secrets Hout.
    destruct (outcome_Ok _ _ _ Hout (NoDup_fst_map_to_list vars))
      as (_ & _ & ->). reflexivity.
Qed.

End SecretResolver.

(** ** The entries the fetcher keeps *)

Lemma yielded_yields {A : Type} (items : list A) (rest : AsyncIterable A) :
  yielded (yields items rest) = (items ++ yielded rest)%list.
Proof.
  induction items as [|item items IH]; [reflexivity|].
  cbn [yields foldr yielded app]. f_equal. exact IH.
Qed.

(** A run that yields [pre] and then [post] is [pre] followed by a run
    that yields [post]. *)
Lemma yielded_app {A : Type} (pre post : list A) :
  forall run : AsyncIterable A,
    yielded run = (pre ++ post)%list ->
    exists rest, run = yields pre rest /\ yielded rest = post.
Proof.
  induction pre as [|item pre IH]; intros run Hrun.
  - exists run. split; [reflexivity | exact Hrun].
  - destruct run as [|item' run|reason]; try discriminate.
    cbn [yielded app] in Hrun. injection Hrun as -> Hrun.
    destruct (IH run Hrun) as (rest & -> & Hrest).
    exists rest. split; [reflexivity | exact Hrest].
Qed.

Section Entries.

Context `{W : Collaborators}.

Lemma getAppConfigurations_loop_yields pre rest :
  forall vars refs,
    getAppConfigurations_loop (yields pre rest) vars refs =
      match getAppConfigurations_loop (yields pre Done) vars refs with
      | Ok cfg =>
          getAppConfigurations_loop rest (appConfigVars cfg)
            (keyVaultReferences cfg)
      | Throw err => Throw err
      end.
Proof.
  induction pre as [|c pre IH]; intros vars refs; [reflexivity|].
  cbn [yields foldr getAppConfigurations_loop].
  destruct (isKeyVaultReference c); [|apply IH].
  destruct (getKeyVaultReferenceInfo c); [apply IH | reflexivity].
Qed.

(** The loop returns exactly when each reference the run yields decodes and
    the run gets to its end. *)
Lemma getAppConfigurations_loop_returns run :
  forall vars refs,
    (exists cfg, getAppConfigurations_loop run vars refs = Ok cfg) <->
    Forall (fun c => isKeyVaultReference c = true ->
                     is_Some (decodeKeyVaultReference (value c)))
           (yielded run) /\
    rejection run = None.
Proof.
  induction run as [|c rest IH|reason]; intros vars refs.
  - split; [split; [constructor | reflexivity] | simpl; eauto].
  - cbn [getAppConfigurations_loop yielded rejection]. rewrite Forall_cons.
    unfold getKeyVaultReferenceInfo.
    destruct (isKeyVaultReference c).
    + destruct (decodeKeyVaultReference (value c)) as [info|].
      * rewrite IH. split; [intros [? ?]; split; [split|]; eauto | tauto].
      * split; [intros [cfg Hcfg]; discriminate|].
        intros [[Hc _] _]. destruct (Hc eq_refl). discriminate.
    + rewrite IH.
      split; [intros [? ?]; split; [split|]; [discriminate| |]; assumption
             | tauto].
  - split; [intros [cfg Hcfg]; discriminate | intros [_ Hnone]; discriminate].
Qed.

(** The loop throws at the first reference that does not decode, or, when
    every reference the run yields decodes, with the rejection that cuts the
    run. *)
Lemma getAppConfigurations_loop_throw run :
  forall vars refs err,
    getAppConfigurations_loop run vars refs = Throw err <->
    (exists pre c post,
       yielded run = (pre ++ c :: post)%list /\
       Forall (fun c' => isKeyVaultReference c' = true ->
                         is_Some (decodeKeyVaultReference (value c'))) pre /\
       isKeyVaultReference c = true /\
       decodeKeyVaultReference (value c) = None /\
       err = InvalidKeyVaultUrlError (key c)) \/
    (Forall (fun c' => isKeyVaultReference c' = true ->
                       is_Some (decodeKeyVaultReference (value c')))
            (yielded run) /\
     rejection run = Some err).
Proof.
  intros vars refs err. split.
  - revert vars refs.
    induction run as [|c rest IH|reason]; intros vars refs Hrun.
    + discriminate.
    + cbn [getAppConfigurations_loop yielded rejection] in *.
      unfold getKeyVaultReferenceInfo in Hrun.
      assert (Hnext : forall vars' refs',
                getAppConfigurations_loop rest vars' refs' = Throw err ->
                (isKeyVaultReference c = true ->
                 is_Some (decodeKeyVaultReference (value c))) ->
                (exists pre c0 post,
                   c :: yielded rest = (pre ++ c0 :: post)%list /\
                   Forall (fun c' => isKeyVaultReference c' = true ->
                             is_Some (decodeKeyVaultReference (value c'))) pre /\
                   isKeyVaultReference c0 = true /\
                   decodeKeyVaultReference (value c0) = None /\
                   err = InvalidKeyVaultUrlError (key c0)) \/
                (Forall (fun c' => isKeyVaultReference c' = true ->
                           is_Some (decodeKeyVaultReference (value c')))
                        (c :: yielded rest) /\
                 rejection rest = Some err)).
      { intros vars' refs' Hrest Hc.
        destruct (IH _ _ Hrest)
          as [(pre & c' & post & -> & Hpre & Hmore) | [Hall Hcut]].
        - left. exists (c :: pre), c', post. split; [reflexivity|].
          split; [|exact Hmore]. constructor; assumption.
        - right. split; [constructor; assumption | exact Hcut]. }
      destruct (isKeyVaultReference c) eqn:Hclass.
      * destruct (decodeKeyVaultReference (value c)) as [info|] eqn:Hdecode.
        -- apply (Hnext _ _ Hrun). intros _. eauto.
        -- injection Hrun as <-. left. exists [], c, (yielded rest).
           repeat split; auto.
      * apply (Hnext _ _ Hrun). discriminate.
    + injection Hrun as ->. right. split; [constructor | reflexivity].
  - intros [(pre & c & post & Hyielded & Hpre & Hclass & Hdecode & ->)
           | [Hall Hcut]].
    + destruct (yielded_app pre (c :: post) run Hyielded)
        as (rest & -> & Hrest).
      destruct rest as [|c' rest|reason]; try discriminate.
      cbn [yielded] in Hrest. injection Hrest as -> _.
      rewrite getAppConfigurations_loop_yields.
      destruct (proj2 (getAppConfigurations_loop_returns (yields pre Done)
                         vars refs)) as [cfg ->].
      { rewrite yielded_yields, app_nil_r. split; [exact Hpre|].
        clear. induction pre; [reflexivity | assumption]. }
      cbn [getAppConfigurations_loop]. rewrite Hclass.
      unfold getKeyVaultReferenceInfo. rewrite Hdecode. reflexivity.
    + destruct (getAppConfigurations_loop run vars refs) as [cfg|err'] eqn:Hrun.
      * apply getAppConfigurations_loop_complete in Hrun. congruence.
      * revert vars refs Hrun.
        induction run as [|c rest IH|reason]; intros vars refs Hrun.
        -- discriminate.
        -- cbn [getAppConfigurations_loop yielded rejection] in *.
           apply Forall_cons in Hall as [Hc Hall].
           unfold getKeyVaultReferenceInfo in Hrun.
           destruct (isKeyVaultReference c).
           ++ destruct (Hc eq_refl) as [info Hinfo]. rewrite Hinfo in Hrun.
              eapply IH; eassumption.
           ++ eapply IH; eassumption.
        -- cbn [rejection getAppConfigurations_loop] in *. congruence.
Qed.

(** A key keeps the plain value, or the reference, it had when no entry of
    that classification brings it. *)
Lemma getAppConfigurations_loop_untouched run :
  forall vars refs cfg,
    getAppConfigurations_loop run vars refs = Ok cfg ->
    forall k,
      ((forall c, c ∈ yielded run -> key c = k ->
                  isKeyVaultReference c = true) ->
       appConfigVars cfg !! k = vars !! k) /\
      ((forall c, c ∈ yielded run -> key c = k ->
                  isKeyVaultReference c = false) ->
       keyVaultReferences cfg !! k = refs !! k).
Proof.
  induction run as [|c rest IH|reason]; intros vars refs cfg Hrun k;
    [| |discriminate].
  - injection Hrun as <-. split; reflexivity.
  - cbn [getAppConfigurations_loop yielded] in *.
    destruct (isKeyVaultReference c) eqn:Hclass.
    + destruct (getKeyVaultReferenceInfo c) as [info|]; [|discriminate].
      destruct (IH _ _ _ Hrun k) as [Hvars Hrefs]. split.
      * intros Hall. apply Hvars. intros c' Hc'. apply Hall, elem_of_cons; auto.
      * intros Hall. rewrite Hrefs.
        -- apply lookup_assign_ne. intros Hkey.
           specialize (Hall c (proj2 (elem_of_cons _ _ _) (or_introl eq_refl))
                         Hkey). congruence.
        -- intros c' Hc'. apply Hall, elem_of_cons; auto.
    + destruct (IH _ _ _ Hrun k) as [Hvars Hrefs]. split.
      * intros Hall. rewrite Hvars.
        -- apply lookup_assign_ne. intros Hkey.
           specialize (Hall c (proj2 (elem_of_cons _ _ _) (or_introl eq_refl))
                         Hkey). congruence.
        -- intros c' Hc'. apply Hall, elem_of_cons; auto.
      * intros Hall. apply Hrefs. intros c' Hc'. apply Hall, elem_of_cons; auto.
Qed.

(** No entry brings the property [__proto__]. *)
Lemma getAppConfigurations_loop_proto run :
  forall vars refs cfg,
    getAppConfigurations_loop run vars refs = Ok cfg ->
    appConfigVars cfg !! "__proto__" = vars !! "__proto__" /\
    keyVaultReferences cfg !! "__proto__" = refs !! "__proto__".
Proof.
  induction run as [|c rest IH|reason]; intros vars refs cfg Hrun;
    [| |discriminate].
  - injection Hrun as <-. split; reflexivity.
  - cbn [getAppConfigurations_loop] in Hrun.
    destruct (isKeyVaultReference c).
    + destruct (getKeyVaultReferenceInfo c) as [info|]; [|discriminate].
      destruct (IH _ _ _ Hrun) as [-> ->].
      split; [reflexivity | apply lookup_assign_proto].
    + destruct (IH _ _ _ Hrun) as [-> ->].
      split; [apply lookup_assign_proto | reflexivity].
Qed.

Lemma getAppConfigurations_state client st :
  getAppConfigurations client st =
    (getAppConfigurations_loop
       (listConfigurationSettings (client_connectionString client)) ∅ ∅,
     {| process_env := process_env st;
        keyVaultClients := keyVaultClients st;
        log := log st ++
               [ListConfigurationSettings (client_connectionString client)] |}).
Proof. reflexivity. Qed.

(** X6. The fetcher throws in two cases only. When some entry the store
    yields is classified as a reference and fails to decode, it throws
    [InvalidKeyVaultUrlError] with the key of the first such entry in the
    order of enumeration, the references before it all decode. When every
    reference the store yields decodes and a rejection cuts the run, it
    throws that rejection as it is. *)
Theorem getAppConfigurations_first_failure client st err :
  let run := listConfigurationSettings (client_connectionString client) in
  fst (getAppConfigurations client st) = Throw err <->
  (exists pre c post,
     yielded run = (pre ++ c :: post)%list /\
     Forall (fun c' => isKeyVaultReference c' = true ->
                       is_Some (decodeKeyVaultReference (value c'))) pre /\
     isKeyVaultReference c = true /\
     decodeKeyVaultReference (value c) = None /\
     err = InvalidKeyVaultUrlError (key c)) \/
  (Forall (fun c' => isKeyVaultReference c' = true ->
                     is_Some (decodeKeyVaultReference (value c')))
          (yielded run) /\
   rejection run = Some err).
Proof.
  intros run. rewrite getAppConfigurations_state. cbn [fst].
  apply getAppConfigurations_loop_throw.
Qed.

(** X7. When the fetcher returns, an enumerated entry whose key is not
    [__proto__] and that no later entry of the same key and classification
    follows is kept as it is: a plain entry's value under its key among the
    plain values, the decoded reference of a reference entry under its key
    among the references. Neither object has a property [__proto__]. *)
Theorem getAppConfigurations_last_wins client st cfg st' pre c post :
  getAppConfigurations client st = (Ok cfg, st') ->
  yielded (listConfigurationSettings (client_connectionString client))
  = (pre ++ c :: post)%list ->
  (forall c', c' ∈ post -> key c' = key c ->
              isKeyVaultReference c' <> isKeyVaultReference c) ->
  (key c <> "__proto__" ->
   if isKeyVaultReference c
   then exists info, decodeKeyVaultReference (value c) = Some info /\
                     keyVaultReferences cfg !! key c = Some info
   else appConfigVars cfg !! key c = Some (value c)) /\
  appConfigVars cfg !! "__proto__" = None /\
  keyVaultReferences cfg !! "__proto__" = None.
Proof.
  intros Hrun Hentries Hlast. rewrite getAppConfigurations_state in Hrun.
  injection Hrun as Hrun _. split.
  2:{ destruct (getAppConfigurations_loop_proto _ _ _ _ Hrun) as [-> ->].
      split; apply lookup_empty. }
  intros Hkey.
  destruct (yielded_app pre (c :: post) _ Hentries) as (rest & Heq & Hrest).
  rewrite Heq in Hrun. clear Heq.
  destruct rest as [|c' rest|reason]; try discriminate.
  cbn [yielded] in Hrest. injection Hrest as -> <-.
  rewrite getAppConfigurations_loop_yields in Hrun.
  destruct (getAppConfigurations_loop (yields pre Done) ∅ ∅) as [cfg0|];
    [|discriminate].
  cbn [getAppConfigurations_loop] in Hrun.
  unfold getKeyVaultReferenceInfo in Hrun.
  destruct (isKeyVaultReference c) eqn:Hclass.
  - destruct (decodeKeyVaultReference (value c)) as [info|]; [|discriminate].
    exists info. split; [reflexivity|].
    rewrite (proj2 (getAppConfigurations_loop_untouched _ _ _ _ Hrun (key c))).
    + apply lookup_assign_eq, Hkey.
    + intros c' Hc' Hkey'. specialize (Hlast c' Hc' Hkey').
      destruct (isKeyVaultReference c'); congruence.
  - rewrite (proj1 (getAppConfigurations_loop_untouched _ _ _ _ Hrun (key c))).
    + apply lookup_assign_eq, Hkey.
    + intros c' Hc' Hkey'. specialize (Hlast c' Hc' Hkey').
      destruct (isKeyVaultReference c'); congruence.
Qed.

End Entries.
(** ** The whole of [loadFromAzure] *)

Section Pipeline.

Context `{W : Collaborators}.

(** The steps of [loadFromAzure], and the state each leaves. *)
Lemma loadFromAzure_cases this dotenvVars st :
  loadFromAzure this dotenvVars st =
    match Spec.resolve_connection_string (connectionString this)
            (default ∅ dotenvVars) (process_env st) with
    | None => (Throw MissingAppConfigCredentialsError, st)
    | Some cs =>
        match AppConfigurationClient_invalid cs with
        | Some err =>
            (Throw err,
             {| process_env := process_env st;
                keyVaultClients := keyVaultClients st;
                log := log st ++ [NewAppConfigurationClient cs] |})
        | None =>
            let st1 :=
              {| process_env := process_env st;
                 keyVaultClients := keyVaultClients st;
                 log := log st ++ [NewAppConfigurationClient cs;
                                   ListConfigurationSettings cs] |} in
            match getAppConfigurations_loop (listConfigurationSettings cs) ∅ ∅
            with
            | Throw err => (Throw err, st1)
            | Ok cfg =>
                match getSecretsFromKeyVault this (keyVaultReferences cfg) st1
                with
                | (Ok secrets, st2) =>
                    (Ok (JS.spread (appConfigVars cfg) secrets), st2)
                | (Throw err, st2) =>
                    (Ok (appConfigVars cfg),
                     if instanceof_Error err
                     then {| process_env := process_env st2;
                             keyVaultClients := keyVaultClients st2;
                             log := log st2 ++ [ConsoleWarn warning_prefix err] |}
                     else st2)
                end
            end
        end
    end.
Proof.
  unfold loadFromAzure, mbind, M_bind, bind.
  rewrite getAzureCredentials_run.
  destruct (Spec.resolve_connection_string _ _ _) as [cs|]; [|reflexivity].
  rewrite AppConfigurationClient_new_run.
  cbn [cred_connectionString].
  destruct (AppConfigurationClient_invalid cs) as [err|]; [reflexivity|].
  rewrite getAppConfigurations_state.
  cbn [process_env keyVaultClients log client_connectionString].
  rewrite <- app_assoc. cbn [app].
  destruct (getAppConfigurations_loop _ ∅ ∅) as [cfg|err]; [|reflexivity].
  unfold try_catch.
  destruct (getSecretsFromKeyVault this (keyVaultReferences cfg) _)
    as [[secrets|err] st2]; [reflexivity|].
  destruct (instanceof_Error err); simpl; unfold mret, M_ret, ret;
    rewrite spread_empty_r; reflexivity.
Qed.

Lemma getSecret_frame key info secrets st :
  exists new clients,
    snd (getSecret key info secrets st) =
      {| process_env := process_env st;
         keyVaultClients := clients;
         log := log st ++ new |}.
Proof.
  unfold getSecret, mbind, M_bind, bind, getKeyVaultClient.
  destruct (keyVaultClients st !! JS.href (vaultUrl info)) as [client|];
    unfold SecretClient_getSecret, mbind, M_bind, bind, emit;
    cbn [process_env keyVaultClients log];
    destruct (vault_getSecret _ _ _); eexists _, _;
    try rewrite <- app_assoc; reflexivity.
Qed.

Lemma Promise_all_frame limiter tasks :
  forall secrets st,
    exists new clients,
      snd (Promise_all limiter tasks secrets st) =
        {| process_env := process_env st;
           keyVaultClients := clients;
           log := log st ++ new |}.
Proof.
  induction tasks as [|[key info] rest IH]; intros secrets st.
  - exists [], (keyVaultClients st). rewrite app_nil_r. destruct st.
    reflexivity.
  - cbn [Promise_all]. unfold mbind, M_bind, bind.
    destruct (getSecret_frame key info secrets st) as (new & clients & Hst).
    destruct (getSecret key info secrets st) as [[secrets'|err] st1].
    + cbn [snd] in Hst. subst st1.
      destruct (IH secrets' {| process_env := process_env st;
                               keyVaultClients := clients;
                               log := log st ++ new |})
        as (new' & clients' & ->).
      cbn [process_env log]. exists (new ++ new')%list, clients'.
      rewrite app_assoc. reflexivity.
    + exists new, clients. exact Hst.
Qed.

Lemma getSecretsFromKeyVault_frame this (vars : KeyVaultReferences) st :
  exists new clients,
    snd (getSecretsFromKeyVault this vars st) =
      {| process_env := process_env st;
         keyVaultClients := clients;
         log := log st ++ new |}.
Proof.
  unfold getSecretsFromKeyVault, mbind, M_bind, bind, emit.
  destruct (Promise_all_frame {| minTime := keyVaultRateLimitMinTime this |}
              (map_to_list vars) ∅
              {| process_env := process_env st;
                 keyVaultClients := keyVaultClients st;
                 log := log st ++ [NewBottleneck (keyVaultRateLimitMinTime this)] |})
    as (new & clients & Hst).
  cbn [process_env log minTime] in *.
  exists (NewBottleneck (keyVaultRateLimitMinTime this) :: new), clients.
  rewrite Hst, <- app_assoc. reflexivity.
Qed.

Lemma loadFromAzure_frame this dotenvVars st :
  exists new clients,
    snd (loadFromAzure this dotenvVars st) =
      {| process_env := process_env st;
         keyVaultClients := clients;
         log := log st ++ new |}.
Proof.
  rewrite loadFromAzure_cases.
  destruct (Spec.resolve_connection_string _ _ _) as [cs|].
  2:{ exists [], (keyVaultClients st). rewrite app_nil_r. destruct st.
      reflexivity. }
  destruct (AppConfigurationClient_invalid cs) as [err|].
  { eexists _, _. reflexivity. }
  cbv zeta.
  destruct (getAppConfigurations_loop _ ∅ ∅) as [cfg|err].
  2:{ eexists _, _. reflexivity. }
  match goal with
  | |- context [getSecretsFromKeyVault this ?refs ?s] =>
      destruct (getSecretsFromKeyVault_frame this refs s)
        as (new & clients & Hst);
      destruct (getSecretsFromKeyVault this refs s) as [[secrets|err] st2]
  end; cbn [snd process_env log] in *; subst st2.
  - eexists _, _. rewrite <- app_assoc. reflexivity.
  - destruct (instanceof_Error err); cbn [process_env keyVaultClients log];
      eexists _, _; rewrite <- ?app_assoc; reflexivity.
Qed.

Lemma parse_state this src options st :
  snd (parse this src options st) =
  snd (loadFromAzure this (Some (dotenv_parse src options)) st).
Proof.
  rewrite parse_run. destruct (loadFromAzure _ _ _) as [[?|?] ?]; reflexivity.
Qed.

(** X8. [loadFromAzure] and [parse] do not change [process.env], whatever
    they return or throw, and only append to the log. *)
Theorem process_env_untouched this dotenvVars src options st :
  process_env (snd (loadFromAzure this dotenvVars st)) = process_env st /\
  process_env (snd (parse this src options st)) = process_env st /\
  log st `prefix_of` log (snd (loadFromAzure this dotenvVars st)) /\
  log st `prefix_of` log (snd (parse this src options st)).
Proof.
  rewrite parse_state.
  destruct (loadFromAzure_frame this dotenvVars st) as (new & clients & ->).
  destruct (loadFromAzure_frame this (Some (dotenv_parse src options)) st)
    as (new' & clients' & ->).
  cbn [process_env log]. repeat split; eexists; reflexivity.
Qed.

End Pipeline.

Section Registry.

Context `{W : Collaborators}.

(** The order of the registry only depends on the registry and on the
    clients the log says were built. *)
Lemma registry_ok_frame st env new :
  Trace.clients_created new = [] ->
  Trace.registry_ok st ->
  Trace.registry_ok {| process_env := env;
                       keyVaultClients := keyVaultClients st;
                       log := log st ++ new |}.
Proof.
  intros Hnew Hok. unfold Trace.registry_ok in *. cbn [log keyVaultClients].
  rewrite clients_created_app, Hnew, app_nil_r. exact Hok.
Qed.

Lemma validateFromEnvExample_state options dotenvError st :
  snd (validateFromEnvExample options dotenvError st) = st.
Proof.
  unfold validateFromEnvExample.
  destruct (fs_readFileSync _); [|reflexivity].
  destruct (0 <? _)%nat; reflexivity.
Qed.

(** The state [config] leaves: the one [loadFromAzure] left, with
    [process.env] populated when [loadFromAzure] returned. *)
Lemma config_state this options st :
  let st0 := {| process_env := (dotenv_config options (process_env st)).2;
                keyVaultClients := keyVaultClients st;
                log := log st |} in
  let parsed := dotenv_parsed (dotenv_config options (process_env st)).1 in
  snd (config this options st) =
    match loadFromAzure this parsed st0 with
    | (Ok azureVars, st1) =>
        {| process_env := populateProcessEnv azureVars (process_env st1);
           keyVaultClients := keyVaultClients st1;
           log := log st1 |}
    | (Throw _, st1) => st1
    end.
Proof.
  unfold config, mbind, M_bind, bind, dotenv_config_run,
    populateProcessEnv_run.
  destruct (loadFromAzure this _ _) as [[azureVars|err] st1]; [|reflexivity].
  destruct (default false (safe options)); [|reflexivity].
  match goal with
  | |- context [validateFromEnvExample ?o ?e ?s] =>
      pose proof (validateFromEnvExample_state o e s) as Hst;
      destruct (validateFromEnvExample o e s) as [[[]|err] st2]
  end; cbn [snd] in *; subst st2; reflexivity.
Qed.

Lemma loadFromAzure_registry this dotenvVars st :
  Trace.registry_ok st ->
  Trace.registry_ok (snd (loadFromAzure this dotenvVars st)) /\
  keyVaultClients st ⊆ keyVaultClients (snd (loadFromAzure this dotenvVars st)).
Proof.
  intros Hok. rewrite loadFromAzure_cases.
  destruct (Spec.resolve_connection_string _ _ _) as [cs|]; [|split; auto].
  destruct (AppConfigurationClient_invalid cs) as [err|].
  { split; [|reflexivity].
    apply (registry_ok_frame st (process_env st)
             [NewAppConfigurationClient cs] eq_refl Hok). }
  cbv zeta.
  pose proof (registry_ok_frame st (process_env st)
                [NewAppConfigurationClient cs; ListConfigurationSettings cs]
                eq_refl Hok) as Hok1.
  destruct (getAppConfigurations_loop _ ∅ ∅) as [cfg|err]; [|split; auto].
  destruct (getSecretsFromKeyVault_run this (keyVaultReferences cfg) _ Hok1)
    as (new & clients & Hrun & Hok2 & Hsub & _).
  rewrite Hrun. cbn [process_env keyVaultClients log] in *.
  destruct (Trace.outcome _ _) as [secrets|err]; [split; assumption|].
  destruct (instanceof_Error err); cbn [snd keyVaultClients];
    [|split; assumption].
  split; [|exact Hsub].
  apply (registry_ok_frame _ _ [ConsoleWarn warning_prefix err] eq_refl Hok2).
Qed.

(** X2. The registry stays in order through [loadFromAzure], [parse] and
    [config]: over the calls made on an instance at most one Key Vault
    client is built per origin, each client in the registry is bound to the
    origin it is stored under, and the clients the registry had are kept. *)
Theorem one_client_per_origin this dotenvVars src parse_options options st :
  Trace.registry_ok st ->
  let after_load := snd (loadFromAzure this dotenvVars st) in
  let after_parse := snd (parse this src parse_options st) in
  let after_config := snd (config this options st) in
  (Trace.registry_ok after_load /\
   keyVaultClients st ⊆ keyVaultClients after_load) /\
  (Trace.registry_ok after_parse /\
   keyVaultClients st ⊆ keyVaultClients after_parse) /\
  (Trace.registry_ok after_config /\
   keyVaultClients st ⊆ keyVaultClients after_config).
Proof.
  intros Hok after_load after_parse after_config.
  split; [apply loadFromAzure_registry, Hok|]. split.
  - unfold after_parse. rewrite parse_state.
    apply loadFromAzure_registry, Hok.
  - unfold after_config. rewrite config_state. cbv zeta.
    pose proof (registry_ok_frame st
                  (dotenv_config options (process_env st)).2 [] eq_refl Hok)
      as Hok0.
    rewrite app_nil_r in Hok0.
    pose proof (loadFromAzure_registry this
                  (dotenv_parsed (dotenv_config options (process_env st)).1)
                  _ Hok0) as [Hok1 Hsub].
    destruct (loadFromAzure this
                (dotenv_parsed (dotenv_config options (process_env st)).1) _)
      as [[azureVars|err] st1];
      cbn [snd keyVaultClients] in *; [|split; assumption].
    split; [|exact Hsub].
    pose proof (registry_ok_frame st1
                  (populateProcessEnv azureVars (process_env st1)) []
                  eq_refl Hok1) as Hok2.
    rewrite app_nil_r in Hok2. exact Hok2.
Qed.

End Registry.

Section EndToEnd.

Context `{W : Collaborators}.

Lemma getSecretsFromKeyVault_empty this st :
  getSecretsFromKeyVault this ∅ st =
    (Ok ∅, {| process_env := process_env st;
              keyVaultClients := keyVaultClients st;
              log := log st ++ [NewBottleneck (keyVaultRateLimitMinTime this)] |}).
Proof.
  unfold getSecretsFromKeyVault, mbind, M_bind, bind, emit.
  rewrite map_to_list_empty. reflexivity.
Qed.

(** X9. Once the client of the store is built, one entry the store yields
    that is classified as a reference and does not decode makes
    [loadFromAzure] and [parse] throw [InvalidKeyVaultUrlError] with the
    key of such an entry, whatever the other entries are: the log gains the
    construction of the store's client and the enumeration, and nothing
    else, so no limiter is built and no vault is reached, and [process.env]
    and the registry are as before. *)
Theorem malformed_reference_aborts this src options st cs :
  Spec.resolve_connection_string (connectionString this)
    (dotenv_parse src options) (process_env st) = Some cs ->
  AppConfigurationClient_invalid cs = None ->
  Exists (fun c => isKeyVaultReference c = true /\
                   decodeKeyVaultReference (value c) = None)
         (yielded (listConfigurationSettings cs)) ->
  exists c,
    c ∈ yielded (listConfigurationSettings cs) /\
    isKeyVaultReference c = true /\
    decodeKeyVaultReference (value c) = None /\
    loadFromAzure this (Some (dotenv_parse src options)) st =
      (Throw (InvalidKeyVaultUrlError (key c)),
       {| process_env := process_env st;
          keyVaultClients := keyVaultClients st;
          log := log st ++ [NewAppConfigurationClient cs;
                            ListConfigurationSettings cs] |}) /\
    parse this src options st =
      (Throw (InvalidKeyVaultUrlError (key c)),
       {| process_env := process_env st;
          keyVaultClients := keyVaultClients st;
          log := log st ++ [NewAppConfigurationClient cs;
                            ListConfigurationSettings cs] |}).
Proof.
  intros Hcs Hclient Hbad.
  assert (Hsome : ~ Forall (fun c => isKeyVaultReference c = true ->
                              is_Some (decodeKeyVaultReference (value c)))
                    (yielded (listConfigurationSettings cs))).
  { intros Hall. apply Exists_exists in Hbad as (c & Hc & Hclass & Hdecode).
    rewrite Forall_forall in Hall.
    destruct (Hall c Hc Hclass) as [info Hinfo]. congruence. }
  destruct (getAppConfigurations_loop (listConfigurationSettings cs) ∅ ∅)
    as [cfg|err] eqn:Hloop.
  - exfalso. apply Hsome.
    apply (proj1 (getAppConfigurations_loop_returns _ ∅ ∅)
             (ex_intro _ cfg Hloop)).
  - pose proof Hloop as Hthrow.
    apply getAppConfigurations_loop_throw in Hthrow
      as [(pre & c & post & Hentries & _ & Hclass & Hdecode & ->)
         | [Hall _]]; [|contradiction].
    exists c. split; [rewrite Hentries; apply elem_of_app; right;
                      apply elem_of_cons; auto|].
    split; [exact Hclass|]. split; [exact Hdecode|].
    assert (Hload : loadFromAzure this (Some (dotenv_parse src options)) st =
              (Throw (InvalidKeyVaultUrlError (key c)),
               {| process_env := process_env st;
                  keyVaultClients := keyVaultClients st;
                  log := log st ++ [NewAppConfigurationClient cs;
                                    ListConfigurationSettings cs] |})).
    { rewrite loadFromAzure_cases. simpl (default _ _).
      rewrite Hcs, Hclient. cbv zeta. rewrite Hloop. reflexivity. }
    split; [exact Hload|]. rewrite parse_run, Hload. reflexivity.
Qed.

End EndToEnd.

Section Merged.

Context `{W : Collaborators}.

Lemma getAppConfigurations_loop_plain run cfg :
  getAppConfigurations_loop run ∅ ∅ = Ok cfg ->
  Forall (fun c => isKeyVaultReference c = false) (yielded run) ->
  keyVaultReferences cfg = ∅.
Proof.
  intros Hloop Hplain. apply map_eq. intros k.
  rewrite (proj2 (getAppConfigurations_loop_untouched _ _ _ _ Hloop k)).
  - reflexivity.
  - intros c Hc _. rewrite Forall_forall in Hplain. apply Hplain, Hc.
Qed.

(** X10. When the connection string resolves, the client of the store is
    built, the run of the store gets to its end and no entry it yields is
    classified as a reference, [loadFromAzure] returns: the log gains the
    construction of the store's client, the enumeration and the limiter,
    no vault client is built and no secret is fetched; the object returned
    has the keys of the entries other than [__proto__], and under such a
    key, for an entry that no later entry repeats, the value of that
    entry. *)
Theorem no_references_no_vault this dotenvVars st cs :
  Spec.resolve_connection_string (connectionString this)
    (default ∅ dotenvVars) (process_env st) = Some cs ->
  AppConfigurationClient_invalid cs = None ->
  Forall (fun c => isKeyVaultReference c = false)
         (yielded (listConfigurationSettings cs)) ->
  rejection (listConfigurationSettings cs) = None ->
  exists vars,
    loadFromAzure this dotenvVars st =
      (Ok vars,
       {| process_env := process_env st;
          keyVaultClients := keyVaultClients st;
          log := log st ++ [NewAppConfigurationClient cs;
                            ListConfigurationSettings cs;
                            NewBottleneck (keyVaultRateLimitMinTime this)] |})
    /\
    dom vars = list_to_set (key <$> yielded (listConfigurationSettings cs))
               ∖ {[ "__proto__" ]} /\
    (forall pre c post,
       yielded (listConfigurationSettings cs) = (pre ++ c :: post)%list ->
       key c ∉ key <$> post ->
       key c <> "__proto__" ->
       vars !! key c = Some (value c)).
Proof.
  intros Hcs Hclient Hplain Hend.
  destruct (proj2 (getAppConfigurations_loop_returns
                     (listConfigurationSettings cs) ∅ ∅)) as [cfg Hloop].
  { split; [|exact Hend].
    eapply Forall_impl; [exact Hplain|]. intros c Hc Hclass. congruence. }
  pose proof (getAppConfigurations_loop_plain _ _ Hloop Hplain) as Hrefs.
  exists (appConfigVars cfg). split; [|split].
  - rewrite loadFromAzure_cases, Hcs, Hclient. cbv zeta. rewrite Hloop, Hrefs.
    rewrite getSecretsFromKeyVault_empty, spread_empty_r.
    cbn [process_env keyVaultClients log]. rewrite <- app_assoc. reflexivity.
  - apply set_eq. intros k.
    rewrite (proj1 (getAppConfigurations_loop_keys _ _ _ _ Hloop k)).
    rewrite dom_empty, elem_of_empty, elem_of_difference, elem_of_list_to_set,
      list_elem_of_fmap, elem_of_singleton.
    rewrite Forall_forall in Hplain. split.
    + intros [[] | (Hp & c & Hc & Hkey & _)]. split; [exists c; auto | exact Hp].
    + intros [(c & -> & Hc) Hp]. right. split; [exact Hp|]. exists c. auto.
  - intros pre c post Hentries Hlast Hkey.
    destruct (yielded_app pre (c :: post) _ Hentries) as (rest & Heq & Hrest).
    rewrite Hentries in Hplain. rewrite Heq in Hloop. clear Heq.
    destruct rest as [|c' rest|reason]; try discriminate.
    cbn [yielded] in Hrest. injection Hrest as -> <-.
    rewrite getAppConfigurations_loop_yields in Hloop.
    destruct (getAppConfigurations_loop (yields pre Done) ∅ ∅) as [cfg0|];
      [|discriminate].
    cbn [getAppConfigurations_loop] in Hloop.
    rewrite Forall_app, Forall_cons in Hplain.
    destruct Hplain as (_ & Hc & _). rewrite Hc in Hloop.
    rewrite (proj1 (getAppConfigurations_loop_untouched _ _ _ _ Hloop (key c))).
    + apply lookup_assign_eq, Hkey.
    + intros c' Hc' Hkey'. exfalso. apply Hlast.
      rewrite <- Hkey'. apply list_elem_of_fmap_2, Hc'.
Qed.

(** What [loadFromAzure] and [parse] return once the entries are fetched,
    by the outcome of the secret phase. *)
Lemma loadFromAzure_fetched this dotenvVars st cs cfg :
  Spec.resolve_connection_string (connectionString this)
    (default ∅ dotenvVars) (process_env st) = Some cs ->
  AppConfigurationClient_invalid cs = None ->
  getAppConfigurations_loop (listConfigurationSettings cs) ∅ ∅ = Ok cfg ->
  fst (loadFromAzure this dotenvVars st) =
    Ok (JS.spread (appConfigVars cfg)
          (Sample.returned ∅
             (fst (getSecretsFromKeyVault this (keyVaultReferences cfg)
                     {| process_env := process_env st;
                        keyVaultClients := keyVaultClients st;
                        log := log st ++ [NewAppConfigurationClient cs;
                                          ListConfigurationSettings cs] |})))).
Proof.
  intros Hcs Hclient Hloop.
  rewrite loadFromAzure_cases, Hcs, Hclient. cbv zeta. rewrite Hloop.
  destruct (getSecretsFromKeyVault this _ _) as [[secrets|err] st2];
    cbn [fst Sample.returned]; [reflexivity|].
  rewrite spread_empty_r. reflexivity.
Qed.

Lemma parse_fetched this src options st cs cfg :
  Spec.resolve_connection_string (connectionString this)
    (dotenv_parse src options) (process_env st) = Some cs ->
  AppConfigurationClient_invalid cs = None ->
  getAppConfigurations_loop (listConfigurationSettings cs) ∅ ∅ = Ok cfg ->
  fst (parse this src options st) =
    Ok (JS.spread
          (JS.spread (appConfigVars cfg)
             (Sample.returned ∅
                (fst (getSecretsFromKeyVault this (keyVaultReferences cfg)
                        {| process_env := process_env st;
                           keyVaultClients := keyVaultClients st;
                           log := log st ++ [NewAppConfigurationClient cs;
                                             ListConfigurationSettings cs] |}))))
          (Some <$> dotenv_parse src options)).
Proof.
  intros Hcs Hclient Hloop.
  pose proof (loadFromAzure_fetched this (Some (dotenv_parse src options))
                st cs cfg Hcs Hclient Hloop) as Hload.
  rewrite parse_run.
  destruct (loadFromAzure this (Some (dotenv_parse src options)) st)
    as [[azureVars|err] st']; cbn [fst] in *; [|discriminate].
  injection Hload as ->. reflexivity.
Qed.

(** A key that is not a reference is not a key of what the secret phase
    contributes, whether the phase returns or throws. *)
Lemma secrets_only_references this (vars : KeyVaultReferences) st k :
  Trace.registry_ok st ->
  vars !! k = None ->
  Sample.returned ∅ (fst (getSecretsFromKeyVault this vars st)) !! k = None.
Proof.
  intros Hok Hk. rewrite (getSecretsFromKeyVault_outcome this vars st Hok).
  destruct (Trace.outcome (map_to_list vars) ∅) as [secrets|err] eqn:Hout;
    cbn [Sample.returned]; [|apply lookup_empty].
  apply not_elem_of_dom. rewrite (proj1 (outcome_secrets _ _ Hout)).
  apply not_elem_of_dom, Hk.
Qed.

(** X11. When the connection string resolves, the client of the store is
    built, the entries are fetched and the vault resolves the fetch of every
    reference, [parse] returns, from a state whose registry is in order, the
    object in which a key has its local value when the local file defines
    it, otherwise the value the vault resolved when the key is a reference,
    otherwise its plain value. *)
Theorem parse_resolved this src options st cs cfg :
  Trace.registry_ok st ->
  Spec.resolve_connection_string (connectionString this)
    (dotenv_parse src options) (process_env st) = Some cs ->
  AppConfigurationClient_invalid cs = None ->
  getAppConfigurations_loop (listConfigurationSettings cs) ∅ ∅ = Ok cfg ->
  (forall k info, keyVaultReferences cfg !! k = Some info ->
     exists v, Trace.answer info = Resolved v) ->
  exists merged,
    fst (parse this src options st) = Ok merged /\
    forall k,
      merged !! k =
        match dotenv_parse src options !! k with
        | Some v => Some (Some v)
        | None =>
            match keyVaultReferences cfg !! k with
            | Some info =>
                match Trace.answer info with
                | Resolved v => Some v
                | Rejected _ => None
                end
            | None => appConfigVars cfg !! k
            end
        end.
Proof.
  intros Hok Hcs Hclient Hloop Hall.
  eexists. split; [apply parse_fetched; eassumption|].
  intros k. rewrite !lookup_spread, lookup_fmap.
  destruct (dotenv_parse src options !! k) as [v|]; [reflexivity|].
  cbn [fmap option_fmap option_map].
  pose proof (registry_ok_frame st (process_env st)
                [NewAppConfigurationClient cs; ListConfigurationSettings cs]
                eq_refl Hok) as Hok1.
  rewrite (getSecretsFromKeyVault_outcome this _ _ Hok1).
  destruct (outcome_resolves _ Hall) as [secrets Hsecrets].
  rewrite Hsecrets. cbn [Sample.returned].
  destruct (outcome_secrets _ _ Hsecrets) as [Hdom Hvalues].
  destruct (keyVaultReferences cfg !! k) as [info|] eqn:Hk.
  - destruct (Hvalues k info Hk) as (v & -> & ->). reflexivity.
  - assert (Hnone : secrets !! k = None).
    { apply not_elem_of_dom. rewrite Hdom. apply not_elem_of_dom, Hk. }
    rewrite Hnone. reflexivity.
Qed.

(** X12. Once the client of the store is built and the entries are
    fetched, a plain value that the local file does not redefine and whose
    key is not also a reference reaches the object [parse] returns
    unchanged, whether the vault resolves the references or rejects them. *)
Theorem plain_value_passes_through this src options st cs cfg k :
  Trace.registry_ok st ->
  Spec.resolve_connection_string (connectionString this)
    (dotenv_parse src options) (process_env st) = Some cs ->
  AppConfigurationClient_invalid cs = None ->
  getAppConfigurations_loop (listConfigurationSettings cs) ∅ ∅ = Ok cfg ->
  keyVaultReferences cfg !! k = None ->
  dotenv_parse src options !! k = None ->
  exists merged,
    fst (parse this src options st) = Ok merged /\
    merged !! k = appConfigVars cfg !! k.
Proof.
  intros Hok Hcs Hclient Hloop Hk Hlocal.
  eexists. split; [apply parse_fetched; eassumption|].
  rewrite !lookup_spread, lookup_fmap, Hlocal. cbn [fmap option_fmap option_map].
  rewrite secrets_only_references; [reflexivity | | exact Hk].
  apply (registry_ok_frame st (process_env st)
           [NewAppConfigurationClient cs; ListConfigurationSettings cs]
           eq_refl Hok).
Qed.

(** X13. Against a vault that rejects every fetch, once the connection
    string resolves, the client of the store is built and the entries are
    fetched, [loadFromAzure] returns exactly the plain values, whether there
    are references or not. *)
Theorem vault_down_plain_values this dotenvVars st cs cfg :
  Trace.registry_ok st ->
  (forall vaultURL name version,
     exists reason, vault_getSecret vaultURL name version = Rejected reason) ->
  Spec.resolve_connection_string (connectionString this)
    (default ∅ dotenvVars) (process_env st) = Some cs ->
  AppConfigurationClient_invalid cs = None ->
  getAppConfigurations_loop (listConfigurationSettings cs) ∅ ∅ = Ok cfg ->
  fst (loadFromAzure this dotenvVars st) = Ok (appConfigVars cfg).
Proof.
  intros Hok Hdown Hcs Hclient Hloop.
  rewrite (loadFromAzure_fetched this dotenvVars st cs cfg Hcs Hclient Hloop).
  f_equal. apply map_eq. intros k. rewrite lookup_spread.
  pose proof (registry_ok_frame st (process_env st)
                [NewAppConfigurationClient cs; ListConfigurationSettings cs]
                eq_refl Hok) as Hok1.
  rewrite (getSecretsFromKeyVault_outcome this _ _ Hok1).
  destruct (Trace.outcome _ ∅) as [secrets|err] eqn:Hout;
    cbn [Sample.returned]; [|rewrite lookup_empty; reflexivity].
  destruct (outcome_secrets _ _ Hout) as [Hdom Hvalues].
  destruct (keyVaultReferences cfg !! k) as [info|] eqn:Hk.
  - destruct (Hvalues k info Hk) as (v & Hv & _). unfold Trace.answer in Hv.
    destruct (Hdown (JS.href (vaultUrl info)) (secretName info)
                (secretVersion info)) as [reason Hreason]. congruence.
  - assert (Hnone : secrets !! k = None).
    { apply not_elem_of_dom. rewrite Hdom. apply not_elem_of_dom, Hk. }
    rewrite Hnone. reflexivity.
Qed.

End Merged.

(** ** [config] and [process.env] *)

Section Config.

Context `{W : Collaborators}.

(** X14. [config] populates [process.env] with the values [loadFromAzure]
    returned, not with the merged ones, on top of what [dotenv.config] left,
    and only when [loadFromAzure] returned: when it throws, [config] throws
    the same error and [process.env] is as [dotenv.config] left it. What
    [config] returns has those values as [azure], the result of
    [dotenv.config] as [dotenv], and the former overwritten by the local
    values as [parsed]; without [safe] it returns whenever [loadFromAzure]
    does. *)
Theorem config_populates_remote_values this options st :
  let result := (dotenv_config options (process_env st)).1 in
  let env0 := (dotenv_config options (process_env st)).2 in
  let st0 := {| process_env := env0;
                keyVaultClients := keyVaultClients st;
                log := log st |} in
  (forall err,
     fst (loadFromAzure this (dotenv_parsed result) st0) = Throw err ->
     fst (config this options st) = Throw err /\
     process_env (snd (config this options st)) = env0) /\
  (forall azureVars,
     fst (loadFromAzure this (dotenv_parsed result) st0) = Ok azureVars ->
     process_env (snd (config this options st)) =
       populateProcessEnv azureVars env0 /\
     (forall out, fst (config this options st) = Ok out ->
        out = {| parsed := JS.spread azureVars
                             (Some <$> default ∅ (dotenv_parsed result));
                 dotenv := result;
                 azure := azureVars |}) /\
     (default false (safe options) = false ->
      exists out, fst (config this options st) = Ok out)).
Proof.
  intros result env0 st0.
  pose proof (config_state this options st) as Hstate. cbv zeta in Hstate.
  fold result env0 st0 in Hstate.
  destruct (loadFromAzure_frame this (dotenv_parsed result) st0)
    as (new & clients & Hframe).
  split.
  - intros err Hload. rewrite Hstate.
    unfold config, mbind, M_bind, bind, dotenv_config_run.
    fold result env0 st0.
    destruct (loadFromAzure this (dotenv_parsed result) st0)
      as [[azureVars|err'] st1]; cbn [fst snd] in *; [discriminate|].
    injection Hload as ->. split; [reflexivity|]. rewrite Hframe. reflexivity.
  - intros azureVars Hload. rewrite Hstate.
    unfold config, mbind, M_bind, bind, dotenv_config_run,
      populateProcessEnv_run.
    fold result env0 st0.
    destruct (loadFromAzure this (dotenv_parsed result) st0)
      as [[azureVars'|err] st1]; cbn [fst snd] in *; [|discriminate].
    injection Hload as ->. split; [rewrite Hframe; reflexivity|].
    destruct (default false (safe options)).
    + split; [|discriminate].
      destruct (validateFromEnvExample options _ _) as [[[]|err] st2];
        [|discriminate].
      intros out [= <-]. reflexivity.
    + split; [intros out [= <-]; reflexivity|]. intros _. eexists. reflexivity.
Qed.

End Config.


(** ** A store that fails *)

Section StoreFailure.

Context `{W : Collaborators}.

(** X18. A failure of the store is fatal. When the connection string
    resolves and the constructor of the store's client throws, [loadFromAzure]
    and [parse] throw what it threw, and the log gains the construction
    alone: the store is not enumerated. When the client is built, every
    reference the store yields decodes and a rejection cuts the run,
    [loadFromAzure] and [parse] throw that rejection, whatever entries came
    before it, and the log gains the construction and the enumeration
    alone: no limiter is built and no vault is reached. In both cases
    [process.env] and the registry are as before. *)
Theorem store_failure_aborts this src options st cs err :
  Spec.resolve_connection_string (connectionString this)
    (dotenv_parse src options) (process_env st) = Some cs ->
  let attempted events :=
    (Throw err : Result VariablesObject,
     {| process_env := process_env st;
        keyVaultClients := keyVaultClients st;
        log := log st ++ events |}) in
  (AppConfigurationClient_invalid cs = Some err ->
   loadFromAzure this (Some (dotenv_parse src options)) st
   = attempted [NewAppConfigurationClient cs] /\
   parse this src options st = attempted [NewAppConfigurationClient cs]) /\
  (AppConfigurationClient_invalid cs = None ->
   Forall (fun c => isKeyVaultReference c = true ->
                    is_Some (decodeKeyVaultReference (value c)))
          (yielded (listConfigurationSettings cs)) ->
   rejection (listConfigurationSettings cs) = Some err ->
   loadFromAzure this (Some (dotenv_parse src options)) st
   = attempted [NewAppConfigurationClient cs; ListConfigurationSettings cs] /\
   parse this src options st
   = attempted [NewAppConfigurationClient cs; ListConfigurationSettings cs]).
Proof.
  intros Hcs attempted. split.
  - intros Hclient.
    assert (Hload : loadFromAzure this (Some (dotenv_parse src options)) st
                    = attempted [NewAppConfigurationClient cs]).
    { rewrite loadFromAzure_cases. simpl (default _ _).
      rewrite Hcs, Hclient. reflexivity. }
    split; [exact Hload|]. rewrite parse_run, Hload. reflexivity.
  - intros Hclient Hall Hcut.
    assert (Hloop : getAppConfigurations_loop (listConfigurationSettings cs) ∅ ∅
                    = Throw err).
    { apply getAppConfigurations_loop_throw. right. split; assumption. }
    assert (Hload : loadFromAzure this (Some (dotenv_parse src options)) st
                    = attempted [NewAppConfigurationClient cs;
                                 ListConfigurationSettings cs]).
    { rewrite loadFromAzure_cases. simpl (default _ _).
      rewrite Hcs, Hclient. cbv zeta. rewrite Hloop. reflexivity. }
    split; [exact Hload|]. rewrite parse_run, Hload. reflexivity.
Qed.

End StoreFailure.

(** ** The ambient connection string *)

(** X16. When the constructor supplies no connection string and the
    ambient environment defines [AZURE_APP_CONFIG_CONNECTION_STRING], the
    local values play no part: the ambient value is the connection string
    when it is not empty, and [MissingAppConfigCredentialsError] is thrown
    when it is empty, even if the local file has a connection string. *)
Theorem ambient_connection_string_decides this dotenvVars st (ambient : string) :
  Spec.present (connectionString this) = None ->
  process_env st !! "AZURE_APP_CONFIG_CONNECTION_STRING" = Some ambient ->
  getAzureCredentials this dotenvVars st =
    (if String.eqb ambient ""
     then Throw MissingAppConfigCredentialsError
     else Ok {| cred_connectionString := ambient |}, st).
Proof.
  intros Hsupplied Hambient. rewrite getAzureCredentials_run.
  unfold Spec.resolve_connection_string, Spec.ambient_over_local.
  rewrite Hsupplied, Hambient. destruct ambient; reflexivity.
Qed.

(** ** The path of a secret URL *)

Lemma split_segment (s : string) :
  Trace.segment s -> JS.split "/" s = [s].
Proof.
  unfold Trace.segment. induction s as [|c s IH]; intros Hs; [reflexivity|].
  cbn [JS.split]. simpl in Hs.
  destruct (Ascii.eqb_spec c "/") as [-> | Hc]; [tauto|].
  rewrite IH by tauto. reflexivity.
Qed.

Lemma split_app (s rest : string) :
  Trace.segment s ->
  JS.split "/" (s ++ String "/" rest) = s :: JS.split "/" rest.
Proof.
  unfold Trace.segment. induction s as [|c s IH]; intros Hs.
  - reflexivity.
  - simpl in *.
    destruct (Ascii.eqb_spec c "/") as [-> | Hc]; [tauto|].
    rewrite IH by tauto. reflexivity.
Qed.

Lemma slash_app (s : string) : "/" ++ s = String "/" s.
Proof. reflexivity. Qed.

Lemma split_slash (rest : string) :
  JS.split "/" (String "/" rest) = "" :: JS.split "/" rest.
Proof. reflexivity. Qed.

Lemma split_head (s more : string) :
  Trace.segment s ->
  more = "" \/ (exists extra, more = "/" ++ extra) ->
  exists tail, JS.split "/" (s ++ more) = s :: tail.
Proof.
  intros Hs [-> | [extra ->]].
  - exists []. replace (s ++ "") with s; [apply split_segment, Hs|].
    clear Hs. induction s as [|c s IH]; [reflexivity|].
    change (String c s = String c (s ++ "")). f_equal. exact IH.
  - eexists. rewrite slash_app. apply split_app, Hs.
Qed.

Section SecretPath.

Context `{W : Collaborators}.

(** X17. For a reference whose [uri] parses as a URL with a parseable
    origin and a path [/collection/name], [/collection/name/version] or
    [/collection/name/version/...], decoding returns the secret name [name]
    and the version [version] (none in the first case), whatever the
    segment [collection] is and even when [version] is empty. *)
Theorem secret_path_segments config uri url origin_url collection name :
  Spec.json_uri (value config) = Some uri ->
  URL_new (JS.ToString uri) = Some url ->
  URL_new (JS.origin url) = Some origin_url ->
  Trace.segment collection -> Trace.segment name -> name <> "" ->
  (JS.pathname url = "/" ++ collection ++ "/" ++ name ->
   getKeyVaultReferenceInfo config =
     Ok {| vaultUrl := origin_url; secretUrl := url;
           secretName := name; secretVersion := None |}) /\
  (forall version more,
     Trace.segment version ->
     more = "" \/ (exists extra, more = "/" ++ extra) ->
     JS.pathname url = "/" ++ collection ++ "/" ++ name ++ "/" ++ version ++ more ->
     getKeyVaultReferenceInfo config =
       Ok {| vaultUrl := origin_url; secretUrl := url;
             secretName := name; secretVersion := Some version |}).
Proof.
  intros Huri Hurl Horigin Hcollection Hname Hnonempty.
  assert (Hpresent : Spec.present (Some name) = Some name)
    by (destruct name; [contradiction | reflexivity]).
  split.
  - intros Hpath. apply getKeyVaultReferenceInfo_Ok, decode_success.
    exists uri, url, name, origin_url. unfold Spec.path_segment.
    rewrite Hpath, !slash_app, split_slash, split_app, split_segment
      by assumption.
    cbn [lookup list_lookup]. repeat split; assumption || reflexivity.
  - intros version more Hversion Hmore Hpath.
    apply getKeyVaultReferenceInfo_Ok, decode_success.
    exists uri, url, name, origin_url. unfold Spec.path_segment.
    rewrite Hpath, !slash_app, split_slash, !split_app by assumption.
    destruct (split_head version more Hversion Hmore) as [tail ->].
    cbn [lookup list_lookup]. repeat split; assumption || reflexivity.
Qed.

End SecretPath.

(** ** The properties at concrete worlds *)

Lemma registry_ok_initial env : Trace.registry_ok (initial_state env).
Proof.
  split; [apply NoDup_nil_2|]. split.
  - intros vaultURL. simpl. rewrite lookup_empty. split.
    + intros Hin. apply elem_of_nil in Hin. contradiction.
    + intros [c Hc]. discriminate.
  - intros vaultURL client. simpl. rewrite lookup_empty. discriminate.
Qed.

Ltac segment_tac :=
  unfold Trace.segment; simpl; intuition discriminate.

(** X2 at the scenario of the specification, from the empty state. *)
Lemma one_client_per_origin_witness :
  Trace.clients_created
    (log (snd (loadFromAzure (W := Sample.scenario)
                 (Sample.instance (Some Sample.connection)) None
                 (initial_state ∅))))
  = ["https://v.vault.azure.net/"] /\
  Trace.registry_ok
    (snd (loadFromAzure (W := Sample.scenario)
            (Sample.instance (Some Sample.connection)) None (initial_state ∅))).
Proof.
  split; [vm_compute; reflexivity|].
  apply (one_client_per_origin (W := Sample.scenario)
           (Sample.instance (Some Sample.connection)) None "" None
           Sample.no_options (initial_state ∅) (registry_ok_initial ∅)).
Defined.

(** X3 at the references of the scenario. *)
Lemma getSecretsFromKeyVault_resolved_witness :
  let this := Sample.instance (Some Sample.connection) in
  let refs := keyVaultReferences
                (Sample.returned Sample.no_configurations
                   (getAppConfigurations_loop (W := Sample.scenario)
                      Sample.scenario_store ∅ ∅)) in
  exists secrets,
    fst (getSecretsFromKeyVault (W := Sample.scenario) this refs
           (initial_state ∅)) = Ok secrets /\
    dom secrets = dom refs /\
    secrets !! "C" = Some (Some "3").
Proof.
  intros this refs.
  pose (secrets := Sample.returned (∅ : VariablesObject)
                     (fst (getSecretsFromKeyVault (W := Sample.scenario) this
                             refs (initial_state ∅)))).
  pose (st' := snd (getSecretsFromKeyVault (W := Sample.scenario) this refs
                      (initial_state ∅))).
  assert (Hrun : getSecretsFromKeyVault (W := Sample.scenario) this refs
                   (initial_state ∅) = (Ok secrets, st'))
    by (vm_compute; reflexivity).
  destruct (getSecretsFromKeyVault_resolved (W := Sample.scenario) this refs
              (initial_state ∅) secrets st' (registry_ok_initial ∅) Hrun)
    as [Hdom _].
  exists secrets. rewrite Hrun. split; [reflexivity|].
  split; [exact Hdom | vm_compute; reflexivity].
Defined.

(** X4 at the references of the scenario, which the vault resolves. *)
Lemma getSecretsFromKeyVault_succeeds_iff_witness :
  let this := Sample.instance (Some Sample.connection) in
  let refs := keyVaultReferences
                (Sample.returned Sample.no_configurations
                   (getAppConfigurations_loop (W := Sample.scenario)
                      Sample.scenario_store ∅ ∅)) in
  exists secrets,
    fst (getSecretsFromKeyVault (W := Sample.scenario) this refs
           (initial_state ∅)) = Ok secrets.
Proof.
  intros this refs.
  apply (proj1 (getSecretsFromKeyVault_succeeds_iff (W := Sample.scenario)
                  this refs (initial_state ∅) (registry_ok_initial ∅))).
  intros k info _. exists (Some "3"). reflexivity.
Defined.

(** X5 at the references of the scenario: one limiter of 23 milliseconds
    and one fetch. *)
Lemma getSecretsFromKeyVault_fetches_witness :
  let this := Sample.instance (Some Sample.connection) in
  let refs := keyVaultReferences
                (Sample.returned Sample.no_configurations
                   (getAppConfigurations_loop (W := Sample.scenario)
                      Sample.scenario_store ∅ ∅)) in
  exists new,
    log (snd (getSecretsFromKeyVault (W := Sample.scenario) this refs
                (initial_state ∅))) = new /\
    Trace.limiters new = [JS.of_Z 23] /\
    Trace.fetches new = [("https://v.vault.azure.net/", "s", None)].
Proof.
  intros this refs.
  destruct (getSecretsFromKeyVault_fetches (W := Sample.scenario) this refs
              (initial_state ∅) (registry_ok_initial ∅))
    as (new & Hlog & _ & Hlimiters & _ & Hfetches).
  exists new. split; [exact Hlog|]. split; [exact Hlimiters|].
  apply Permutation_singleton_r.
  rewrite (Hfetches (Sample.returned ∅
                       (fst (getSecretsFromKeyVault (W := Sample.scenario)
                               this refs (initial_state ∅)))))
    by (vm_compute; reflexivity).
  vm_compute. reflexivity.
Defined.

(** X7 at the store that enumerates [K] twice: the plain entry is kept,
    since the later entry of that key is a reference. *)
Lemma getAppConfigurations_last_wins_witness :
  exists cfg,
    fst (getAppConfigurations (W := Sample.collision) Sample.client
           (initial_state ∅)) = Ok cfg /\
    appConfigVars cfg !! "K" = Some (Some "plain").
Proof.
  pose (cfg := Sample.returned Sample.no_configurations
                 (fst (getAppConfigurations (W := Sample.collision)
                         Sample.client (initial_state ∅)))).
  pose (st' := snd (getAppConfigurations (W := Sample.collision)
                      Sample.client (initial_state ∅))).
  assert (Hrun : getAppConfigurations (W := Sample.collision) Sample.client
                   (initial_state ∅) = (Ok cfg, st'))
    by (vm_compute; reflexivity).
  exists cfg. rewrite Hrun. split; [reflexivity|].
  apply (proj1 (getAppConfigurations_last_wins (W := Sample.collision)
                  Sample.client (initial_state ∅) cfg st' []
                  (Sample.plain "K" (Some "dev") "plain")
                  [Sample.reference "K" (Some "prod")
                     "https://v.vault.azure.net/secrets/s"] Hrun eq_refl
                  ltac:(intros c' Hc' _;
                        apply list_elem_of_singleton in Hc' as ->;
                        discriminate))).
  discriminate.
Defined.

(** X9 at the store whose only entry is the malformed reference [D]. *)
Lemma malformed_reference_aborts_witness :
  parse (W := Sample.malformed) (Sample.instance (Some Sample.connection))
    "" None (initial_state ∅)
  = (Throw (InvalidKeyVaultUrlError "D"),
     {| process_env := ∅;
        keyVaultClients := ∅;
        log := [NewAppConfigurationClient Sample.connection;
                ListConfigurationSettings Sample.connection] |}).
Proof.
  destruct (malformed_reference_aborts (W := Sample.malformed)
              (Sample.instance (Some Sample.connection)) "" None
              (initial_state ∅) Sample.connection)
    as (c & Hc & _ & _ & _ & Hparse).
  - vm_compute. reflexivity.
  - reflexivity.
  - apply Exists_cons_hd. split; vm_compute; reflexivity.
  - rewrite Hparse.
    apply list_elem_of_singleton in Hc as ->. reflexivity.
Defined.

(** X10 at a store without references, with a vault that rejects every
    fetch. *)
Lemma no_references_no_vault_witness :
  loadFromAzure (W := Sample.plain_only)
    (Sample.instance (Some Sample.connection)) None (initial_state ∅)
  = (Ok {[ "B" := Some "2"; "D" := Some "4" ]},
     {| process_env := ∅;
        keyVaultClients := ∅;
        log := [NewAppConfigurationClient Sample.connection;
                ListConfigurationSettings Sample.connection;
                NewBottleneck (JS.of_Z 23)] |}).
Proof.
  destruct (no_references_no_vault (W := Sample.plain_only)
              (Sample.instance (Some Sample.connection)) None
              (initial_state ∅) Sample.connection)
    as (vars & Hload & _ & _).
  - vm_compute. reflexivity.
  - reflexivity.
  - repeat constructor.
  - reflexivity.
  - vm_compute. reflexivity.
Defined.

(** X11 at the scenario of the specification. *)
Lemma parse_resolved_witness :
  exists merged,
    fst (parse (W := Sample.scenario) (Sample.instance (Some Sample.connection))
           "A=1" None (initial_state ∅)) = Ok merged /\
    merged !! "A" = Some (Some "1") /\
    merged !! "B" = Some (Some "2") /\
    merged !! "C" = Some (Some "3").
Proof.
  pose (cfg := Sample.returned Sample.no_configurations
                 (getAppConfigurations_loop (W := Sample.scenario)
                    Sample.scenario_store ∅ ∅)).
  assert (Hloop : getAppConfigurations_loop (W := Sample.scenario)
                    Sample.scenario_store ∅ ∅ = Ok cfg)
    by (vm_compute; reflexivity).
  destruct (parse_resolved (W := Sample.scenario)
              (Sample.instance (Some Sample.connection)) "A=1" None
              (initial_state ∅) Sample.connection cfg (registry_ok_initial ∅))
    as (merged & Hparse & Hmerged).
  - vm_compute. reflexivity.
  - reflexivity.
  - exact Hloop.
  - intros k info _. exists (Some "3"). reflexivity.
  - exists merged. split; [exact Hparse|].
    rewrite (Hmerged "A"), (Hmerged "B"), (Hmerged "C").
    repeat split; vm_compute; reflexivity.
Defined.

(** X12 at the scenario's store with a vault that rejects every fetch: the
    plain entry [B] still reaches the result. *)
Lemma plain_value_passes_through_witness :
  exists merged,
    fst (parse (W := Sample.unreachable (OtherError "unreachable"))
           (Sample.instance (Some Sample.connection)) "" None
           (initial_state ∅)) = Ok merged /\
    merged !! "B" = Some (Some "2").
Proof.
  pose (world := Sample.unreachable (OtherError "unreachable")).
  pose (cfg := Sample.returned Sample.no_configurations
                 (getAppConfigurations_loop (W := world)
                    Sample.scenario_store ∅ ∅)).
  assert (Hloop : getAppConfigurations_loop (W := world)
                    Sample.scenario_store ∅ ∅ = Ok cfg)
    by (vm_compute; reflexivity).
  destruct (plain_value_passes_through (W := world)
              (Sample.instance (Some Sample.connection)) "" None
              (initial_state ∅) Sample.connection cfg "B"
              (registry_ok_initial ∅))
    as (merged & Hparse & Hmerged).
  - vm_compute. reflexivity.
  - reflexivity.
  - exact Hloop.
  - vm_compute. reflexivity.
  - vm_compute. reflexivity.
  - exists merged. split; [exact Hparse|]. rewrite Hmerged.
    vm_compute. reflexivity.
Defined.

(** X13 at the scenario's store with a vault that rejects every fetch. *)
Lemma vault_down_plain_values_witness :
  fst (loadFromAzure (W := Sample.unreachable (NotAnError "unreachable"))
         (Sample.instance (Some Sample.connection)) None (initial_state ∅))
  = Ok {[ "B" := Some "2" ]}.
Proof.
  pose (world := Sample.unreachable (NotAnError "unreachable")).
  pose (cfg := Sample.returned Sample.no_configurations
                 (getAppConfigurations_loop (W := world)
                    Sample.scenario_store ∅ ∅)).
  assert (Hloop : getAppConfigurations_loop (W := world)
                    Sample.scenario_store ∅ ∅ = Ok cfg)
    by (vm_compute; reflexivity).
  rewrite (vault_down_plain_values (W := world)
             (Sample.instance (Some Sample.connection)) None
             (initial_state ∅) Sample.connection cfg (registry_ok_initial ∅)).
  - vm_compute. reflexivity.
  - intros vaultURL name version. eexists. reflexivity.
  - vm_compute. reflexivity.
  - reflexivity.
  - exact Hloop.
Defined.

(** X16 at an empty ambient connection string that hides a local one. *)
Lemma ambient_connection_string_decides_witness :
  getAzureCredentials (Sample.instance None)
    (Some {[ "AZURE_APP_CONFIG_CONNECTION_STRING" := Sample.connection ]})
    (initial_state {[ "AZURE_APP_CONFIG_CONNECTION_STRING" := "" ]})
  = (Throw MissingAppConfigCredentialsError,
     initial_state {[ "AZURE_APP_CONFIG_CONNECTION_STRING" := "" ]}).
Proof.
  apply (ambient_connection_string_decides (Sample.instance None)
           (Some {[ "AZURE_APP_CONFIG_CONNECTION_STRING" := Sample.connection ]})
           (initial_state {[ "AZURE_APP_CONFIG_CONNECTION_STRING" := "" ]})
           "" eq_refl).
  vm_compute. reflexivity.
Defined.

(** X17 at a URL of the [keys] collection with a version and one more
    segment. *)
Lemma secret_path_segments_witness :
  getKeyVaultReferenceInfo (W := Sample.scenario)
    (Sample.reference "C" None "https://v.vault.azure.net/keys/s/v1/x")
  = Ok {| vaultUrl := {| JS.href := "https://v.vault.azure.net/";
                         JS.origin := "https://v.vault.azure.net";
                         JS.pathname := "/" |};
          secretUrl := {| JS.href := "https://v.vault.azure.net/keys/s/v1/x";
                          JS.origin := "https://v.vault.azure.net";
                          JS.pathname := "/keys/s/v1/x" |};
          secretName := "s";
          secretVersion := Some "v1" |}.
Proof.
  apply (proj2 (secret_path_segments (W := Sample.scenario)
                  (Sample.reference "C" None
                     "https://v.vault.azure.net/keys/s/v1/x")
                  (JS.Str "https://v.vault.azure.net/keys/s/v1/x")
                  {| JS.href := "https://v.vault.azure.net/keys/s/v1/x";
                     JS.origin := "https://v.vault.azure.net";
                     JS.pathname := "/keys/s/v1/x" |}
                  {| JS.href := "https://v.vault.azure.net/";
                     JS.origin := "https://v.vault.azure.net";
                     JS.pathname := "/" |}
                  "keys" "s"
                  ltac:(vm_compute; reflexivity)
                  ltac:(vm_compute; reflexivity)
                  ltac:(vm_compute; reflexivity)
                  ltac:(segment_tac) ltac:(segment_tac)
                  ltac:(discriminate))
          "v1" "/x").
  - segment_tac.
  - right. exists "x". reflexivity.
  - reflexivity.
Defined.

(** X18 at a connection string the client of the store does not accept, and
    at a store whose run is cut after its first entry. *)
Lemma store_failure_aborts_witness :
  loadFromAzure (W := Sample.scenario) (Sample.instance (Some "Endpoint=store"))
    (Some {[ "A" := "1" ]}) (initial_state ∅)
  = (Throw (OtherError "Invalid connection string"),
     {| process_env := ∅;
        keyVaultClients := ∅;
        log := [NewAppConfigurationClient "Endpoint=store"] |}) /\
  parse (W := Sample.cut) (Sample.instance (Some Sample.connection)) ""
    None (initial_state ∅)
  = (Throw (OtherError "request failed"),
     {| process_env := ∅;
        keyVaultClients := ∅;
        log := [NewAppConfigurationClient Sample.connection;
                ListConfigurationSettings Sample.connection] |}).
Proof.
  split.
  - apply (proj1 (store_failure_aborts (W := Sample.scenario)
                    (Sample.instance (Some "Endpoint=store")) "A=1" None
                    (initial_state ∅) "Endpoint=store"
                    (OtherError "Invalid connection string") eq_refl)).
    reflexivity.
  - apply (proj2 (store_failure_aborts (W := Sample.cut)
                    (Sample.instance (Some Sample.connection)) "" None
                    (initial_state ∅) Sample.connection
                    (OtherError "request failed") eq_refl)).
    + reflexivity.
    + repeat constructor. discriminate.
    + reflexivity.
Defined.
